(** * ClawBridge: the resilient RPC clients, the response router and the
      event buffer, embedded from the TypeScript sources.

    Sources embedded here:
    - [cdp-bridge.ts]      (class [CdpBridge], the Target Control connection)
    - [gateway-client.ts]  (class [GatewayClient], the Gateway connection)
    - [response-router.ts] (class [ResponseRouter], the Response Correlator)
    - [event-buffer.ts]    (class [EventBuffer], the Event Ring Buffer)
    - [getClaudeDesktopResolver] (the resolver that polls the bridge for the
      reply), [tools.ts] ([openclaw_status]) and the wiring of the client to
      the buffer in [index.ts]

    Conventions of the embedding.
    - JavaScript numbers that the code uses as counters, millisecond clocks
      and delays are integers of [Z]; every one of them stays far below
      2^53, where a double is an exact integer.
    - [Date.now()] is an input of the operation that reads it ([now]).
    - A [Promise] is a handle; the pair of closures [{resolve, reject}] kept in
      a pending map is that handle, and every call of one of the two closures
      is appended to a log of settle calls.  The state of a promise is the
      first call logged for it (later calls are ignored by JavaScript).
    - Callbacks supplied by the host are handles too; their invocations are
      logged with their arguments, and they return without throwing.
    - A class is a record of its fields; a method is a function on that
      record; the handlers the class installs on its socket and its timers
      are functions too, run by the events of a trace.  Code after an
      [await] is an event of its own, so that anything may happen in
      between.
    - [randomUUID()] is an oracle [nat -> string] indexed by the number of
      identifiers drawn so far. *)

From Stdlib Require Import ZArith Lia.
From stdpp Require Import base option list gmap strings pretty.

Local Open Scope Z_scope.

(* ===================================================================== *)
(** ** JavaScript values and promises                                     *)
(* ===================================================================== *)

(** The JSON values that travel as [params], [result] and [payload]. *)
Inductive JsValue : Type :=
| JUndefined
| JNull
| JBool (b : bool)
| JNum (n : Z)
| JStr (s : string)
| JArr (items : JsItems)
| JObj (fields : JsFields)
with JsItems : Type :=
| JEnd
| JItem (value : JsValue) (rest : JsItems)
with JsFields : Type :=
| JNil
| JField (key : string) (value : JsValue) (rest : JsFields).

(** Property access [v.key] on a value that may be [undefined]
    ([v?.key]): the first field of that name, else [undefined]. *)
Fixpoint field_of (key : string) (fields : JsFields) : JsValue :=
  match fields with
  | JNil => JUndefined
  | JField k v rest => if String.eqb k key then v else field_of key rest
  end.

Definition get (key : string) (v : JsValue) : JsValue :=
  match v with
  | JObj fields => field_of key fields
  | _ => JUndefined
  end.

(** Truthiness of a string ([if (s)]): the empty string is falsy. *)
Definition truthy_string (s : string) : bool := negb (String.eqb s "").

(** [WebSocket.readyState]. *)
Inductive ReadyState : Type := CONNECTING | OPEN | CLOSING | CLOSED.

#[global] Instance ReadyState_eq_dec : EqDecision ReadyState.
Proof. solve_decision. Defined.

Definition Promise : Type := nat.

(** One call of a promise's [resolve] or [reject] closure; a rejection
    carries the [message] of the [Error] it is given. *)
Inductive Settlement : Type :=
| Resolved (value : JsValue)
| Rejected (message : string).

(** The settle calls made so far, oldest first. *)
Definition SettleLog : Type := list (Promise * Settlement).

(** The settle calls made on promise [h], oldest first. *)
Definition calls_on (h : Promise) (log : SettleLog) : list Settlement :=
  omap (λ e : Promise * Settlement,
          if decide (e.1 = h) then Some e.2 else None) log.

(** The state of promise [h]: [None] while pending, else its first call. *)
Definition promise_state (h : Promise) (log : SettleLog) : option Settlement :=
  head (calls_on h log).

(** [for (const [, p] of pending) p.reject(err)]: one [reject] call per
    entry of the map.  (JavaScript visits the entries in insertion order;
    [map_to_list] fixes some order; nothing below depends on which.) *)
Definition reject_each `{Countable K} (pending : gmap K Promise) (message : string)
  : SettleLog :=
  (λ kp : K * Promise, (kp.2, Rejected message)) <$> map_to_list pending.

(** [Math.min(backoffMs * 2, 30_000)]. *)
Definition next_backoff (backoffMs : Z) : Z := Z.min (backoffMs * 2) 30000.

(* ===================================================================== *)
(** ** Gateway frames (the types of gateway-client.ts)                    *)
(* ===================================================================== *)

(** [EventFrame]: [{type: "event", event, payload?, seq?}]. *)
Record EventFrame : Type := {
  event : string;
  payload : JsValue;
  seq : option Z;
}.

(* ===================================================================== *)
(** ** event-buffer.ts                                                    *)
(* ===================================================================== *)

Module EventBuffer.

Record BufferedEvent : Type := {
  ts : Z;
  frame : EventFrame;
}.

Definition DEFAULT_CAPACITY : Z := 1000.

Record t : Type := {
  buf : list BufferedEvent;
  capacity : Z;
}.

(** [constructor(capacity = DEFAULT_CAPACITY)]. *)
Definition new (capacity : option Z) : t :=
  {| buf := []; capacity := default DEFAULT_CAPACITY capacity |}.

(** [push(frame)]: [shift()] when [buf.length >= capacity], then append
    [{ts: Date.now(), frame}].  [shift()] on an empty array does nothing. *)
Definition push (now : Z) (frame : EventFrame) (b : t) : t :=
  let kept :=
    if Z.of_nat (length (buf b)) >=? capacity b then tail (buf b) else buf b in
  {| buf := kept ++ [ {| ts := now; frame := frame |} ];
     capacity := capacity b |}.

Record QueryOpts : Type := {
  eventType : option string;
  since : option Z;
  limit : option Z;
}.

(** [query(opts?)]: each filter applies when its option is truthy (a
    non-empty string, a non-zero number); [slice(-limit)] keeps the last
    [limit] entries. *)
Definition query (opts : option QueryOpts) (b : t) : list BufferedEvent :=
  let results := buf b in
  let results :=
    match opts ≫= eventType with
    | Some ty =>
        if truthy_string ty
        then List.filter (λ e, String.eqb (event (frame e)) ty) results
        else results
    | None => results
    end in
  let results :=
    match opts ≫= since with
    | Some cutoff =>
        if cutoff =? 0 then results
        else List.filter (λ e, ts e >=? cutoff) results
    | None => results
    end in
  match opts ≫= limit with
  | Some l =>
      if 0 <? l
      then drop (length results - Z.to_nat l)%nat results
      else results
  | None => results
  end.

Definition clear (b : t) : t := {| buf := []; capacity := capacity b |}.

(** [get size()]. *)
Definition size (b : t) : nat := length (buf b).

(** Pushing a list of events, each with the clock value read at its push. *)
Definition push_all (events : list (Z * EventFrame)) (b : t) : t :=
  foldl (λ acc e, push e.1 e.2 acc) b events.

Definition stamped (e : Z * EventFrame) : BufferedEvent :=
  {| ts := e.1; frame := e.2 |}.

End EventBuffer.

(* ===================================================================== *)
(** ** response-router.ts                                                 *)
(* ===================================================================== *)

Module ResponseRouter.

Record PendingMessage : Type := {
  channelId : string;
  from : string;
  injectedAt : Z;
}.

Definition CONTEXT_TIMEOUT_MS : Z := 300000.

(** A registered response callback, and one invocation of it. *)
Definition Callback : Type := nat.

Record Delivery : Type := {
  sink : Callback;
  toChannel : string;
  toSender : string;
  text : string;
}.

Record t : Type := {
  pendingMessages : list PendingMessage;
  responseCallback : option Callback;
  (** every invocation of the response callback, oldest first *)
  delivered : list Delivery;
}.

Definition new : t :=
  {| pendingMessages := []; responseCallback := None; delivered := [] |}.

Definition onResponse (callback : Callback) (r : t) : t :=
  {| pendingMessages := pendingMessages r;
     responseCallback := Some callback;
     delivered := delivered r |}.

(** The loop of [pruneStale]:
    [while (q.length > 0 && q[0].injectedAt < cutoff) q.shift()]. *)
Fixpoint shift_while_stale (cutoff : Z) (q : list PendingMessage)
  : list PendingMessage :=
  match q with
  | [] => []
  | m :: rest =>
      if injectedAt m <? cutoff then shift_while_stale cutoff rest else q
  end.

Definition pruneStale (now : Z) (r : t) : t :=
  let cutoff := now - CONTEXT_TIMEOUT_MS in
  {| pendingMessages := shift_while_stale cutoff (pendingMessages r);
     responseCallback := responseCallback r;
     delivered := delivered r |}.

Definition trackInjection (now : Z) (channelId from : string) (r : t) : t :=
  pruneStale now
    {| pendingMessages :=
         pendingMessages r ++
           [ {| channelId := channelId; from := from; injectedAt := now |} ];
       responseCallback := responseCallback r;
       delivered := delivered r |}.

Definition routeResponse (now : Z) (text : string) (r : t) : t :=
  let r := pruneStale now r in
  match pendingMessages r with
  | [] => r
  | pending :: rest =>
      let r := {| pendingMessages := rest;
                  responseCallback := responseCallback r;
                  delivered := delivered r |} in
      match responseCallback r with
      | None => r
      | Some cb =>
          {| pendingMessages := pendingMessages r;
             responseCallback := responseCallback r;
             delivered :=
               delivered r ++
                 [ {| sink := cb; toChannel := channelId pending;
                      toSender := from pending; text := text |} ] |}
      end
  end.

(** The callback [startObserving] hands to the bridge:
    [if (data.type !== "response" || !data.text) return;
     this.routeResponse(data.text)]. *)
Definition observed (now : Z) (type text : string) (r : t) : t :=
  if negb (String.eqb type "response") || negb (truthy_string text)
  then r
  else routeResponse now text r.

End ResponseRouter.

(* ===================================================================== *)
(** ** cdp-bridge.ts                                                      *)
(* ===================================================================== *)

Module CdpBridge.

Record CdpTarget : Type := {
  id : string;
  type : string;
  title : string;
  url : string;
  webSocketDebuggerUrl : option string;
}.

(** What [new URL(...)] exposes and [normalizeCdpWsUrl] touches. *)
Record Url : Type := {
  hostname : string;
  port : string;
  path : string;
}.

(** The request written to the socket: [{id, method, params}]. *)
Record Request : Type := {
  req_id : Z;
  req_method : string;
  req_params : JsValue;
}.

(** The [error] member of a response: [{message?: string}]. *)
Record ErrorObject : Type := { message : option string }.

(** A parsed inbound message, read the way the handler casts it:
    [id] is [Some] when [typeof parsed.id === "number"], [method] is [Some]
    when [typeof parsed.method === "string"]. *)
Record Message : Type := {
  msg_id : option Z;
  msg_method : option string;
  msg_params : option JsValue;
  msg_result : JsValue;
  msg_error : option ErrorObject;
}.

(** The raw data of a [message] event: [JSON.parse] throws or yields a
    message. *)
Inductive Incoming : Type :=
| Unparsable
| Parsed (m : Message).

(** What [discoverTargets] comes back with: [fetch] throws, the HTTP status
    is not ok, or the body is the list of targets. *)
Inductive Discovery : Type :=
| FetchFailed (reason : string)
| HttpStatus (status : Z)
| Targets (targets : list CdpTarget).

Definition Listener : Type := nat.
Definition Callback : Type := nat.

(** The fields of the class, followed by the effects of the object on its
    surroundings. *)
Record t : Type := {
  ws : option ReadyState;
  nextId : Z;
  pending : gmap Z Promise;
  eventListeners : gmap string (list Listener);
  closed : bool;
  backoffMs : Z;
  pingTimer : bool;
  connectHost : string;
  connectPort : Z;
  responseCallback : option Callback;
  (** promises created by [send] so far *)
  allocated : nat;
  (** calls of [resolve] and [reject] *)
  settles : SettleLog;
  (** frames handed to [ws.send] *)
  sent : list Request;
  (** delays handed to [setTimeout] by [scheduleReconnect] *)
  timeouts : list Z;
  (** addresses handed to [new WebSocket] that reached [open] *)
  opened : list Url;
  (** invocations of event listeners *)
  notified : list (Listener * JsValue);
}.

Definition new : t :=
  {| ws := None; nextId := 1; pending := ∅; eventListeners := ∅;
     closed := false; backoffMs := 1000; pingTimer := false;
     connectHost := "127.0.0.1"; connectPort := 19222;
     responseCallback := None;
     allocated := 0%nat; settles := []; sent := []; timeouts := [];
     opened := []; notified := [] |}.

(** Field updates. *)
Definition with_ws (v : option ReadyState) (s : t) : t :=
  {| ws := v; nextId := nextId s; pending := pending s;
     eventListeners := eventListeners s; closed := closed s;
     backoffMs := backoffMs s; pingTimer := pingTimer s;
     connectHost := connectHost s; connectPort := connectPort s;
     responseCallback := responseCallback s; allocated := allocated s;
     settles := settles s; sent := sent s; timeouts := timeouts s;
     opened := opened s; notified := notified s |}.

Definition with_nextId (v : Z) (s : t) : t :=
  {| ws := ws s; nextId := v; pending := pending s;
     eventListeners := eventListeners s; closed := closed s;
     backoffMs := backoffMs s; pingTimer := pingTimer s;
     connectHost := connectHost s; connectPort := connectPort s;
     responseCallback := responseCallback s; allocated := allocated s;
     settles := settles s; sent := sent s; timeouts := timeouts s;
     opened := opened s; notified := notified s |}.

Definition with_pending (v : gmap Z Promise) (s : t) : t :=
  {| ws := ws s; nextId := nextId s; pending := v;
     eventListeners := eventListeners s; closed := closed s;
     backoffMs := backoffMs s; pingTimer := pingTimer s;
     connectHost := connectHost s; connectPort := connectPort s;
     responseCallback := responseCallback s; allocated := allocated s;
     settles := settles s; sent := sent s; timeouts := timeouts s;
     opened := opened s; notified := notified s |}.

Definition with_eventListeners (v : gmap string (list Listener)) (s : t) : t :=
  {| ws := ws s; nextId := nextId s; pending := pending s;
     eventListeners := v; closed := closed s;
     backoffMs := backoffMs s; pingTimer := pingTimer s;
     connectHost := connectHost s; connectPort := connectPort s;
     responseCallback := responseCallback s; allocated := allocated s;
     settles := settles s; sent := sent s; timeouts := timeouts s;
     opened := opened s; notified := notified s |}.

Definition with_closed (v : bool) (s : t) : t :=
  {| ws := ws s; nextId := nextId s; pending := pending s;
     eventListeners := eventListeners s; closed := v;
     backoffMs := backoffMs s; pingTimer := pingTimer s;
     connectHost := connectHost s; connectPort := connectPort s;
     responseCallback := responseCallback s; allocated := allocated s;
     settles := settles s; sent := sent s; timeouts := timeouts s;
     opened := opened s; notified := notified s |}.

Definition with_backoffMs (v : Z) (s : t) : t :=
  {| ws := ws s; nextId := nextId s; pending := pending s;
     eventListeners := eventListeners s; closed := closed s;
     backoffMs := v; pingTimer := pingTimer s;
     connectHost := connectHost s; connectPort := connectPort s;
     responseCallback := responseCallback s; allocated := allocated s;
     settles := settles s; sent := sent s; timeouts := timeouts s;
     opened := opened s; notified := notified s |}.

Definition with_pingTimer (v : bool) (s : t) : t :=
  {| ws := ws s; nextId := nextId s; pending := pending s;
     eventListeners := eventListeners s; closed := closed s;
     backoffMs := backoffMs s; pingTimer := v;
     connectHost := connectHost s; connectPort := connectPort s;
     responseCallback := responseCallback s; allocated := allocated s;
     settles := settles s; sent := sent s; timeouts := timeouts s;
     opened := opened s; notified := notified s |}.

Definition with_endpoint (host : string) (port : Z) (s : t) : t :=
  {| ws := ws s; nextId := nextId s; pending := pending s;
     eventListeners := eventListeners s; closed := closed s;
     backoffMs := backoffMs s; pingTimer := pingTimer s;
     connectHost := host; connectPort := port;
     responseCallback := responseCallback s; allocated := allocated s;
     settles := settles s; sent := sent s; timeouts := timeouts s;
     opened := opened s; notified := notified s |}.

Definition with_responseCallback (v : option Callback) (s : t) : t :=
  {| ws := ws s; nextId := nextId s; pending := pending s;
     eventListeners := eventListeners s; closed := closed s;
     backoffMs := backoffMs s; pingTimer := pingTimer s;
     connectHost := connectHost s; connectPort := connectPort s;
     responseCallback := v; allocated := allocated s;
     settles := settles s; sent := sent s; timeouts := timeouts s;
     opened := opened s; notified := notified s |}.

Definition with_allocated (v : nat) (s : t) : t :=
  {| ws := ws s; nextId := nextId s; pending := pending s;
     eventListeners := eventListeners s; closed := closed s;
     backoffMs := backoffMs s; pingTimer := pingTimer s;
     connectHost := connectHost s; connectPort := connectPort s;
     responseCallback := responseCallback s; allocated := v;
     settles := settles s; sent := sent s; timeouts := timeouts s;
     opened := opened s; notified := notified s |}.

Definition with_settles (v : SettleLog) (s : t) : t :=
  {| ws := ws s; nextId := nextId s; pending := pending s;
     eventListeners := eventListeners s; closed := closed s;
     backoffMs := backoffMs s; pingTimer := pingTimer s;
     connectHost := connectHost s; connectPort := connectPort s;
     responseCallback := responseCallback s; allocated := allocated s;
     settles := v; sent := sent s; timeouts := timeouts s;
     opened := opened s; notified := notified s |}.

Definition with_sent (v : list Request) (s : t) : t :=
  {| ws := ws s; nextId := nextId s; pending := pending s;
     eventListeners := eventListeners s; closed := closed s;
     backoffMs := backoffMs s; pingTimer := pingTimer s;
     connectHost := connectHost s; connectPort := connectPort s;
     responseCallback := responseCallback s; allocated := allocated s;
     settles := settles s; sent := v; timeouts := timeouts s;
     opened := opened s; notified := notified s |}.

Definition with_timeouts (v : list Z) (s : t) : t :=
  {| ws := ws s; nextId := nextId s; pending := pending s;
     eventListeners := eventListeners s; closed := closed s;
     backoffMs := backoffMs s; pingTimer := pingTimer s;
     connectHost := connectHost s; connectPort := connectPort s;
     responseCallback := responseCallback s; allocated := allocated s;
     settles := settles s; sent := sent s; timeouts := v;
     opened := opened s; notified := notified s |}.

Definition with_opened (v : list Url) (s : t) : t :=
  {| ws := ws s; nextId := nextId s; pending := pending s;
     eventListeners := eventListeners s; closed := closed s;
     backoffMs := backoffMs s; pingTimer := pingTimer s;
     connectHost := connectHost s; connectPort := connectPort s;
     responseCallback := responseCallback s; allocated := allocated s;
     settles := settles s; sent := sent s; timeouts := timeouts s;
     opened := v; notified := notified s |}.

Definition with_notified (v : list (Listener * JsValue)) (s : t) : t :=
  {| ws := ws s; nextId := nextId s; pending := pending s;
     eventListeners := eventListeners s; closed := closed s;
     backoffMs := backoffMs s; pingTimer := pingTimer s;
     connectHost := connectHost s; connectPort := connectPort s;
     responseCallback := responseCallback s; allocated := allocated s;
     settles := settles s; sent := sent s; timeouts := timeouts s;
     opened := opened s; notified := v |}.

(** [isLoopback] and [normalizeCdpWsUrl]. *)
Definition isLoopback (hostname : string) : bool :=
  String.eqb hostname "localhost" || String.eqb hostname "127.0.0.1"
  || String.eqb hostname "::1" || String.eqb hostname "[::1]".

Definition normalizeCdpWsUrl (wsUrl : Url) (host : string) (port : Z) : Url :=
  if isLoopback (hostname wsUrl) && negb (isLoopback host)
  then {| hostname := host; port := pretty port; path := path wsUrl |}
  else wsUrl.

Definition isConnected (s : t) : bool := bool_decide (ws s = Some OPEN).

Definition rejectAllPending (message : string) (s : t) : t :=
  with_pending ∅
    (with_settles (settles s ++ reject_each (pending s) message) s).

Definition stopHealthPing (s : t) : t := with_pingTimer false s.

Definition startHealthPing (s : t) : t := with_pingTimer true (stopHealthPing s).

(** [send(method, params)].  The function is [async]: the promise it returns
    is the caller's future, rejected at once when the guard throws, and
    otherwise the promise whose closures are stored under the fresh id. *)
Definition send (method : string) (params : JsValue) (s : t) : t * Promise :=
  let h := allocated s in
  let s := with_allocated (S h) s in
  if isConnected s then
    let id := nextId s in
    let s := with_nextId (id + 1) s in
    let s := with_sent (sent s ++ [ {| req_id := id; req_method := method;
                                       req_params := params |} ]) s in
    (with_pending (<[id := h]> (pending s)) s, h)
  else
    (with_settles (settles s ++ [(h, Rejected "CDP WebSocket not connected")]) s,
     h).

(** [on] and [off]: a [Set] of listeners per event name, in insertion
    order. *)
Definition on (event : string) (listener : Listener) (s : t) : t :=
  let set := default [] (eventListeners s !! event) in
  let set := if decide (listener ∈ set) then set else set ++ [listener] in
  with_eventListeners (<[event := set]> (eventListeners s)) s.

Definition off (event : string) (listener : Listener) (s : t) : t :=
  match eventListeners s !! event with
  | Some set =>
      with_eventListeners
        (<[event := List.filter (λ l, negb (Nat.eqb l listener)) set]>
           (eventListeners s)) s
  | None => s
  end.

Definition disconnect (s : t) : t :=
  let s := with_closed true s in
  let s := stopHealthPing s in
  let s := rejectAllPending "CDP bridge disconnected" s in
  match ws s with
  | Some _ => with_ws None s
  | None => s
  end.

(** [targets.find((t) => t.type === "page") ?? targets[0]]. *)
Definition select_target (targets : list CdpTarget) : option CdpTarget :=
  match List.find (λ t, String.eqb (type t) "page") targets with
  | Some t => Some t
  | None => head targets
  end.

(** The address the guard of [connect] lets through:
    [if (!target?.webSocketDebuggerUrl) throw ...]. *)
Definition usable_address (target : option CdpTarget) : option string :=
  match target with
  | Some t =>
      match webSocketDebuggerUrl t with
      | Some a => if truthy_string a then Some a else None
      | None => None
      end
  | None => None
  end.

(** How [openWebSocket] ends: the [open] event, or an [error] before it. *)
Inductive SocketOpening : Type :=
| SocketOpens
| SocketFails (reason : string).

(** How an [async] call ends. *)
Inductive Completion : Type :=
| Returned
| Thrown (message : string).

Definition NO_TARGET : string := "No CDP target with webSocketDebuggerUrl found".

(** [scheduleReconnect]: the callback given to [setTimeout] is the event
    [ReconnectTimer] below. *)
Definition scheduleReconnect (s : t) : t :=
  if closed s then s
  else
    let delay := backoffMs s in
    let s := with_backoffMs (next_backoff (backoffMs s)) s in
    with_timeouts (timeouts s ++ [delay]) s.

Definition listeners_of (name : string) (s : t) : list Listener :=
  default [] (eventListeners s !! name).

(** The [message] handler of [attachHandlers]. *)
Definition onMessage (data : Incoming) (s : t) : t :=
  match data with
  | Unparsable => s
  | Parsed m =>
      match msg_id m with
      | Some id =>
          match pending s !! id with
          | None => s
          | Some p =>
              let s := with_pending (delete id (pending s)) s in
              match msg_error m ≫= message with
              | Some text =>
                  if truthy_string text
                  then with_settles (settles s ++ [(p, Rejected text)]) s
                  else with_settles (settles s ++ [(p, Resolved (msg_result m))]) s
              | None =>
                  with_settles (settles s ++ [(p, Resolved (msg_result m))]) s
              end
          end
      | None =>
          match msg_method m with
          | Some name =>
              let params := default (JObj JNil) (msg_params m) in
              with_notified
                (notified s ++ ((λ l, (l, params)) <$> listeners_of name s)) s
          | None => s
          end
      end
  end.

(** The [close] handler of [attachHandlers]. *)
Definition onClose (s : t) : t :=
  let s := rejectAllPending "CDP WebSocket closed" s in
  let s := with_ws None s in
  let s := stopHealthPing s in
  scheduleReconnect s.

(** The [error] handler of [attachHandlers]. *)
Definition onError (message : string) (s : t) : t :=
  rejectAllPending message s.

Section Connect.

(** [new URL(text)]: [None] when the constructor throws. *)
Variable URL : string → option Url.

(** [connect(host, port)] up to its first [await]. *)
Definition connect_begin (host : string) (port : Z) (s : t) : t :=
  with_endpoint host port (with_closed false s).

(** The rest of [connect(host, port)], given what the discovery call and
    the socket came back with. *)
Definition connect_resume (host : string) (port : Z) (found : Discovery)
    (socket : SocketOpening) (s : t) : t * Completion :=
  match found with
  | FetchFailed reason => (s, Thrown reason)
  | HttpStatus status =>
      (s, Thrown ("CDP target discovery failed: HTTP " +:+ pretty status))
  | Targets targets =>
      match usable_address (select_target targets) with
      | None => (s, Thrown NO_TARGET)
      | Some address =>
          match URL address with
          | None => (s, Thrown "Invalid URL")
          | Some parsed =>
              let wsUrl := normalizeCdpWsUrl parsed host port in
              match socket with
              | SocketFails reason => (s, Thrown reason)
              | SocketOpens =>
                  let s := with_opened (opened s ++ [wsUrl]) s in
                  let s := with_ws (Some OPEN) s in
                  let s := with_backoffMs 1000 s in
                  (startHealthPing s, Returned)
              end
          end
      end
  end.


(** Everything that can happen to a bridge: the calls of its public
    methods, and the callbacks the socket and the timers run. *)
Inductive Event : Type :=
| Connect (host : string) (port : Z)
| ConnectResumed (host : string) (port : Z) (found : Discovery)
    (socket : SocketOpening)
| Send (method : string) (params : JsValue)
| On (event : string) (listener : Listener)
| Off (event : string) (listener : Listener)
| Disconnect
| ObserveResponses (callback : Callback)
| MessageEvent (data : Incoming)
| CloseEvent
| ErrorEvent (message : string)
| ReconnectTimer
| PingTimer
| SocketState (readyState : ReadyState).

Definition step (e : Event) (s : t) : t :=
  match e with
  | Connect host port => connect_begin host port s
  | ConnectResumed host port found socket =>
      (connect_resume host port found socket s).1
  | Send method params => (send method params s).1
  | On event listener => on event listener s
  | Off event listener => off event listener s
  | Disconnect => disconnect s
  | ObserveResponses callback =>
      (send "Runtime.addBinding"
         (JObj (JField "name" (JStr "__clawbridge") JNil))
         (with_responseCallback (Some callback) s)).1
  | MessageEvent data => onMessage data s
  | CloseEvent => onClose s
  | ErrorEvent message => onError message s
  | ReconnectTimer =>
      if closed s then s else connect_begin (connectHost s) (connectPort s) s
  | PingTimer =>
      if pingTimer s && isConnected s
      then (send "Runtime.evaluate"
              (JObj (JField "expression" (JStr "1") JNil)) s).1
      else s
  | SocketState readyState =>
      match ws s with
      | Some _ => with_ws (Some readyState) s
      | None => s
      end
  end.

Definition run (trace : list Event) (s : t) : t :=
  foldl (λ acc e, step e acc) s trace.

End Connect.

End CdpBridge.

(* ===================================================================== *)
(** ** gateway-client.ts                                                  *)
(* ===================================================================== *)

Module GatewayClient.

Definition PROTOCOL_VERSION : Z := 1.

(** [ResponseFrame.error]: [{message?: string}]. *)
Record ErrorObject : Type := { message : option string }.

(** A parsed inbound frame, by its [type]: ["event"], ["res"], or anything
    else. *)
Inductive Frame : Type :=
| Evt (evt : EventFrame)
| Res (id : string) (ok : bool) (body : JsValue) (error : option ErrorObject)
| Other.

(** The raw text of a [message] event: [JSON.parse] throws or yields a
    frame. *)
Inductive Incoming : Type :=
| Unparsable
| Parsed (f : Frame).

(** The request written to the socket: [{type: "req", id, method, params}]. *)
Record Request : Type := {
  req_id : string;
  req_method : string;
  req_params : JsValue;
}.

(** [GatewayClientOptions], the callbacks apart, and [process.platform]. *)
Record Options : Type := {
  url : option string;
  token : option string;
  platform : string;
}.

(** A call of [ws.close(code?, reason?)]. *)
Record CloseCall : Type := {
  code : option Z;
  reason : string;
}.

(** An invocation of one of the callbacks of the options. *)
Inductive CallbackCall : Type :=
| OnEvent (evt : EventFrame)
| OnHelloOk (hello : JsValue)
| OnClose (code : Z) (reason : string)
| OnConnectError (message : string).

(** The fields of the class, followed by the effects of the object on its
    surroundings. *)
Record t : Type := {
  ws : option ReadyState;
  opts : Options;
  pending : gmap string Promise;
  backoffMs : Z;
  closed : bool;
  connectNonce : option string;
  connectSent : bool;
  lastTick : option Z;
  tickIntervalMs : Z;
  (** the interval of the running watchdog timer *)
  tickTimer : option Z;
  (** identifiers drawn from [randomUUID] so far *)
  drawn : nat;
  (** promises created by [request] so far *)
  allocated : nat;
  (** calls of [resolve] and [reject] *)
  settles : SettleLog;
  (** connect promises whose [then]/[catch] of [sendConnect] has not run *)
  awaiting : list Promise;
  (** frames handed to [ws.send] *)
  sent : list Request;
  (** delays handed to [setTimeout] by [scheduleReconnect] *)
  timeouts : list Z;
  (** calls of [ws.close] *)
  closeCalls : list CloseCall;
  (** invocations of the callbacks of the options *)
  callbacks : list CallbackCall;
}.

Definition new (o : Options) : t :=
  {| ws := None; opts := o; pending := ∅; backoffMs := 1000;
     closed := false; connectNonce := None; connectSent := false;
     lastTick := None; tickIntervalMs := 30000; tickTimer := None;
     drawn := 0%nat; allocated := 0%nat; settles := []; awaiting := [];
     sent := []; timeouts := []; closeCalls := []; callbacks := [] |}.

(** Field updates. *)
Definition with_ws (v : option ReadyState) (s : t) : t :=
  {| ws := v; opts := opts s; pending := pending s;
     backoffMs := backoffMs s; closed := closed s;
     connectNonce := connectNonce s; connectSent := connectSent s;
     lastTick := lastTick s; tickIntervalMs := tickIntervalMs s;
     tickTimer := tickTimer s; drawn := drawn s; allocated := allocated s;
     settles := settles s; awaiting := awaiting s; sent := sent s;
     timeouts := timeouts s; closeCalls := closeCalls s;
     callbacks := callbacks s |}.

Definition with_pending (v : gmap string Promise) (s : t) : t :=
  {| ws := ws s; opts := opts s; pending := v; backoffMs := backoffMs s;
     closed := closed s; connectNonce := connectNonce s;
     connectSent := connectSent s; lastTick := lastTick s;
     tickIntervalMs := tickIntervalMs s; tickTimer := tickTimer s;
     drawn := drawn s; allocated := allocated s; settles := settles s;
     awaiting := awaiting s; sent := sent s; timeouts := timeouts s;
     closeCalls := closeCalls s; callbacks := callbacks s |}.

Definition with_backoffMs (v : Z) (s : t) : t :=
  {| ws := ws s; opts := opts s; pending := pending s; backoffMs := v;
     closed := closed s; connectNonce := connectNonce s;
     connectSent := connectSent s; lastTick := lastTick s;
     tickIntervalMs := tickIntervalMs s; tickTimer := tickTimer s;
     drawn := drawn s; allocated := allocated s; settles := settles s;
     awaiting := awaiting s; sent := sent s; timeouts := timeouts s;
     closeCalls := closeCalls s; callbacks := callbacks s |}.

Definition with_closed (v : bool) (s : t) : t :=
  {| ws := ws s; opts := opts s; pending := pending s;
     backoffMs := backoffMs s; closed := v;
     connectNonce := connectNonce s; connectSent := connectSent s;
     lastTick := lastTick s; tickIntervalMs := tickIntervalMs s;
     tickTimer := tickTimer s; drawn := drawn s; allocated := allocated s;
     settles := settles s; awaiting := awaiting s; sent := sent s;
     timeouts := timeouts s; closeCalls := closeCalls s;
     callbacks := callbacks s |}.

Definition with_connectNonce (v : option string) (s : t) : t :=
  {| ws := ws s; opts := opts s; pending := pending s;
     backoffMs := backoffMs s; closed := closed s; connectNonce := v;
     connectSent := connectSent s; lastTick := lastTick s;
     tickIntervalMs := tickIntervalMs s; tickTimer := tickTimer s;
     drawn := drawn s; allocated := allocated s; settles := settles s;
     awaiting := awaiting s; sent := sent s; timeouts := timeouts s;
     closeCalls := closeCalls s; callbacks := callbacks s |}.

Definition with_connectSent (v : bool) (s : t) : t :=
  {| ws := ws s; opts := opts s; pending := pending s;
     backoffMs := backoffMs s; closed := closed s;
     connectNonce := connectNonce s; connectSent := v;
     lastTick := lastTick s; tickIntervalMs := tickIntervalMs s;
     tickTimer := tickTimer s; drawn := drawn s; allocated := allocated s;
     settles := settles s; awaiting := awaiting s; sent := sent s;
     timeouts := timeouts s; closeCalls := closeCalls s;
     callbacks := callbacks s |}.

Definition with_lastTick (v : option Z) (s : t) : t :=
  {| ws := ws s; opts := opts s; pending := pending s;
     backoffMs := backoffMs s; closed := closed s;
     connectNonce := connectNonce s; connectSent := connectSent s;
     lastTick := v; tickIntervalMs := tickIntervalMs s;
     tickTimer := tickTimer s; drawn := drawn s; allocated := allocated s;
     settles := settles s; awaiting := awaiting s; sent := sent s;
     timeouts := timeouts s; closeCalls := closeCalls s;
     callbacks := callbacks s |}.

Definition with_tickIntervalMs (v : Z) (s : t) : t :=
  {| ws := ws s; opts := opts s; pending := pending s;
     backoffMs := backoffMs s; closed := closed s;
     connectNonce := connectNonce s; connectSent := connectSent s;
     lastTick := lastTick s; tickIntervalMs := v;
     tickTimer := tickTimer s; drawn := drawn s; allocated := allocated s;
     settles := settles s; awaiting := awaiting s; sent := sent s;
     timeouts := timeouts s; closeCalls := closeCalls s;
     callbacks := callbacks s |}.

Definition with_tickTimer (v : option Z) (s : t) : t :=
  {| ws := ws s; opts := opts s; pending := pending s;
     backoffMs := backoffMs s; closed := closed s;
     connectNonce := connectNonce s; connectSent := connectSent s;
     lastTick := lastTick s; tickIntervalMs := tickIntervalMs s;
     tickTimer := v; drawn := drawn s; allocated := allocated s;
     settles := settles s; awaiting := awaiting s; sent := sent s;
     timeouts := timeouts s; closeCalls := closeCalls s;
     callbacks := callbacks s |}.

Definition with_drawn (v : nat) (s : t) : t :=
  {| ws := ws s; opts := opts s; pending := pending s;
     backoffMs := backoffMs s; closed := closed s;
     connectNonce := connectNonce s; connectSent := connectSent s;
     lastTick := lastTick s; tickIntervalMs := tickIntervalMs s;
     tickTimer := tickTimer s; drawn := v; allocated := allocated s;
     settles := settles s; awaiting := awaiting s; sent := sent s;
     timeouts := timeouts s; closeCalls := closeCalls s;
     callbacks := callbacks s |}.

Definition with_allocated (v : nat) (s : t) : t :=
  {| ws := ws s; opts := opts s; pending := pending s;
     backoffMs := backoffMs s; closed := closed s;
     connectNonce := connectNonce s; connectSent := connectSent s;
     lastTick := lastTick s; tickIntervalMs := tickIntervalMs s;
     tickTimer := tickTimer s; drawn := drawn s; allocated := v;
     settles := settles s; awaiting := awaiting s; sent := sent s;
     timeouts := timeouts s; closeCalls := closeCalls s;
     callbacks := callbacks s |}.

Definition with_settles (v : SettleLog) (s : t) : t :=
  {| ws := ws s; opts := opts s; pending := pending s;
     backoffMs := backoffMs s; closed := closed s;
     connectNonce := connectNonce s; connectSent := connectSent s;
     lastTick := lastTick s; tickIntervalMs := tickIntervalMs s;
     tickTimer := tickTimer s; drawn := drawn s; allocated := allocated s;
     settles := v; awaiting := awaiting s; sent := sent s;
     timeouts := timeouts s; closeCalls := closeCalls s;
     callbacks := callbacks s |}.

Definition with_awaiting (v : list Promise) (s : t) : t :=
  {| ws := ws s; opts := opts s; pending := pending s;
     backoffMs := backoffMs s; closed := closed s;
     connectNonce := connectNonce s; connectSent := connectSent s;
     lastTick := lastTick s; tickIntervalMs := tickIntervalMs s;
     tickTimer := tickTimer s; drawn := drawn s; allocated := allocated s;
     settles := settles s; awaiting := v; sent := sent s;
     timeouts := timeouts s; closeCalls := closeCalls s;
     callbacks := callbacks s |}.

Definition with_sent (v : list Request) (s : t) : t :=
  {| ws := ws s; opts := opts s; pending := pending s;
     backoffMs := backoffMs s; closed := closed s;
     connectNonce := connectNonce s; connectSent := connectSent s;
     lastTick := lastTick s; tickIntervalMs := tickIntervalMs s;
     tickTimer := tickTimer s; drawn := drawn s; allocated := allocated s;
     settles := settles s; awaiting := awaiting s; sent := v;
     timeouts := timeouts s; closeCalls := closeCalls s;
     callbacks := callbacks s |}.

Definition with_timeouts (v : list Z) (s : t) : t :=
  {| ws := ws s; opts := opts s; pending := pending s;
     backoffMs := backoffMs s; closed := closed s;
     connectNonce := connectNonce s; connectSent := connectSent s;
     lastTick := lastTick s; tickIntervalMs := tickIntervalMs s;
     tickTimer := tickTimer s; drawn := drawn s; allocated := allocated s;
     settles := settles s; awaiting := awaiting s; sent := sent s;
     timeouts := v; closeCalls := closeCalls s;
     callbacks := callbacks s |}.

Definition with_closeCalls (v : list CloseCall) (s : t) : t :=
  {| ws := ws s; opts := opts s; pending := pending s;
     backoffMs := backoffMs s; closed := closed s;
     connectNonce := connectNonce s; connectSent := connectSent s;
     lastTick := lastTick s; tickIntervalMs := tickIntervalMs s;
     tickTimer := tickTimer s; drawn := drawn s; allocated := allocated s;
     settles := settles s; awaiting := awaiting s; sent := sent s;
     timeouts := timeouts s; closeCalls := v; callbacks := callbacks s |}.

Definition with_callbacks (v : list CallbackCall) (s : t) : t :=
  {| ws := ws s; opts := opts s; pending := pending s;
     backoffMs := backoffMs s; closed := closed s;
     connectNonce := connectNonce s; connectSent := connectSent s;
     lastTick := lastTick s; tickIntervalMs := tickIntervalMs s;
     tickTimer := tickTimer s; drawn := drawn s; allocated := allocated s;
     settles := settles s; awaiting := awaiting s; sent := sent s;
     timeouts := timeouts s; closeCalls := closeCalls s;
     callbacks := v |}.

Definition isConnected (s : t) : bool :=
  bool_decide (ws s = Some OPEN) && connectSent s.

(** [this.ws?.close(code, reason)]: the call is recorded and the socket
    starts closing; its [close] event comes later, as an event of its own. *)
Definition ws_close (code : option Z) (reason : string) (s : t) : t :=
  match ws s with
  | Some readyState =>
      let s := with_closeCalls
                 (closeCalls s ++ [ {| code := code; reason := reason |} ]) s in
      with_ws (Some (if decide (readyState = CLOSED) then CLOSED else CLOSING)) s
  | None => s
  end.

Definition flushPendingErrors (message : string) (s : t) : t :=
  with_pending ∅
    (with_settles (settles s ++ reject_each (pending s) message) s).

Definition start (s : t) : t :=
  if closed s then s else with_ws (Some CONNECTING) s.

Definition stop (s : t) : t :=
  let s := with_closed true s in
  let s := with_tickTimer None s in
  let s := ws_close None "" s in
  let s := with_ws None s in
  flushPendingErrors "gateway client stopped" s.

Definition scheduleReconnect (s : t) : t :=
  if closed s then s
  else
    let s := with_tickTimer None s in
    let delay := backoffMs s in
    let s := with_backoffMs (next_backoff (backoffMs s)) s in
    let s := with_connectNonce None s in
    let s := with_connectSent false s in
    with_timeouts (timeouts s ++ [delay]) s.

(** [startTickWatch]: the callback given to [setInterval] is [tickWatch]. *)
Definition startTickWatch (s : t) : t :=
  let interval := Z.max (tickIntervalMs s) 1000 in
  with_tickTimer (Some interval) s.

(** [!this.lastTick]. *)
Definition no_lastTick (s : t) : bool :=
  match lastTick s with
  | None => true
  | Some at_ => at_ =? 0
  end.

Definition tickWatch (now : Z) (s : t) : t :=
  if closed s || no_lastTick s then s
  else if now - default 0 (lastTick s) >? tickIntervalMs s * 2
       then ws_close (Some 4000) "tick timeout" s
       else s.

(** The [close] handler installed by [start]. *)
Definition onClose (code : Z) (reasonText : string) (s : t) : t :=
  let s := with_ws None s in
  let s := flushPendingErrors
             ("gateway closed (" +:+ pretty code +:+ "): " +:+ reasonText) s in
  let s := scheduleReconnect s in
  with_callbacks (callbacks s ++ [OnClose code reasonText]) s.

(** The [error] handler installed by [start]. *)
Definition onError (message : string) (s : t) : t :=
  if connectSent s then s
  else with_callbacks (callbacks s ++ [OnConnectError message]) s.

(** The [catch] of [sendConnect]. *)
Definition connectFailed (message : string) (s : t) : t :=
  let s := with_callbacks (callbacks s ++ [OnConnectError message]) s in
  ws_close (Some 1008) "connect failed" s.

(** [typeof helloOk.policy?.tickIntervalMs === "number" ? ... : 30_000]. *)
Definition advertised_interval (helloOk : JsValue) : Z :=
  match get "tickIntervalMs" (get "policy" helloOk) with
  | JNum n => n
  | _ => 30000
  end.

(** The [then] of [sendConnect].  Reading [helloOk.policy] of [undefined] or
    [null] throws after the backoff was reset, and the throw lands in the
    [catch]. *)
Definition helloReceived (now : Z) (helloOk : JsValue) (s : t) : t :=
  let s := with_backoffMs 1000 s in
  match helloOk with
  | JUndefined =>
      connectFailed "Cannot read properties of undefined (reading 'policy')" s
  | JNull =>
      connectFailed "Cannot read properties of null (reading 'policy')" s
  | _ =>
      let s := with_tickIntervalMs (advertised_interval helloOk) s in
      let s := with_lastTick (Some now) s in
      let s := startTickWatch s in
      with_callbacks (callbacks s ++ [OnHelloOk helloOk]) s
  end.

Definition settled (log : SettleLog) (h : Promise) : bool :=
  match promise_state h log with
  | Some _ => true
  | None => false
  end.

(** The reaction of [sendConnect] to its connect promise [h]: the [then]
    on a resolution, the [catch] on a rejection. *)
Definition react (now : Z) (log : SettleLog) (acc : t) (h : Promise) : t :=
  match promise_state h log with
  | Some (Resolved helloOk) => helloReceived now helloOk acc
  | Some (Rejected message) => connectFailed message acc
  | None => acc
  end.

(** The promise reactions that run once a handler has returned: the
    [then]/[catch] of every connect promise that got settled. *)
Definition microtasks (now : Z) (s : t) : t :=
  let log := settles s in
  let ready := List.filter (settled log) (awaiting s) in
  let s := with_awaiting (List.filter (λ h, negb (settled log h)) (awaiting s)) s in
  foldl (react now log) s ready.

(** [payload && typeof payload.nonce === "string" ? payload.nonce : null],
    kept when truthy. *)
Definition challenge_nonce (payload : JsValue) : option string :=
  match get "nonce" payload with
  | JStr nonce => if truthy_string nonce then Some nonce else None
  | _ => None
  end.

Definition connect_params (s : t) : JsValue :=
  JObj
    (JField "minProtocol" (JNum PROTOCOL_VERSION)
    (JField "maxProtocol" (JNum PROTOCOL_VERSION)
    (JField "client"
       (JObj (JField "id" (JStr "clawbridge-mcp")
             (JField "version" (JStr "0.1.0")
             (JField "platform" (JStr (platform (opts s)))
             (JField "mode" (JStr "backend") JNil)))))
    (JField "caps" (JArr JEnd)
    (JField "auth"
       (match token (opts s) with
        | Some tok =>
            if truthy_string tok
            then JObj (JField "token" (JStr tok) JNil)
            else JUndefined
        | None => JUndefined
        end)
    (JField "role" (JStr "operator")
    (JField "scopes" (JArr (JItem (JStr "operator.admin") JEnd)) JNil))))))).

Section Identifiers.

(** [randomUUID()]: the identifier returned by the n-th call. *)
Variable randomUUID : nat → string.

(** [request(method, params)].  The function is [async]: the promise it
    returns is the caller's future, rejected at once when the guard
    throws. *)
Definition request (method : string) (params : JsValue) (s : t) : t * Promise :=
  let h := allocated s in
  let s := with_allocated (S h) s in
  if bool_decide (ws s = Some OPEN) then
    let id := randomUUID (drawn s) in
    let s := with_drawn (S (drawn s)) s in
    let s := with_pending (<[id := h]> (pending s)) s in
    (with_sent (sent s ++ [ {| req_id := id; req_method := method;
                               req_params := params |} ]) s, h)
  else
    (with_settles (settles s ++ [(h, Rejected "gateway not connected")]) s, h).

Definition sendConnect (s : t) : t :=
  if connectSent s then s
  else
    let s := with_connectSent true s in
    let '(s, h) := request "connect" (connect_params s) s in
    with_awaiting (awaiting s ++ [h]) s.

Definition handleMessage (now : Z) (raw : Incoming) (s : t) : t :=
  match raw with
  | Unparsable => s
  | Parsed (Evt evt) =>
      if String.eqb (event evt) "connect.challenge" then
        match challenge_nonce (payload evt) with
        | Some nonce => sendConnect (with_connectNonce (Some nonce) s)
        | None => s
        end
      else
        let s := if String.eqb (event evt) "tick"
                 then with_lastTick (Some now) s else s in
        with_callbacks (callbacks s ++ [OnEvent evt]) s
  | Parsed (Res id ok body error) =>
      match pending s !! id with
      | None => s
      | Some p =>
          let s := with_pending (delete id (pending s)) s in
          if ok
          then with_settles (settles s ++ [(p, Resolved body)]) s
          else with_settles
                 (settles s ++
                    [(p, Rejected (default "unknown error" (error ≫= message)))]) s
      end
  | Parsed Other => s
  end.

(** Everything that can happen to a client: the calls of its public
    methods, and the callbacks the socket and the timers run. *)
Inductive Event : Type :=
| Start
| Stop
| RequestCall (method : string) (params : JsValue)
| OpenEvent
| MessageEvent (raw : Incoming)
| CloseEvent (code : Z) (reason : string)
| ErrorEvent (message : string)
| ReconnectTimer
| TickTimer
| SocketState (readyState : ReadyState).

(** The handler of an event, run at clock value [now]. *)
Definition handle (now : Z) (e : Event) (s : t) : t :=
  match e with
  | Start => start s
  | Stop => stop s
  | RequestCall method params => (request method params s).1
  | OpenEvent =>
      match ws s with
      | Some _ => with_ws (Some OPEN) s
      | None => s
      end
  | MessageEvent raw => handleMessage now raw s
  | CloseEvent code reason => onClose code reason s
  | ErrorEvent message => onError message s
  | ReconnectTimer => start s
  | TickTimer =>
      match tickTimer s with
      | Some _ => tickWatch now s
      | None => s
      end
  | SocketState readyState =>
      match ws s with
      | Some _ => with_ws (Some readyState) s
      | None => s
      end
  end.

(** One turn of the event loop: the handler, then the promise
    reactions. *)
Definition step (ne : Z * Event) (s : t) : t :=
  microtasks ne.1 (handle ne.1 ne.2 s).

Definition run (trace : list (Z * Event)) (s : t) : t :=
  foldl (λ acc ne, step ne acc) s trace.

End Identifiers.

End GatewayClient.

(* ===================================================================== *)
(** ** Vocabulary of the statements                                       *)
(* ===================================================================== *)

(** A record of the correlator is stale at [now] when its age exceeds the
    horizon. *)
Definition stale (now : Z) (m : ResponseRouter.PendingMessage) : Prop :=
  now - ResponseRouter.injectedAt m > ResponseRouter.CONTEXT_TIMEOUT_MS.

Definition sample_frame (name : string) : EventFrame :=
  {| event := name; payload := JNull; seq := None |}.

(** The backoff interval after [k] consecutive doublings from 1000 ms:
    [min(1000 * 2^k, 30000)]. *)
Definition backoff_after (k : nat) : Z := Z.min (1000 * 2 ^ Z.of_nat k) 30000.

(** A step either leaves the backoff and the scheduled delays alone, or
    schedules the current backoff and doubles it. *)
Definition backoff_step (b : Z) (ts : list Z) (b' : Z) (ts' : list Z) : Prop :=
  (b' = b ∧ ts' = ts) ∨ (b' = next_backoff b ∧ ts' = ts ++ [b]).

(** A step of the bridge is a successful reopening when it is the rest of a
    [connect] that returns. *)
Definition cdp_reopens (URL : string → option CdpBridge.Url)
    (e : CdpBridge.Event) (s : CdpBridge.t) : bool :=
  match e with
  | CdpBridge.ConnectResumed host port found socket =>
      match (CdpBridge.connect_resume URL host port found socket s).2 with
      | CdpBridge.Returned => true
      | CdpBridge.Thrown _ => false
      end
  | _ => false
  end.

(** No step of the trace, run from [s], is a successful reopening. *)
Fixpoint cdp_no_reopen (URL : string → option CdpBridge.Url)
    (trace : list CdpBridge.Event) (s : CdpBridge.t) : bool :=
  match trace with
  | [] => true
  | e :: rest =>
      negb (cdp_reopens URL e s) && cdp_no_reopen URL rest (CdpBridge.step URL e s)
  end.

(** The [close] handler of the bridge is attached in the [open] callback of
    [openWebSocket], and a socket emits [close] once: a [CloseEvent] comes
    from a socket that reached [open] and has not closed yet.
    [cdp_receivable URL closes trace s]: run from [s], of whose opened
    sockets [closes] have closed, every [CloseEvent] of [trace] has such a
    socket to come from.  Nothing is asked of the other events. *)
Fixpoint cdp_receivable (URL : string → option CdpBridge.Url) (closes : nat)
    (trace : list CdpBridge.Event) (s : CdpBridge.t) : bool :=
  match trace with
  | [] => true
  | e :: rest =>
      match e with
      | CdpBridge.CloseEvent =>
          (closes <? length (CdpBridge.opened s))%nat
          && cdp_receivable URL (S closes) rest (CdpBridge.step URL e s)
      | _ => cdp_receivable URL closes rest (CdpBridge.step URL e s)
      end
  end.

Definition resolved (log : SettleLog) (h : Promise) : bool :=
  match promise_state h log with
  | Some (Resolved _) => true
  | _ => false
  end.

(** A step of the gateway client is a successful reopening when its handler
    resolves a connect promise, so that the [then] of [sendConnect] runs. *)
Definition gateway_reopens (randomUUID : nat → string)
    (ne : Z * GatewayClient.Event) (s : GatewayClient.t) : bool :=
  let s' := GatewayClient.handle randomUUID ne.1 ne.2 s in
  existsb (resolved (GatewayClient.settles s')) (GatewayClient.awaiting s').

Fixpoint gateway_no_reopen (randomUUID : nat → string)
    (trace : list (Z * GatewayClient.Event)) (s : GatewayClient.t) : bool :=
  match trace with
  | [] => true
  | ne :: rest =>
      negb (gateway_reopens randomUUID ne s)
      && gateway_no_reopen randomUUID rest (GatewayClient.step randomUUID ne s)
  end.

(** *** The bookkeeping both clients share

    Both classes keep the same three things about their calls: the pending
    map from correlation id to promise, the number of promises created, and
    the settle calls made.  Every handler of either class acts on them in
    one of five ways. *)

Section Core.

Context `{Countable K}.

Record Core : Type := {
  c_pending : gmap K Promise;
  c_allocated : nat;
  c_settles : SettleLog;
}.

Inductive Label : Type :=
| Quiet                                (* nothing *)
| Register (k : K)                     (* a call goes out under id [k] *)
| Fail (message : string)              (* a call is rejected at once *)
| Settle (k : K) (st : Settlement)     (* a response with id [k] arrives *)
| Flush (message : string).            (* every pending call is rejected *)

Definition core_apply (l : Label) (c : Core) : Core :=
  match l with
  | Quiet => c
  | Register k =>
      {| c_pending := <[k := c_allocated c]> (c_pending c);
         c_allocated := S (c_allocated c);
         c_settles := c_settles c |}
  | Fail message =>
      {| c_pending := c_pending c;
         c_allocated := S (c_allocated c);
         c_settles := c_settles c ++ [(c_allocated c, Rejected message)] |}
  | Settle k st =>
      match c_pending c !! k with
      | Some p =>
          {| c_pending := delete k (c_pending c);
             c_allocated := c_allocated c;
             c_settles := c_settles c ++ [(p, st)] |}
      | None => c
      end
  | Flush message =>
      {| c_pending := ∅;
         c_allocated := c_allocated c;
         c_settles := c_settles c ++ reject_each (c_pending c) message |}
  end.

(** Promise [h] is the future of a call in flight. *)
Definition in_flight (h : Promise) (c : Core) : Prop :=
  (h < c_allocated c)%nat ∧ calls_on h (c_settles c) = [].

Record core_inv (c : Core) : Prop := {
  (** the promises of the pending map are in flight *)
  inv_pending : ∀ k h, c_pending c !! k = Some h → in_flight h c;
  (** no two ids share a promise *)
  inv_inj : ∀ k1 k2 h,
    c_pending c !! k1 = Some h → c_pending c !! k2 = Some h → k1 = k2;
  (** every call in flight is in the pending map *)
  inv_tracked : ∀ h, in_flight h c → ∃ k, c_pending c !! k = Some h;
  (** no promise has been settled twice *)
  inv_once : ∀ h, (length (calls_on h (c_settles c)) ≤ 1)%nat;
  (** promises not yet created have no settle call *)
  inv_future : ∀ h, (c_allocated c ≤ h)%nat → calls_on h (c_settles c) = [];
}.

(** A call goes out under an id no pending call holds. *)
Definition admissible (l : Label) (c : Core) : Prop :=
  match l with
  | Register k => c_pending c !! k = None
  | _ => True
  end.

(** Promise [h] was created and is held under no id. *)
Definition released (h : Promise) (c : Core) : Prop :=
  (h < c_allocated c)%nat ∧ ∀ k, c_pending c !! k ≠ Some h.

End Core.

Arguments Core K {_ _}.
Arguments Label K : clear implicits.

(** The bookkeeping of a bridge and of a gateway client. *)
Definition cdp_core (s : CdpBridge.t) : Core Z :=
  {| c_pending := CdpBridge.pending s;
     c_allocated := CdpBridge.allocated s;
     c_settles := CdpBridge.settles s |}.

Definition gateway_core (s : GatewayClient.t) : Core string :=
  {| c_pending := GatewayClient.pending s;
     c_allocated := GatewayClient.allocated s;
     c_settles := GatewayClient.settles s |}.

(** The settlement a Target Control response asks for:
    [if (parsed.error?.message) reject(...) else resolve(parsed.result)]. *)
Definition cdp_outcome (m : CdpBridge.Message) : Settlement :=
  match CdpBridge.msg_error m ≫= CdpBridge.message with
  | Some text =>
      if truthy_string text then Rejected text
      else Resolved (CdpBridge.msg_result m)
  | None => Resolved (CdpBridge.msg_result m)
  end.

(** What a step of the bridge does to the bookkeeping of calls. *)
Definition cdp_label (e : CdpBridge.Event) (s : CdpBridge.t) : Label Z :=
  match e with
  | CdpBridge.Send _ _ | CdpBridge.ObserveResponses _ =>
      if CdpBridge.isConnected s then Register (CdpBridge.nextId s)
      else Fail "CDP WebSocket not connected"
  | CdpBridge.PingTimer =>
      if CdpBridge.pingTimer s && CdpBridge.isConnected s
      then Register (CdpBridge.nextId s) else Quiet
  | CdpBridge.MessageEvent (CdpBridge.Parsed m) =>
      match CdpBridge.msg_id m with
      | Some i => Settle i (cdp_outcome m)
      | None => Quiet
      end
  | CdpBridge.CloseEvent => Flush "CDP WebSocket closed"
  | CdpBridge.ErrorEvent message => Flush message
  | CdpBridge.Disconnect => Flush "CDP bridge disconnected"
  | _ => Quiet
  end.

(** The ids of the requests a step writes to the socket. *)
Definition issued_by {K} (l : Label K) : list K :=
  match l with
  | Register k => [k]
  | _ => []
  end.

(** What holds of a bridge at all times. *)
Record cdp_inv (s : CdpBridge.t) : Prop := {
  cdp_inv_core : core_inv (cdp_core s);
  cdp_inv_nextId : 1 ≤ CdpBridge.nextId s;
  cdp_inv_keys : ∀ k h, CdpBridge.pending s !! k = Some h → k < CdpBridge.nextId s;
  cdp_inv_sent :
    CdpBridge.req_id <$> CdpBridge.sent s =
      seqZ 1 (CdpBridge.nextId s - 1);
}.

(** The events that reject every pending call: the connection is closed,
    fails, or is torn down. *)
Definition cdp_breaks (e : CdpBridge.Event) : bool :=
  match e with
  | CdpBridge.CloseEvent | CdpBridge.ErrorEvent _ | CdpBridge.Disconnect => true
  | _ => false
  end.

(** The first response of the trace that carries correlation id [i]. *)
Fixpoint cdp_first_response (i : Z) (trace : list CdpBridge.Event)
  : option CdpBridge.Message :=
  match trace with
  | [] => None
  | CdpBridge.MessageEvent (CdpBridge.Parsed m) :: rest =>
      if decide (CdpBridge.msg_id m = Some i) then Some m
      else cdp_first_response i rest
  | _ :: rest => cdp_first_response i rest
  end.

(** The settlement a Gateway response asks for:
    [if (res.ok) resolve(res.payload)
     else reject(new Error(res.error?.message ?? "unknown error"))]. *)
Definition gateway_outcome (ok : bool) (body : JsValue)
    (error : option GatewayClient.ErrorObject) : Settlement :=
  if ok then Resolved body
  else Rejected (default "unknown error" (error ≫= GatewayClient.message)).

(** What a [request] does to the bookkeeping of calls. *)
Definition request_label (randomUUID : nat → string) (s : GatewayClient.t)
  : Label string :=
  if bool_decide (GatewayClient.ws s = Some OPEN)
  then Register (randomUUID (GatewayClient.drawn s))
  else Fail "gateway not connected".

(** What a step of the gateway client does to the bookkeeping of calls. *)
Definition gateway_label (randomUUID : nat → string)
    (e : GatewayClient.Event) (s : GatewayClient.t) : Label string :=
  match e with
  | GatewayClient.RequestCall _ _ => request_label randomUUID s
  | GatewayClient.MessageEvent (GatewayClient.Parsed (GatewayClient.Evt evt)) =>
      if String.eqb (event evt) "connect.challenge" then
        match GatewayClient.challenge_nonce (payload evt) with
        | Some _ =>
            if GatewayClient.connectSent s then Quiet
            else request_label randomUUID s
        | None => Quiet
        end
      else Quiet
  | GatewayClient.MessageEvent
      (GatewayClient.Parsed (GatewayClient.Res id ok body error)) =>
      Settle id (gateway_outcome ok body error)
  | GatewayClient.CloseEvent code reason =>
      Flush ("gateway closed (" +:+ pretty code +:+ "): " +:+ reason)
  | GatewayClient.Stop => Flush "gateway client stopped"
  | _ => Quiet
  end.

(** What holds of a gateway client after every turn of the event loop. *)
Record gateway_inv (randomUUID : nat → string) (s : GatewayClient.t) : Prop := {
  gateway_inv_core : core_inv (gateway_core s);
  gateway_inv_keys : ∀ k h,
    GatewayClient.pending s !! k = Some h →
    ∃ n, (n < GatewayClient.drawn s)%nat ∧ k = randomUUID n;
  gateway_inv_awaiting : ∀ h,
    h ∈ GatewayClient.awaiting s → calls_on h (GatewayClient.settles s) = [];
}.

(** The events that reject every pending call: the connection is closed or
    the client is stopped. *)
Definition gateway_breaks (e : GatewayClient.Event) : bool :=
  match e with
  | GatewayClient.CloseEvent _ _ | GatewayClient.Stop => true
  | _ => false
  end.

(** The settlement asked for by the first response of the trace that
    carries correlation id [i]. *)
Fixpoint gateway_first_response (i : string)
    (trace : list (Z * GatewayClient.Event)) : option Settlement :=
  match trace with
  | [] => None
  | (_, GatewayClient.MessageEvent
          (GatewayClient.Parsed (GatewayClient.Res id ok body error))) :: rest =>
      if decide (id = i) then Some (gateway_outcome ok body error)
      else gateway_first_response i rest
  | _ :: rest => gateway_first_response i rest
  end.


(** *** Sample inputs for the worked instances *)

Definition sample_URL : string → option CdpBridge.Url :=
  λ _, Some {| CdpBridge.hostname := "localhost"; CdpBridge.port := "19222";
               CdpBridge.path := "/devtools/page/A1" |}.

(** Identifiers that never repeat: the n-th one is n letters long. *)
Fixpoint sample_uuid (n : nat) : string :=
  match n with
  | O => ""
  | S n => "u" +:+ sample_uuid n
  end.

Definition sample_page : CdpBridge.CdpTarget :=
  {| CdpBridge.id := "A1"; CdpBridge.type := "page";
     CdpBridge.title := "Claude"; CdpBridge.url := "app://claude";
     CdpBridge.webSocketDebuggerUrl :=
       Some "ws://localhost:19222/devtools/page/A1" |}.

(** A bridge brought up by one successful [connect]. *)
Definition sample_connect : list CdpBridge.Event :=
  [ CdpBridge.Connect "127.0.0.1" 19222;
    CdpBridge.ConnectResumed "127.0.0.1" 19222 (CdpBridge.Targets [sample_page])
      CdpBridge.SocketOpens ].

Definition cdp_result_message (i : Z) (value : JsValue) : CdpBridge.Message :=
  {| CdpBridge.msg_id := Some i; CdpBridge.msg_method := None;
     CdpBridge.msg_params := None; CdpBridge.msg_result := value;
     CdpBridge.msg_error := None |}.

Definition cdp_result (i : Z) (value : JsValue) : CdpBridge.Event :=
  CdpBridge.MessageEvent (CdpBridge.Parsed (cdp_result_message i value)).

Definition cdp_failure (i : Z) (message : option string) : CdpBridge.Event :=
  CdpBridge.MessageEvent
    (CdpBridge.Parsed
       {| CdpBridge.msg_id := Some i; CdpBridge.msg_method := None;
          CdpBridge.msg_params := None; CdpBridge.msg_result := JUndefined;
          CdpBridge.msg_error := Some {| CdpBridge.message := message |} |}).

Definition sample_options : GatewayClient.Options :=
  {| GatewayClient.url := None; GatewayClient.token := Some "secret";
     GatewayClient.platform := "linux" |}.

(** A challenge event carrying a nonce. *)
Definition challenge (nonce : string) : GatewayClient.Event :=
  GatewayClient.MessageEvent
    (GatewayClient.Parsed
       (GatewayClient.Evt
          {| event := "connect.challenge";
             payload := JObj (JField "nonce" (JStr nonce) JNil);
             seq := None |})).

(** The reply to a connect request that advertises a tick interval. *)
Definition hello_ok (id : string) (tickIntervalMs : Z) : GatewayClient.Event :=
  GatewayClient.MessageEvent
    (GatewayClient.Parsed
       (GatewayClient.Res id true
          (JObj (JField "type" (JStr "hello-ok")
                (JField "policy"
                   (JObj (JField "maxPayload" (JNum 1048576)
                         (JField "tickIntervalMs" (JNum tickIntervalMs) JNil)))
                   JNil)))
          None)).

(** The delay before the N-th consecutive reconnect attempt, as the
    specification gives it: [min(1000 * 2^(N-1), 30000)]. *)
Definition nth_delay (N : nat) : Z := Z.min (1000 * 2 ^ (Z.of_nat N - 1)) 30000.

(** The connect promises of a gateway client have no settle call. *)
Definition awaiting_unsettled (s : GatewayClient.t) : Prop :=
  ∀ h, h ∈ GatewayClient.awaiting s → calls_on h (GatewayClient.settles s) = [].

(** A run of [close] events, each with its clock value, code and reason. *)
Definition gateway_closes (closes : list (Z * Z * string))
  : list (Z * GatewayClient.Event) :=
  (λ c : Z * Z * string, (c.1.1, GatewayClient.CloseEvent c.1.2 c.2)) <$> closes.

(** Reconnect attempts of the gateway client that fail one after the
    other: the socket closes and the timer set by that close creates the
    next socket, whose close is the next of the list.  Each attempt is given
    by the clock value, code and reason of the close and the clock value at
    which the timer fires. *)
Definition gateway_failed_attempts (attempts : list (Z * Z * string * Z))
  : list (Z * GatewayClient.Event) :=
  attempts ≫= λ a : Z * Z * string * Z,
    [ (a.1.1.1, GatewayClient.CloseEvent a.1.1.2 a.1.2);
      (a.2, GatewayClient.ReconnectTimer) ].

(* ===================================================================== *)
(** ** The resolver ([getClaudeDesktopResolver])                          *)
(* ===================================================================== *)

Module Resolver.

Definition POLL_INTERVAL_MS : Z := 500.
Definition STABLE_POLLS : nat := 3.

(** [MessageContext]: a member is [Some] when [typeof] says ["string"]. *)
Record MessageContext : Type := {
  BodyForCommands : option string;
  RawBody : option string;
  Body : option string;
}.

(** What [await bridge.readLastResponse()] comes back with: the text, or
    the error the call throws. *)
Inductive Reading : Type :=
| Read (text : string)
| ReadThrows (message : string).

(** How the resolver ends: with [{text}], with [undefined], or with a
    rejection; [Polling] is a poll loop that has used up the polls it was
    given and is still running. *)
Inductive Outcome : Type :=
| Reply (text : string)
| NoReply
| Failure (message : string)
| Polling.

(** [x && x !== baseline]. *)
Definition differs (baseline x : string) : bool :=
  truthy_string x && negb (String.eqb x baseline).

(** The poll loop and the lines after it.  An entry of [polls] is one
    evaluation of the loop condition: the value [Date.now()] has then, and
    what [readLastResponse] comes back with if the body runs. *)
Fixpoint poll (deadline : Z) (baseline lastSeen : string) (stableCount : nat)
    (polls : list (Z * Reading)) : Outcome :=
  match polls with
  | [] => Polling
  | (now, reading) :: rest =>
      if now <? deadline then
        match reading with
        | ReadThrows message => Failure message
        | Read current =>
            if differs baseline current then
              if String.eqb current lastSeen then
                let stableCount := S stableCount in
                if (STABLE_POLLS <=? stableCount)%nat then Reply current
                else poll deadline baseline lastSeen stableCount rest
              else poll deadline baseline current 0 rest
            else poll deadline baseline lastSeen stableCount rest
        end
      else if differs baseline lastSeen then Reply lastSeen else NoReply
  end.

(** The first of [BodyForCommands], [RawBody], [Body] that is a string,
    else the empty string. *)
Definition content_of (ctx : MessageContext) : string :=
  match BodyForCommands ctx with
  | Some text => text
  | None =>
      match RawBody ctx with
      | Some text => text
      | None => default "" (Body ctx)
      end
  end.

Section Strings.

(** [String.prototype.trim]. *)
Variable trim : string → string.

(** [getClaudeDesktopResolver(ctx, _opts, configOverride)], given the
    configured [responseTimeoutMs] if any, what [bridge.isConnected()]
    returns, what the first [readLastResponse] and [injectMessage] come back
    with, the clock after the injection and the polls.  The second
    component is the text handed to [bridge.injectMessage], if the call is
    reached. *)
Definition getClaudeDesktopResolver (ctx : MessageContext)
    (responseTimeoutMs : option Z) (connected : bool) (first : Reading)
    (injected : CdpBridge.Completion) (now : Z) (polls : list (Z * Reading))
  : Outcome * option string :=
  if negb connected then (NoReply, None)
  else
    let content := content_of ctx in
    if negb (truthy_string (trim content)) then (NoReply, None)
    else
      let timeoutMs := default 120000 responseTimeoutMs in
      match first with
      | ReadThrows message => (Failure message, None)
      | Read baseline =>
          match injected with
          | CdpBridge.Thrown message => (Failure message, Some content)
          | CdpBridge.Returned =>
              let deadline := now + timeoutMs in
              (poll deadline baseline baseline 0 polls, Some content)
          end
      end.

End Strings.

End Resolver.

(* ===================================================================== *)
(** ** tools.ts                                                           *)
(* ===================================================================== *)

Module Tools.


Section Identifiers.

Variable randomUUID : nat → string.


End Identifiers.


End Tools.

(* ===================================================================== *)
(** ** index.ts: the client wired to the event buffer                     *)
(* ===================================================================== *)

(** The frames handed to [onEvent] among the invocations of callbacks. *)
Definition onEvent_calls (calls : list GatewayClient.CallbackCall)
  : list EventFrame :=
  omap (λ c, match c with
             | GatewayClient.OnEvent evt => Some evt
             | _ => None
             end) calls.

Module Main.

Record t : Type := {
  gw : GatewayClient.t;
  events : EventBuffer.t;
}.

(** [const events = new EventBuffer(); const gw = new GatewayClient({...})]. *)
Definition new (o : GatewayClient.Options) : t :=
  {| gw := GatewayClient.new o; events := EventBuffer.new None |}.

Section Identifiers.

Variable randomUUID : nat → string.

(** One turn of the event loop of the process: the client handles the
    event, and each frame it hands to [onEvent] in that turn is pushed
    ([onEvent: (evt) => events.push(evt)]); the other three callbacks write
    a line to the standard error stream.  The clock [push] reads is taken
    to show what it shows when the turn starts. *)
Definition step (ne : Z * GatewayClient.Event) (m : t) : t :=
  let gw' := GatewayClient.step randomUUID ne (gw m) in
  let calls :=
    drop (length (GatewayClient.callbacks (gw m))) (GatewayClient.callbacks gw') in
  {| gw := gw';
     events :=
       EventBuffer.push_all ((λ evt, (ne.1, evt)) <$> onEvent_calls calls)
         (events m) |}.

Definition run (trace : list (Z * GatewayClient.Event)) (m : t) : t :=
  foldl (λ acc ne, step ne acc) m trace.

End Identifiers.

End Main.

(* ===================================================================== *)
(** ** Further vocabulary                                                 *)
(* ===================================================================== *)

(** *** Event Ring Buffer *)

(** An event passes the filters of the options: a filter that is absent or
    falsy (the empty string, zero) lets everything through. *)
Definition selected (o : EventBuffer.QueryOpts) (e : EventBuffer.BufferedEvent)
  : bool :=
  match EventBuffer.eventType o with
  | Some ty =>
      negb (truthy_string ty) || String.eqb (event (EventBuffer.frame e)) ty
  | None => true
  end
  && match EventBuffer.since o with
     | Some cutoff => (cutoff =? 0) || (EventBuffer.ts e >=? cutoff)
     | None => true
     end.

(** *** Response Correlator *)

(** The calls made on a correlator; each comes with the value [Date.now()]
    has when it runs. *)
Inductive RouterCall : Type :=
| OnResponse (callback : ResponseRouter.Callback)
| TrackInjection (channelId from : string)
| Observed (type text : string).

Definition router_step (c : Z * RouterCall) (r : ResponseRouter.t)
  : ResponseRouter.t :=
  match c.2 with
  | OnResponse callback => ResponseRouter.onResponse callback r
  | TrackInjection channelId from =>
      ResponseRouter.trackInjection c.1 channelId from r
  | Observed type text => ResponseRouter.observed c.1 type text r
  end.

Definition router_run (calls : list (Z * RouterCall)) (r : ResponseRouter.t)
  : ResponseRouter.t :=
  foldl (λ acc c, router_step c acc) r calls.

(** The senders of the injections a run of calls tracks, in order. *)
Definition tracked_by (calls : list (Z * RouterCall)) : list (string * string) :=
  omap (λ c : Z * RouterCall,
          match c.2 with
          | TrackInjection channelId from => Some (channelId, from)
          | _ => None
          end) calls.

(** The texts of the notifications of a run of calls that pass the guard of
    the observer, in order. *)
Definition routed_by (calls : list (Z * RouterCall)) : list string :=
  omap (λ c : Z * RouterCall,
          match c.2 with
          | Observed type text =>
              if String.eqb type "response" && truthy_string text
              then Some text else None
          | _ => None
          end) calls.

Definition addressee (d : ResponseRouter.Delivery) : string * string :=
  (ResponseRouter.toChannel d, ResponseRouter.toSender d).

Definition origin (m : ResponseRouter.PendingMessage) : string * string :=
  (ResponseRouter.channelId m, ResponseRouter.from m).

(** The call reads the clock and prunes the queue. *)
Definition prunes (c : RouterCall) : bool :=
  match c with
  | OnResponse _ => false
  | TrackInjection _ _ => true
  | Observed type text => String.eqb type "response" && truthy_string text
  end.

(** The clock never goes back: every value is at least the one before, the
    first at least [t0]. *)
Fixpoint nondecreasing (t0 : Z) (clocks : list Z) : bool :=
  match clocks with
  | [] => true
  | t1 :: rest => (t0 <=? t1) && nondecreasing t1 rest
  end.

(** *** Target Control connection *)


Definition cdp_closes (e : CdpBridge.Event) : bool :=
  match e with
  | CdpBridge.CloseEvent => true
  | _ => false
  end.

(** *** Gateway connection *)

(** The frame an inbound message makes the client hand to [onEvent]: every
    event frame but the challenge. *)
Definition forwarded (ne : Z * GatewayClient.Event) : option EventFrame :=
  match ne.2 with
  | GatewayClient.MessageEvent (GatewayClient.Parsed (GatewayClient.Evt evt)) =>
      if String.eqb (event evt) "connect.challenge" then None else Some evt
  | _ => None
  end.

Definition gateway_requests (e : GatewayClient.Event) : bool :=
  match e with
  | GatewayClient.RequestCall _ _ => true
  | _ => false
  end.

(** The request of the handshake, as [sendConnect] writes it. *)
Definition is_connect_request (o : GatewayClient.Options)
    (r : GatewayClient.Request) : Prop :=
  GatewayClient.req_method r = "connect"
  ∧ GatewayClient.req_params r = GatewayClient.connect_params (GatewayClient.new o).

(** A delay of the reconnect schedule. *)
Definition within_backoff_bounds (delay : Z) : Prop := 1000 ≤ delay ≤ 30000.

(** The records of a queue are in the order of their injection times, none
    before [lo]. *)
Fixpoint ascending (lo : Z) (q : list ResponseRouter.PendingMessage) : Prop :=
  match q with
  | [] => True
  | m :: rest =>
      lo ≤ ResponseRouter.injectedAt m
      ∧ ascending (ResponseRouter.injectedAt m) rest
  end.


(** The backoff and every delay scheduled so far are within the bounds. *)
Definition backoff_bounded (backoffMs : Z) (timeouts : list Z) : Prop :=
  within_backoff_bounds backoffMs ∧ Forall within_backoff_bounds timeouts.

(** What [stop] leaves behind, for good. *)
Definition stopped (s : GatewayClient.t) : Prop :=
  GatewayClient.closed s = true ∧ GatewayClient.ws s = None
  ∧ GatewayClient.pending s = ∅ ∧ GatewayClient.tickTimer s = None.

(** The event frames a trace delivers to [onEvent], each with the clock
    value of the turn it arrives in. *)
Definition arrivals (trace : list (Z * GatewayClient.Event))
  : list (Z * EventFrame) :=
  omap (λ ne : Z * GatewayClient.Event, pair ne.1 <$> forwarded ne) trace.



(** *** The resolver *)

(** Polls that all read the same text, one per clock value. *)
Definition sightings (text : string) (clocks : list Z)
  : list (Z * Resolver.Reading) :=
  (λ now, (now, Resolver.Read text)) <$> clocks.

(* ===================================================================== *)
(** * Properties                                                          *)
(* ===================================================================== *)

(** ** Event Ring Buffer *)

Section EventBufferFacts.

Import EventBuffer.

Lemma push_capacity now f b : capacity (push now f b) = capacity b.
Proof. reflexivity. Qed.

(** Below capacity a push only appends. *)
Lemma push_below now f b :
  Z.of_nat (length (buf b)) < capacity b →
  buf (push now f b) = buf b ++ [stamped (now, f)].
Proof.
  intros Hlt. unfold push; simpl.
  destruct (Z.geb_spec (Z.of_nat (length (buf b))) (capacity b)); [lia | done].
Qed.

(** At capacity a push drops the oldest entry, and only that one. *)
Lemma push_at_capacity now f b :
  capacity b ≤ Z.of_nat (length (buf b)) →
  buf (push now f b) = tail (buf b) ++ [stamped (now, f)].
Proof.
  intros Hge. unfold push; simpl.
  destruct (Z.geb_spec (Z.of_nat (length (buf b))) (capacity b)); [done | lia].
Qed.

(** The buffer after a run of pushes, for a buffer that starts within its
    capacity: the last [capacity] entries of everything it has seen. *)
Lemma push_all_window events : ∀ b,
  1 ≤ capacity b →
  Z.of_nat (length (buf b)) ≤ capacity b →
  capacity (push_all events b) = capacity b ∧
  buf (push_all events b) =
    drop (length (buf b ++ (stamped <$> events)) - Z.to_nat (capacity b))%nat
         (buf b ++ (stamped <$> events)).
Proof.
  induction events as [|[now f] events IH]; intros b Hcap Hlen.
  - simpl. split; [done|]. rewrite app_nil_r.
    replace (length (buf b) - Z.to_nat (capacity b))%nat with 0%nat by lia.
    done.
  - change (push_all ((now, f) :: events) b)
      with (push_all events (push now f b)).
    destruct (Z_lt_le_dec (Z.of_nat (length (buf b))) (capacity b)) as [Hlt|Hge].
    + destruct (IH (push now f b)) as [IHc IHb].
      { by rewrite push_capacity. }
      { rewrite push_capacity, push_below by done.
        rewrite length_app; simpl. lia. }
      rewrite IHc, IHb, push_capacity, push_below by done.
      split; [done|]. simpl fmap.
      by rewrite <- app_assoc.
    + assert (Z.of_nat (length (buf b)) = capacity b) as Heq by lia.
      destruct (buf b) as [|oldest rest] eqn:Hbuf; [simpl in Heq; lia|].
      assert (buf (push now f b) = rest ++ [stamped (now, f)]) as Hpush.
      { rewrite push_at_capacity by (rewrite Hbuf; lia). by rewrite Hbuf. }
      destruct (IH (push now f b)) as [IHc IHb].
      { by rewrite push_capacity. }
      { rewrite push_capacity, Hpush, length_app; simpl in *. lia. }
      rewrite IHc, IHb, push_capacity, Hpush.
      split; [done|]. rewrite fmap_cons, <- app_assoc.
      change ([stamped (now, f)] ++ (stamped <$> events))
        with (stamped (now, f) :: (stamped <$> events)).
      change ((oldest :: rest) ++ stamped (now, f) :: (stamped <$> events))
        with (oldest :: (rest ++ stamped (now, f) :: (stamped <$> events))).
      remember (rest ++ stamped (now, f) :: (stamped <$> events)) as seen
        eqn:Hseen.
      assert (Z.to_nat (capacity b) ≤ length seen)%nat as Hfull.
      { subst seen. rewrite length_app. simpl in *. lia. }
      change (length (oldest :: seen)) with (S (length seen)).
      replace (S (length seen) - Z.to_nat (capacity b))%nat
        with (S (length seen - Z.to_nat (capacity b)))%nat by lia.
      done.
Qed.

(** C6.  For a buffer of capacity [C >= 1], after [C + k] pushes the size
    is [C] and [query()] without filters (no options, or options that set
    none) returns exactly the last [C] pushed events, oldest first; and a
    push into a buffer at capacity, this one or any other, removes exactly
    the single oldest entry and appends the new one (strict FIFO
    eviction). *)
Theorem event_buffer_keeps_last_capacity
    (C : Z) (k : nat) (events : list (Z * EventFrame)) :
  1 ≤ C →
  length events = (Z.to_nat C + k)%nat →
  let b := push_all events (new (Some C)) in
  let no_filter := {| eventType := None; since := None; limit := None |} in
  size b = Z.to_nat C
  ∧ query None b = stamped <$> drop k events
  ∧ query (Some no_filter) b = stamped <$> drop k events
  ∧ length (query None b) = Z.to_nat C
  ∧ (∀ now f,
        buf (push now f b) = tail (buf b) ++ [stamped (now, f)]
        ∧ size (push now f b) = Z.to_nat C)
  ∧ (∀ full now f oldest rest,
        capacity full = C → buf full = oldest :: rest →
        length (buf full) = Z.to_nat C →
        buf (push now f full) = rest ++ [stamped (now, f)]
        ∧ size (push now f full) = Z.to_nat C).
Proof.
  intros HC Hlen b no_filter.
  destruct (push_all_window events (new (Some C))) as [Hcap Hbuf];
    [simpl; lia | simpl; lia |].
  simpl in Hcap, Hbuf. fold b in Hcap, Hbuf.
  rewrite length_fmap, Hlen in Hbuf.
  replace (Z.to_nat C + k - Z.to_nat C)%nat with k in Hbuf by lia.
  rewrite <- fmap_drop in Hbuf.
  assert (size b = Z.to_nat C) as Hsize.
  { unfold size. rewrite Hbuf, length_fmap, length_drop. lia. }
  split; [done|]. split; [done|]. split; [done|]. split; [exact Hsize|].
  split.
  - intros now f.
    assert (buf (push now f b) = tail (buf b) ++ [stamped (now, f)]) as Hpush.
    { apply push_at_capacity. unfold size in Hsize. rewrite Hcap, Hsize. lia. }
    split; [done|].
    unfold size in *. rewrite Hpush, length_app; simpl.
    destruct (buf b); simpl in *; lia.
  - intros full now f oldest rest Hfull Hshape Hlength.
    assert (buf (push now f full) = rest ++ [stamped (now, f)]) as Hpush.
    { rewrite push_at_capacity by lia. by rewrite Hshape. }
    split; [done|].
    unfold size. rewrite Hpush, length_app. rewrite Hshape in Hlength.
    simpl in *. lia.
Qed.

(** Capacity 2 and three pushes: the first event is gone, the last two are
    returned in push order. *)
Lemma event_buffer_keeps_last_capacity_witness :
  let events := [(10, sample_frame "a"); (11, sample_frame "b");
                 (12, sample_frame "c")] in
  let b := push_all events (new (Some 2)) in
  size b = 2%nat
  ∧ query None b = stamped <$> [(11, sample_frame "b"); (12, sample_frame "c")].
Proof.
  destruct (event_buffer_keeps_last_capacity 2 1
              [(10, sample_frame "a"); (11, sample_frame "b");
               (12, sample_frame "c")] ltac:(lia) eq_refl)
    as (Hsize & Hquery & _).
  exact (conj Hsize Hquery).
Defined.

End EventBufferFacts.

(** ** Response Correlator *)

Section ResponseRouterFacts.

Import ResponseRouter.

(** [pruneStale] removes a prefix of the queue, every record of that prefix
    is stale, and the record left at the front, if any, is not. *)
Lemma shift_while_stale_spec now q :
  ∃ evicted,
    q = evicted ++ shift_while_stale (now - CONTEXT_TIMEOUT_MS) q
    ∧ Forall (stale now) evicted
    ∧ ∀ m, head (shift_while_stale (now - CONTEXT_TIMEOUT_MS) q) = Some m →
           ¬ stale now m.
Proof.
  induction q as [|m q IH]; simpl.
  - exists []. split; [done|]. split; [constructor|]. intros m; discriminate.
  - destruct (Z.ltb_spec (injectedAt m) (now - CONTEXT_TIMEOUT_MS)) as [Hlt|Hge].
    + destruct IH as (ev & Heq & Hall & Hhead).
      exists (m :: ev). split; [simpl; congruence|].
      split; [|done]. constructor; [unfold stale; lia | done].
    + exists []. split; [done|]. split; [constructor|].
      intros m' [= <-]. unfold stale. lia.
Qed.

Lemma shift_while_stale_fresh cutoff m q :
  cutoff ≤ injectedAt m →
  shift_while_stale cutoff (m :: q) = m :: q.
Proof.
  intros H. simpl. destruct (Z.ltb_spec (injectedAt m) cutoff); [lia | done].
Qed.

Lemma shift_while_stale_old cutoff m q :
  injectedAt m < cutoff →
  shift_while_stale cutoff (m :: q) = shift_while_stale cutoff q.
Proof.
  intros H. simpl. destruct (Z.ltb_spec (injectedAt m) cutoff); [done | lia].
Qed.

(** What [routeResponse] does, in one equation per field. *)
Lemma routeResponse_unfold now text r :
  let q := shift_while_stale (now - CONTEXT_TIMEOUT_MS) (pendingMessages r) in
  pendingMessages (routeResponse now text r) = tail q
  ∧ responseCallback (routeResponse now text r) = responseCallback r
  ∧ delivered (routeResponse now text r) =
      delivered r ++
        match responseCallback r, q with
        | Some cb, m :: _ =>
            [ {| sink := cb; toChannel := channelId m; toSender := from m;
                 text := text |} ]
        | _, _ => []
        end.
Proof.
  unfold routeResponse, pruneStale; simpl.
  destruct (shift_while_stale _ _) as [|m rest]; simpl.
  - destruct (responseCallback r); by rewrite app_nil_r.
  - destruct (responseCallback r); simpl; by rewrite ?app_nil_r.
Qed.

(** C5.  Injections A at time 0 and B at time 1 into an empty queue with a
    sink registered, then two notifications in order, both within the five
    minutes of the record they meet: the sink is invoked with A's
    (channelId, from) for the first and with B's for the second.  Before each
    match the records older than five minutes are evicted from the front:
    a notification that arrives when A, the only record, has aged past five
    minutes invokes the sink for no record and leaves the queue empty. *)
Theorem correlator_fifo_with_eviction
    (cb : Callback) (r0 : t) (chA fromA chB fromB text1 text2 : string)
    (t1 t2 late : Z) :
  pendingMessages r0 = [] →
  responseCallback r0 = Some cb →
  t1 ≤ 0 + CONTEXT_TIMEOUT_MS →
  t2 ≤ 1 + CONTEXT_TIMEOUT_MS →
  late > 0 + CONTEXT_TIMEOUT_MS →
  let tracked := trackInjection 1 chB fromB (trackInjection 0 chA fromA r0) in
  let first := routeResponse t1 text1 tracked in
  let second := routeResponse t2 text2 first in
  let aged := routeResponse late text1 (trackInjection 0 chA fromA r0) in
  delivered first =
    delivered r0 ++
      [ {| sink := cb; toChannel := chA; toSender := fromA; text := text1 |} ]
  ∧ delivered second =
      delivered r0 ++
        [ {| sink := cb; toChannel := chA; toSender := fromA; text := text1 |};
          {| sink := cb; toChannel := chB; toSender := fromB; text := text2 |} ]
  ∧ pendingMessages second = []
  ∧ delivered aged = delivered r0
  ∧ pendingMessages aged = [].
Proof.
  intros Hq Hcb H1 H2 Hlate. cbv zeta.
  remember (trackInjection 0 chA fromA r0) as rA eqn:HrA.
  assert (pendingMessages rA =
            [ {| channelId := chA; from := fromA; injectedAt := 0 |} ]
          ∧ responseCallback rA = Some cb
          ∧ delivered rA = delivered r0) as (HA & HAcb & HAd).
  { subst rA. unfold trackInjection, pruneStale; simpl. by rewrite Hq. }
  remember (trackInjection 1 chB fromB rA) as rB eqn:HrB.
  assert (pendingMessages rB =
            [ {| channelId := chA; from := fromA; injectedAt := 0 |};
              {| channelId := chB; from := fromB; injectedAt := 1 |} ]
          ∧ responseCallback rB = Some cb
          ∧ delivered rB = delivered r0) as (HB & HBcb & HBd).
  { subst rB. unfold trackInjection, pruneStale; simpl.
    by rewrite HA, HAcb, HAd. }
  clear HrA HrB.
  destruct (routeResponse_unfold t1 text1 rB) as (Hq1 & Hcb1 & Hd1).
  rewrite HB, HBcb, HBd in *.
  rewrite shift_while_stale_fresh in Hq1, Hd1
    by (unfold CONTEXT_TIMEOUT_MS in *; simpl; lia).
  simpl in Hq1, Hd1.
  remember (routeResponse t1 text1 rB) as r1 eqn:Hr1. clear Hr1.
  destruct (routeResponse_unfold t2 text2 r1) as (Hq2 & Hcb2 & Hd2).
  rewrite Hq1, Hcb1, Hd1 in *.
  rewrite shift_while_stale_fresh in Hq2, Hd2
    by (unfold CONTEXT_TIMEOUT_MS in *; simpl; lia).
  simpl in Hq2, Hd2. rewrite <- app_assoc in Hd2. simpl in Hd2.
  destruct (routeResponse_unfold late text1 rA) as (Hq3 & Hcb3 & Hd3).
  rewrite HA, HAcb, HAd in *.
  rewrite shift_while_stale_old in Hq3, Hd3
    by (unfold CONTEXT_TIMEOUT_MS in *; simpl; lia).
  simpl in Hq3, Hd3. rewrite app_nil_r in Hd3.
  done.
Qed.

Lemma correlator_fifo_with_eviction_witness :
  let r0 := onResponse 7%nat new in
  let tracked := trackInjection 1 "slack" "bob" (trackInjection 0 "telegram" "alice" r0) in
  let first := routeResponse 5000 "hello" tracked in
  let second := routeResponse 9000 "world" first in
  let aged := routeResponse 300001 "hello" (trackInjection 0 "telegram" "alice" r0) in
  delivered first =
    [ {| sink := 7%nat; toChannel := "telegram"; toSender := "alice";
         text := "hello" |} ]
  ∧ delivered second =
      [ {| sink := 7%nat; toChannel := "telegram"; toSender := "alice";
           text := "hello" |};
        {| sink := 7%nat; toChannel := "slack"; toSender := "bob";
           text := "world" |} ]
  ∧ pendingMessages second = []
  ∧ delivered aged = []
  ∧ pendingMessages aged = [].
Proof.
  exact (correlator_fifo_with_eviction 7%nat (onResponse 7%nat new)
           "telegram" "alice" "slack" "bob" "hello" "world" 5000 9000 300001
           eq_refl eq_refl ltac:(unfold CONTEXT_TIMEOUT_MS; lia)
           ltac:(unfold CONTEXT_TIMEOUT_MS; lia)
           ltac:(unfold CONTEXT_TIMEOUT_MS; lia)).
Defined.

(** C9, as the claim states its last part: some notification removes more
    than one record.  With A injected at 0 and B at 1 and no sink
    registered, the notification at 300001 evicts A (stale) and then pops
    B: two records leave the queue. *)
Lemma notification_removes_two_records :
  let r := trackInjection 1 "slack" "bob" (trackInjection 0 "telegram" "alice" new) in
  length (pendingMessages r) = 2%nat
  ∧ responseCallback r = None
  ∧ length (pendingMessages (routeResponse 300001 "late" r)) = 0%nat
  ∧ ¬ (∀ now text (r : t),
         (length (pendingMessages r)
            ≤ length (pendingMessages (routeResponse now text r)) + 1)%nat).
Proof.
  cbv zeta. repeat split.
  intros Hall.
  specialize (Hall 300001 "late"
    (trackInjection 1 "slack" "bob" (trackInjection 0 "telegram" "alice" new))).
  cbv in Hall. lia.
Qed.

(** C9, amended.  Whether or not a sink is registered, a notification first
    evicts the stale records from the front of the queue: the records
    evicted are a prefix of the queue, each of them is stale, and the record
    left at the front, if there is one, is not stale.  That record, the
    oldest pending record that is not stale, is then removed, so the queue
    loses the evicted records and at most one further record.  With no sink
    registered the record is consumed and nothing is delivered; with a sink
    the one delivery carries that record. *)
Theorem route_pops_one_after_eviction (now : Z) (text : string) (r : t) :
  let q := shift_while_stale (now - CONTEXT_TIMEOUT_MS) (pendingMessages r) in
  pendingMessages (routeResponse now text r) = tail q
  ∧ (length q ≤ length (pendingMessages (routeResponse now text r)) + 1)%nat
  ∧ (∃ evicted,
       pendingMessages r = evicted ++ q
       ∧ Forall (stale now) evicted
       ∧ (∀ m, head q = Some m → ¬ stale now m)
       ∧ pendingMessages r =
           evicted ++ option_list (head q)
             ++ pendingMessages (routeResponse now text r))
  ∧ responseCallback (routeResponse now text r) = responseCallback r
  ∧ delivered (routeResponse now text r) =
      match responseCallback r, q with
      | Some cb, m :: _ =>
          delivered r ++
            [ {| sink := cb; toChannel := channelId m; toSender := from m;
                 text := text |} ]
      | _, _ => delivered r
      end.
Proof.
  intros q.
  destruct (routeResponse_unfold now text r) as (Hq & Hcb & Hd).
  fold q in Hq, Hd.
  split; [done|]. split; [rewrite Hq; destruct q; simpl; lia|].
  split.
  { destruct (shift_while_stale_spec now (pendingMessages r))
      as (ev & Heq & Hall & Hfront). fold q in Heq, Hfront.
    exists ev. split; [done|]. split; [done|]. split; [done|].
    rewrite Hq. rewrite Heq at 1. by destruct q. }
  split; [done|].
  rewrite Hd. destruct (responseCallback r), q; by rewrite ?app_nil_r.
Qed.

End ResponseRouterFacts.

(** ** Reconnect backoff *)

Section BackoffFacts.

Lemma backoff_after_0 : backoff_after 0 = 1000.
Proof. reflexivity. Qed.

(** One doubling, capped: [Math.min(backoffMs * 2, 30_000)]. *)
Lemma next_backoff_after k : next_backoff (backoff_after k) = backoff_after (S k).
Proof.
  unfold next_backoff, backoff_after.
  rewrite Nat2Z.inj_succ, Z.pow_succ_r by lia.
  assert (0 < 2 ^ Z.of_nat k) by (apply Z.pow_pos_nonneg; lia).
  lia.
Qed.

Lemma backoff_run_shape (k n : nat) (ts : list Z) b' ts' :
  backoff_step (backoff_after (k + n)) (ts ++ (backoff_after <$> List.seq k n)) b' ts' →
  ∃ n', b' = backoff_after (k + n') ∧ ts' = ts ++ (backoff_after <$> List.seq k n').
Proof.
  intros [[-> ->]|[-> ->]].
  - by exists n.
  - exists (S n). rewrite next_backoff_after, Nat.add_succ_r. split; [done|].
    rewrite List.seq_S, fmap_app, app_assoc. done.
Qed.

Lemma backoff_run_nth (k n : nat) (ts ts' : list Z) (N : nat) (d : Z) :
  ts' = ts ++ (backoff_after <$> List.seq k n) →
  (1 ≤ N)%nat →
  ts' !! (length ts + (N - 1))%nat = Some d →
  d = backoff_after (k + (N - 1)).
Proof.
  intros -> HN Hd.
  rewrite lookup_app_r in Hd by lia.
  replace (length ts + (N - 1) - length ts)%nat with (N - 1)%nat in Hd by lia.
  rewrite list_lookup_fmap in Hd.
  destruct (List.seq k n !! (N - 1)%nat) as [i|] eqn:Hi; [|done].
  apply lookup_seq in Hi as [-> _]. by injection Hd as <-.
Qed.

End BackoffFacts.

Section CdpBackoff.

Import CdpBridge.
Variable URL : string → option Url.

Lemma cdp_step_backoff e s :
  cdp_reopens URL e s = false →
  backoff_step (backoffMs s) (timeouts s)
    (backoffMs (step URL e s)) (timeouts (step URL e s)).
Proof.
  intros Hno.
  destruct e; simpl in *;
    unfold connect_begin, connect_resume, send, on, off, disconnect, onMessage,
      onClose, onError, scheduleReconnect, rejectAllPending, stopHealthPing,
      startHealthPing in *;
    repeat case_match; simpl in *; try discriminate;
    solve [left; done | right; done].
Qed.

Lemma cdp_run_backoff trace : ∀ s k n ts,
  backoffMs s = backoff_after (k + n) →
  timeouts s = ts ++ (backoff_after <$> List.seq k n) →
  cdp_no_reopen URL trace s = true →
  ∃ n', backoffMs (run URL trace s) = backoff_after (k + n')
        ∧ timeouts (run URL trace s) = ts ++ (backoff_after <$> List.seq k n').
Proof.
  induction trace as [|e trace IH]; intros s k n ts Hb Ht Hno.
  - by exists n.
  - simpl in Hno. apply andb_true_iff in Hno as [He Hrest].
    apply negb_true_iff in He.
    pose proof (cdp_step_backoff e s He) as Hstep.
    rewrite Hb, Ht in Hstep.
    apply backoff_run_shape in Hstep as (n' & Hb' & Ht').
    exact (IH (step URL e s) k n' ts Hb' Ht' Hrest).
Qed.

End CdpBackoff.

Section GatewayBackoff.

Import GatewayClient.
Variable randomUUID : nat → string.

Lemma gateway_handle_backoff now e s :
  backoff_step (backoffMs s) (timeouts s)
    (backoffMs (handle randomUUID now e s))
    (timeouts (handle randomUUID now e s)).
Proof.
  destruct e; simpl;
    unfold start, stop, request, handleMessage, sendConnect, request, onClose,
      onError, tickWatch, ws_close, flushPendingErrors, scheduleReconnect;
    repeat case_match; simplify_eq; simpl in *;
    solve [left; done | right; done].
Qed.

Lemma connectFailed_backoff message s :
  backoffMs (connectFailed message s) = backoffMs s
  ∧ timeouts (connectFailed message s) = timeouts s.
Proof. unfold connectFailed, ws_close. by case_match. Qed.

Lemma helloReceived_backoff now hello s :
  backoffMs (helloReceived now hello s) = 1000
  ∧ timeouts (helloReceived now hello s) = timeouts s.
Proof.
  unfold helloReceived.
  destruct hello; simpl; try done;
    unfold connectFailed, ws_close; simpl; by case_match.
Qed.

Lemma react_backoff now log acc h :
  timeouts (react now log acc h) = timeouts acc
  ∧ (resolved log h = false → backoffMs (react now log acc h) = backoffMs acc)
  ∧ (resolved log h = true → backoffMs (react now log acc h) = 1000).
Proof.
  unfold react, resolved.
  destruct (promise_state h log) as [[v|m]|]; simpl.
  - destruct (helloReceived_backoff now v acc) as [Hb Hts]. done.
  - destruct (connectFailed_backoff m acc) as [Hb Hts]. done.
  - done.
Qed.

Lemma react_fold_backoff now log ready : ∀ acc,
  timeouts (foldl (react now log) acc ready) = timeouts acc
  ∧ (existsb (resolved log) ready = false →
     backoffMs (foldl (react now log) acc ready) = backoffMs acc)
  ∧ (existsb (resolved log) ready = true ∨ backoffMs acc = 1000 →
     backoffMs (foldl (react now log) acc ready) = 1000).
Proof.
  induction ready as [|h ready IH]; intros acc; simpl.
  - split; [done|]. split; [done|]. intros [?|?]; done.
  - destruct (IH (react now log acc h)) as (Ht & Hsame & Hreset).
    destruct (react_backoff now log acc h) as (Ht1 & Hsame1 & Hreset1).
    split; [congruence|].
    destruct (resolved log h) eqn:Hres; simpl.
    + split; [done|]. intros _. apply Hreset. right. by apply Hreset1.
    + split.
      * intros Hex. rewrite Hsame by done. by apply Hsame1.
      * intros [Hex|Hb]; apply Hreset; [by left|].
        right. rewrite Hsame1 by done. done.
Qed.

Lemma existsb_filter_settled log (l : list Promise) :
  existsb (resolved log) (List.filter (settled log) l) = existsb (resolved log) l.
Proof.
  induction l as [|h l IH]; simpl; [done|].
  unfold settled at 1, resolved at 2.
  destruct (promise_state h log) as [[v|m]|] eqn:Hst; simpl.
  - unfold resolved at 1. by rewrite Hst.
  - unfold resolved at 1. by rewrite Hst.
  - done.
Qed.

Lemma microtasks_backoff now s :
  timeouts (microtasks now s) = timeouts s
  ∧ (existsb (resolved (settles s)) (awaiting s) = false →
     backoffMs (microtasks now s) = backoffMs s)
  ∧ (existsb (resolved (settles s)) (awaiting s) = true →
     backoffMs (microtasks now s) = 1000).
Proof.
  unfold microtasks.
  destruct (react_fold_backoff now (settles s)
              (List.filter (settled (settles s)) (awaiting s))
              (with_awaiting
                 (List.filter (λ h, negb (settled (settles s) h)) (awaiting s)) s))
    as (Ht & Hsame & Hreset).
  rewrite existsb_filter_settled in Hsame, Hreset.
  split; [done|]. split; [done|]. intros H. apply Hreset. by left.
Qed.

Lemma gateway_step_backoff ne s :
  gateway_reopens randomUUID ne s = false →
  backoff_step (backoffMs s) (timeouts s)
    (backoffMs (step randomUUID ne s)) (timeouts (step randomUUID ne s)).
Proof.
  intros Hno. unfold step, gateway_reopens in *.
  destruct (microtasks_backoff ne.1 (handle randomUUID ne.1 ne.2 s))
    as (Ht & Hsame & _).
  rewrite Ht, Hsame by done.
  apply gateway_handle_backoff.
Qed.

Lemma gateway_reopen_resets ne s :
  gateway_reopens randomUUID ne s = true →
  backoffMs (step randomUUID ne s) = 1000.
Proof.
  intros Hre. unfold step, gateway_reopens in *.
  by apply microtasks_backoff.
Qed.

Lemma gateway_run_backoff trace : ∀ s k n ts,
  backoffMs s = backoff_after (k + n) →
  timeouts s = ts ++ (backoff_after <$> List.seq k n) →
  gateway_no_reopen randomUUID trace s = true →
  ∃ n', backoffMs (run randomUUID trace s) = backoff_after (k + n')
        ∧ timeouts (run randomUUID trace s) =
            ts ++ (backoff_after <$> List.seq k n').
Proof.
  induction trace as [|e trace IH]; intros s k n ts Hb Ht Hno.
  - by exists n.
  - simpl in Hno. apply andb_true_iff in Hno as [He Hrest].
    apply negb_true_iff in He.
    pose proof (gateway_step_backoff e s He) as Hstep.
    rewrite Hb, Ht in Hstep.
    apply backoff_run_shape in Hstep as (n' & Hb' & Ht').
    exact (IH (step randomUUID e s) k n' ts Hb' Ht' Hrest).
Qed.

End GatewayBackoff.

Section BackoffSchedule.

Variable URL : string → option CdpBridge.Url.
Variable randomUUID : nat → string.

Lemma cdp_run_cons e trace s :
  CdpBridge.run URL (e :: trace) s = CdpBridge.run URL trace (CdpBridge.step URL e s).
Proof. reflexivity. Qed.

Lemma cdp_run_app trace1 trace2 s :
  CdpBridge.run URL (trace1 ++ trace2) s =
    CdpBridge.run URL trace2 (CdpBridge.run URL trace1 s).
Proof. unfold CdpBridge.run. by rewrite foldl_app. Qed.

Lemma gateway_run_cons ne trace s :
  GatewayClient.run randomUUID (ne :: trace) s =
    GatewayClient.run randomUUID trace (GatewayClient.step randomUUID ne s).
Proof. reflexivity. Qed.

Lemma gateway_run_app trace1 trace2 s :
  GatewayClient.run randomUUID (trace1 ++ trace2) s =
    GatewayClient.run randomUUID trace2 (GatewayClient.run randomUUID trace1 s).
Proof. unfold GatewayClient.run. by rewrite foldl_app. Qed.

Lemma cdp_onClose_backoff s :
  CdpBridge.closed s = false →
  CdpBridge.closed (CdpBridge.onClose s) = false
  ∧ CdpBridge.backoffMs (CdpBridge.onClose s) = next_backoff (CdpBridge.backoffMs s)
  ∧ CdpBridge.timeouts (CdpBridge.onClose s) =
      CdpBridge.timeouts s ++ [CdpBridge.backoffMs s].
Proof.
  intros Hopen. unfold CdpBridge.onClose, CdpBridge.scheduleReconnect; simpl.
  by rewrite Hopen.
Qed.

Lemma cdp_closes_schedule (N : nat) : ∀ s k,
  CdpBridge.closed s = false →
  CdpBridge.backoffMs s = backoff_after k →
  CdpBridge.timeouts (CdpBridge.run URL (replicate N CdpBridge.CloseEvent) s) =
    CdpBridge.timeouts s ++ (backoff_after <$> List.seq k N).
Proof.
  induction N as [|N IH]; intros s k Hopen Hb.
  - simpl. by rewrite app_nil_r.
  - rewrite replicate_S, cdp_run_cons.
    destruct (cdp_onClose_backoff s Hopen) as (Hc & Hb' & Ht).
    change (CdpBridge.step URL CdpBridge.CloseEvent s) with (CdpBridge.onClose s).
    rewrite (IH (CdpBridge.onClose s) (S k)); [|done|].
    + rewrite Ht, Hb, <- app_assoc. done.
    + by rewrite Hb', Hb, next_backoff_after.
Qed.

End BackoffSchedule.

(** ** The bookkeeping of calls *)

Section SettleLogFacts.

Lemma calls_on_app h (l1 l2 : SettleLog) :
  calls_on h (l1 ++ l2) = calls_on h l1 ++ calls_on h l2.
Proof. apply omap_app. Qed.

Lemma calls_on_one h p st :
  calls_on h [(p, st)] = if decide (p = h) then [st] else [].
Proof. unfold calls_on; simpl. by case_decide. Qed.

Context `{Countable K}.

(** The [reject] calls a flush makes on [h]: one per entry that holds [h]. *)
Lemma calls_on_reject_each h (m : gmap K Promise) message :
  calls_on h (reject_each m message) =
    replicate (length (filter (λ kp : K * Promise, kp.2 = h) (map_to_list m)))
      (Rejected message).
Proof.
  unfold reject_each, calls_on.
  induction (map_to_list m) as [|[k p] l IH]; [done|].
  rewrite fmap_cons, filter_cons. cbn [omap list_omap]. rewrite IH.
  change (((k, p).2, Rejected message).1) with p.
  change ((k, p).2) with p.
  by destruct (decide (p = h)).
Qed.

Lemma filter_none {A} (P : A → Prop) `{∀ x, Decision (P x)} (l : list A) :
  (∀ x, x ∈ l → ¬ P x) → filter P l = [].
Proof.
  induction l as [|x l IH]; intros Hno; [done|].
  rewrite filter_cons_False by (apply Hno; left).
  apply IH. intros y Hy. apply Hno. by right.
Qed.

Lemma held_once (l : list (K * Promise)) k h :
  NoDup l → (k, h) ∈ l → (∀ k', (k', h) ∈ l → k' = k) →
  length (filter (λ kp : K * Promise, kp.2 = h) l) = 1%nat.
Proof.
  induction 1 as [|[k' p'] l Hnotin Hnd IH]; intros Hin Hinj.
  - by inversion Hin.
  - rewrite filter_cons; simpl. case_decide as Hp.
    + subst p'. assert (k' = k) as -> by (apply Hinj; left).
      simpl. f_equal. rewrite filter_none; [done|].
      intros [k2 p2] Hin2 Hp2; simpl in Hp2. subst p2.
      assert (k2 = k) as -> by (apply Hinj; by right). done.
    + apply elem_of_cons in Hin as [[= -> ->]|Hin]; [done|].
      apply IH; [done|]. intros k2 Hk2. apply Hinj. by right.
Qed.

Lemma calls_on_reject_each_held h k (m : gmap K Promise) message :
  m !! k = Some h →
  (∀ k', m !! k' = Some h → k' = k) →
  calls_on h (reject_each m message) = [Rejected message].
Proof.
  intros Hk Hinj. rewrite calls_on_reject_each.
  rewrite (held_once _ k h); [done | apply NoDup_map_to_list | |].
  - by apply elem_of_map_to_list.
  - intros k' Hk'. apply Hinj. by apply elem_of_map_to_list.
Qed.

Lemma calls_on_reject_each_free h (m : gmap K Promise) message :
  (∀ k, m !! k ≠ Some h) →
  calls_on h (reject_each m message) = [].
Proof.
  intros Hfree. rewrite calls_on_reject_each.
  rewrite filter_none; [done|].
  intros [k p] Hin Hp; simpl in Hp. subst p.
  apply elem_of_map_to_list in Hin. by apply (Hfree k).
Qed.

End SettleLogFacts.

Section CoreFacts.

Context `{Countable K}.
Implicit Types (c : Core K) (l : Label K) (h : Promise) (k : K).

Lemma core_inv_apply l c :
  core_inv c → admissible l c → core_inv (core_apply l c).
Proof.
  intros [Hpend Hinj Htrack Honce Hfut] Hadm.
  destruct l as [|k|message|k st|message]; simpl in *.
  - by constructor.
  - (* Register *)
    constructor; simpl; unfold in_flight in *; simpl.
    + intros k' h Hk'. destruct (decide (k = k')) as [->|Hne].
      * rewrite lookup_insert_eq in Hk'. injection Hk' as <-.
        split; [lia | by apply Hfut].
      * rewrite lookup_insert_ne in Hk' by done.
        destruct (Hpend _ _ Hk'). split; [lia | done].
    + intros k1 k2 h H1 H2.
      destruct (decide (k1 = k)) as [->|Hne1], (decide (k2 = k)) as [->|Hne2];
        [done| | |].
      * rewrite lookup_insert_eq in H1. rewrite lookup_insert_ne in H2 by done.
        injection H1 as <-. destruct (Hpend _ _ H2). lia.
      * rewrite lookup_insert_eq in H2. rewrite lookup_insert_ne in H1 by done.
        injection H2 as <-. destruct (Hpend _ _ H1). lia.
      * rewrite lookup_insert_ne in H1, H2 by done. by eapply Hinj.
    + intros h [Hlt Hnone]. destruct (decide (h = c_allocated c)) as [->|Hne].
      * exists k. by rewrite lookup_insert_eq.
      * destruct (Htrack h) as [k' Hk']; [split; [lia|done]|].
        exists k'. rewrite lookup_insert_ne; [done|]. congruence.
    + done.
    + intros h Hle. apply Hfut. lia.
  - (* Fail *)
    constructor; simpl; unfold in_flight in *; simpl.
    + intros k' h Hk'. destruct (Hpend _ _ Hk') as [Hlt Hnone].
      split; [lia|]. rewrite calls_on_app, calls_on_one, Hnone.
      rewrite decide_False by lia. done.
    + done.
    + intros h [Hlt Hnone]. rewrite calls_on_app, calls_on_one in Hnone.
      case_decide as Hh; [by destruct (calls_on h (c_settles c))|].
      rewrite app_nil_r in Hnone. apply Htrack. split; [lia|done].
    + intros h. rewrite calls_on_app, calls_on_one, length_app.
      case_decide as Hh; simpl; [|specialize (Honce h); lia].
      subst h. rewrite Hfut by lia. simpl; lia.
    + intros h Hle. rewrite calls_on_app, calls_on_one, Hfut by lia.
      rewrite decide_False by lia. done.
  - (* Settle *)
    destruct (c_pending c !! k) as [p|] eqn:Hk; [|by constructor].
    destruct (Hpend _ _ Hk) as [Hplt Hpnone].
    constructor; simpl; unfold in_flight in *; simpl.
    + intros k' h Hk'. apply lookup_delete_Some in Hk' as [Hne Hk'].
      destruct (Hpend _ _ Hk') as [Hlt Hnone]. split; [done|].
      rewrite calls_on_app, calls_on_one, Hnone.
      rewrite decide_False; [done|]. intros ->. apply Hne. by eapply Hinj.
    + intros k1 k2 h H1 H2.
      apply lookup_delete_Some in H1 as [_ H1].
      apply lookup_delete_Some in H2 as [_ H2]. by eapply Hinj.
    + intros h [Hlt Hnone]. rewrite calls_on_app, calls_on_one in Hnone.
      case_decide as Hh; [by destruct (calls_on h (c_settles c))|].
      rewrite app_nil_r in Hnone.
      destruct (Htrack h) as [k' Hk']; [done|].
      exists k'. apply lookup_delete_Some. split; [|done].
      intros ->. congruence.
    + intros h. rewrite calls_on_app, calls_on_one, length_app.
      case_decide as Hh; simpl; [|specialize (Honce h); lia].
      subst h. rewrite Hpnone. simpl; lia.
    + intros h Hle. rewrite calls_on_app, calls_on_one, Hfut by lia.
      rewrite decide_False by lia. done.
  - (* Flush *)
    assert (∀ h, calls_on h (c_settles c) ≠ [] ∨ (c_allocated c ≤ h)%nat →
                 calls_on h (reject_each (c_pending c) message) = []) as Hfree.
    { intros h Hh. apply calls_on_reject_each_free. intros k Hk.
      destruct (Hpend _ _ Hk) as [Hlt Hnone]. destruct Hh; [done | lia]. }
    assert (∀ h, (h < c_allocated c)%nat → calls_on h (c_settles c) = [] →
                 calls_on h (reject_each (c_pending c) message) =
                   [Rejected message]) as Hheld.
    { intros h Hlt Hnone. destruct (Htrack h) as [k Hk]; [done|].
      apply (calls_on_reject_each_held h k); [done|].
      intros k' Hk'. by eapply Hinj. }
    constructor; simpl; unfold in_flight in *; simpl.
    + intros k h Hk. by rewrite lookup_empty in Hk.
    + intros k1 k2 h Hk. by rewrite lookup_empty in Hk.
    + intros h [Hlt Hnone]. rewrite calls_on_app in Hnone.
      apply app_eq_nil in Hnone as [Hnone Hflush].
      rewrite Hheld in Hflush by done. done.
    + intros h. rewrite calls_on_app, length_app.
      destruct (calls_on h (c_settles c)) as [|st rest] eqn:Hcalls.
      * destruct (decide (h < c_allocated c)%nat) as [Hlt|Hge].
        -- rewrite Hheld by done. simpl; lia.
        -- rewrite Hfree by (right; lia). simpl; lia.
      * rewrite Hfree by (left; by rewrite Hcalls).
        specialize (Honce h). rewrite Hcalls in Honce. simpl in *; lia.
    + intros h Hle. rewrite calls_on_app, Hfut, Hfree by (done || by right).
      done.
Qed.

(** A promise held under no id is never settled again, and stays held
    under no id. *)
Lemma core_released_stable l c h :
  core_inv c → released h c →
  calls_on h (c_settles (core_apply l c)) = calls_on h (c_settles c)
  ∧ released h (core_apply l c).
Proof.
  intros [Hpend Hinj Htrack Honce Hfut] [Hlt Hfree].
  destruct l as [|k|message|k st|message]; simpl; unfold released; simpl.
  - done.
  - split; [done|]. split; [lia|]. intros k'.
    destruct (decide (k' = k)) as [->|Hne].
    + rewrite lookup_insert_eq. intros [= Heq]. lia.
    + rewrite lookup_insert_ne by done. apply Hfree.
  - rewrite calls_on_app, calls_on_one, decide_False, app_nil_r by lia.
    split; [done|]. split; [lia|done].
  - destruct (c_pending c !! k) as [p|] eqn:Hk; simpl; [|done].
    rewrite calls_on_app, calls_on_one, decide_False, app_nil_r
      by (intros ->; by apply (Hfree k)).
    split; [done|]. split; [done|]. intros k' Hk'.
    apply lookup_delete_Some in Hk' as [_ Hk']. by apply (Hfree k').
  - rewrite calls_on_app, calls_on_reject_each_free, app_nil_r by done.
    split; [done|]. split; [done|]. intros k'. by rewrite lookup_empty.
Qed.

(** What one action does to the call held under id [k]. *)
Lemma core_track l c k h :
  core_inv c → admissible l c → c_pending c !! k = Some h →
  match l with
  | Settle k' st =>
      if decide (k' = k)
      then calls_on h (c_settles (core_apply l c)) = [st]
           ∧ released h (core_apply l c)
      else c_pending (core_apply l c) !! k = Some h
  | Flush message =>
      calls_on h (c_settles (core_apply l c)) = [Rejected message]
      ∧ released h (core_apply l c)
  | _ => c_pending (core_apply l c) !! k = Some h
  end.
Proof.
  intros [Hpend Hinj Htrack Honce Hfut] Hadm Hk.
  destruct (Hpend _ _ Hk) as [Hlt Hnone].
  destruct l as [|k'|message|k' st|message]; simpl in *; unfold released.
  - done.
  - rewrite lookup_insert_ne; [done|]. congruence.
  - done.
  - case_decide as Hkk.
    + subst k'. rewrite Hk; simpl.
      rewrite calls_on_app, calls_on_one, Hnone, decide_True by done.
      split; [done|]. split; [done|]. intros k2 Hk2.
      apply lookup_delete_Some in Hk2 as [Hne Hk2]. apply Hne.
      by eapply Hinj.
    + destruct (c_pending c !! k') as [p|] eqn:Hk'; simpl; [|done].
      by rewrite lookup_delete_ne.
  - rewrite calls_on_app, Hnone; simpl.
    rewrite (calls_on_reject_each_held h k); [|done|].
    + split; [done|]. split; [done|]. intros k2. by rewrite lookup_empty.
    + intros k2 Hk2. by eapply Hinj.
Qed.

(** The empty bookkeeping of a fresh object. *)
Lemma core_inv_empty :
  core_inv ({| c_pending := ∅; c_allocated := 0; c_settles := [] |} : Core K).
Proof.
  constructor; simpl; unfold in_flight; simpl.
  - intros k h Hk. by rewrite lookup_empty in Hk.
  - intros k1 k2 h Hk. by rewrite lookup_empty in Hk.
  - intros h [Hlt _]. lia.
  - intros h. simpl. lia.
  - done.
Qed.

End CoreFacts.

(** ** Target Control connection: the bookkeeping of calls *)

Section CdpCalls.

Import CdpBridge.
Variable URL : string → option Url.

Lemma cdp_core_step e s :
  cdp_core (step URL e s) = core_apply (cdp_label e s) (cdp_core s)
  ∧ nextId (step URL e s) =
      nextId s + Z.of_nat (length (issued_by (cdp_label e s)))
  ∧ req_id <$> sent (step URL e s) =
      (req_id <$> sent s) ++ issued_by (cdp_label e s).
Proof.
  destruct e; simpl;
    unfold cdp_core, connect_begin, connect_resume, send, on, off, disconnect,
      onMessage, onClose, onError, scheduleReconnect, rejectAllPending,
      stopHealthPing, startHealthPing, cdp_outcome, isConnected; simpl;
    repeat case_match; simplify_eq; simpl in *;
    rewrite ?fmap_app, ?app_nil_r, ?Z.add_0_r; try done;
    repeat case_match; simplify_eq; try done;
    rewrite ?andb_false_r in *; done.
Qed.

Lemma cdp_inv_new : cdp_inv new.
Proof.
  constructor; simpl; [apply core_inv_empty | lia | | done].
  intros k h Hk. by rewrite lookup_empty in Hk.
Qed.

(** The id of an outgoing call is the counter, which no pending call
    holds. *)
Lemma cdp_label_admissible e s :
  cdp_inv s → admissible (cdp_label e s) (cdp_core s).
Proof.
  intros [_ _ Hkeys _].
  assert (pending s !! nextId s = None) as Hfresh.
  { destruct (pending s !! nextId s) as [h|] eqn:Hk; [|done].
    apply Hkeys in Hk. lia. }
  destruct e; simpl; repeat case_match; simpl; done.
Qed.

Lemma seqZ_snoc (n : Z) : 1 ≤ n → seqZ 1 (n + 1 - 1) = seqZ 1 (n - 1) ++ [n].
Proof.
  intros Hn. replace (n + 1 - 1) with ((n - 1) + 1) by lia.
  rewrite seqZ_app by lia. f_equal.
  replace (1 + (n - 1)) with n by lia.
  rewrite seqZ_cons by lia. by rewrite seqZ_nil by lia.
Qed.

Lemma cdp_label_register e s k :
  cdp_label e s = Register k → k = nextId s.
Proof. destruct e; simpl; repeat case_match; intros; simplify_eq; done. Qed.

Lemma cdp_inv_step e s : cdp_inv s → cdp_inv (step URL e s).
Proof.
  intros Hinv.
  pose proof (cdp_label_admissible e s Hinv) as Hadm.
  destruct Hinv as [Hcore Hnext Hkeys Hsent].
  destruct (cdp_core_step e s) as (Hc & Hn & Hs).
  constructor.
  - rewrite Hc. by apply core_inv_apply.
  - rewrite Hn. lia.
  - intros k h Hk.
    change (pending (step URL e s)) with (c_pending (cdp_core (step URL e s))) in Hk.
    rewrite Hc in Hk. rewrite Hn.
    destruct (cdp_label e s) as [|k'|message|k' st|message] eqn:Hl; simpl in *.
    + apply Hkeys in Hk. lia.
    + apply cdp_label_register in Hl as ->.
      destruct (decide (k = nextId s)) as [->|Hne].
      * lia.
      * rewrite lookup_insert_ne in Hk by done. apply Hkeys in Hk. lia.
    + apply Hkeys in Hk. lia.
    + destruct (pending s !! k') as [p|]; simpl in Hk.
      * apply lookup_delete_Some in Hk as [_ Hk]. apply Hkeys in Hk. lia.
      * apply Hkeys in Hk. lia.
    + by rewrite lookup_empty in Hk.
  - rewrite Hs, Hn, Hsent.
    destruct (cdp_label e s) as [|k'|message|k' st|message] eqn:Hl; simpl;
      rewrite ?app_nil_r, ?Z.add_0_r; try done.
    apply cdp_label_register in Hl as ->.
    by rewrite seqZ_snoc.
Qed.

Lemma cdp_inv_run trace : ∀ s, cdp_inv s → cdp_inv (run URL trace s).
Proof.
  induction trace as [|e trace IH]; intros s Hinv; [done|].
  apply IH. by apply cdp_inv_step.
Qed.

(** A promise held under no id keeps its settle calls whatever happens. *)
Lemma cdp_released_run trace h : ∀ s,
  cdp_inv s → released h (cdp_core s) →
  calls_on h (settles (run URL trace s)) = calls_on h (settles s)
  ∧ released h (cdp_core (run URL trace s)).
Proof.
  induction trace as [|e trace IH]; intros s Hinv Hrel; [done|].
  destruct (cdp_core_step e s) as (Hc & _ & _).
  destruct (core_released_stable (cdp_label e s) (cdp_core s) h
              (cdp_inv_core s Hinv) Hrel) as [Hcalls Hrel'].
  rewrite <- Hc in Hcalls, Hrel'.
  destruct (IH (step URL e s) (cdp_inv_step e s Hinv) Hrel') as [Hcalls' Hrel''].
  split; [|done]. etrans; [exact Hcalls'|exact Hcalls].
Qed.

(** A call held under id [i], while nothing breaks the connection, is
    settled by the first response that carries [i], and by nothing else. *)
Lemma cdp_track_run trace i h : ∀ s,
  cdp_inv s → pending s !! i = Some h →
  forallb (λ e, negb (cdp_breaks e)) trace = true →
  calls_on h (settles (run URL trace s)) =
    match cdp_first_response i trace with
    | Some m => [cdp_outcome m]
    | None => []
    end.
Proof.
  induction trace as [|e trace IH]; intros s Hinv Hi Hopen.
  - simpl. by destruct (inv_pending _ (cdp_inv_core s Hinv) i h Hi).
  - simpl in Hopen. apply andb_true_iff in Hopen as [He Hopen].
    destruct (cdp_core_step e s) as (Hc & _ & _).
    pose proof (core_track (cdp_label e s) (cdp_core s) i h
                  (cdp_inv_core s Hinv) (cdp_label_admissible e s Hinv) Hi)
      as Htrack.
    rewrite <- Hc in Htrack.
    pose proof (cdp_inv_step e s Hinv) as Hinv'.
    change (run URL (e :: trace) s) with (run URL trace (step URL e s)).
    remember (step URL e s) as s' eqn:Hs'. clear Hs' Hc.
    destruct e; simpl in He; try discriminate; simpl in Htrack |- *;
      try (by apply IH);
      try (by repeat case_match; apply IH).
    destruct data as [|m]; simpl in Htrack |- *; [by apply IH|].
    destruct (msg_id m) as [k|] eqn:Hk; simpl in Htrack.
    + destruct (decide (k = i)) as [->|Hne].
      * rewrite decide_True by done. destruct Htrack as [Hcalls Hrel].
        destruct (cdp_released_run trace h _ Hinv' Hrel) as [-> _]. done.
      * rewrite decide_False by congruence. by apply IH.
    + rewrite decide_False by congruence. by apply IH.
Qed.

End CdpCalls.

(** ** Gateway connection: the bookkeeping of calls *)

Section GatewayCalls.

Import GatewayClient.
Variable randomUUID : nat → string.

Lemma gateway_core_handle now e s :
  gateway_core (handle randomUUID now e s) =
    core_apply (gateway_label randomUUID e s) (gateway_core s)
  ∧ drawn (handle randomUUID now e s) =
      (drawn s + length (issued_by (gateway_label randomUUID e s)))%nat.
Proof.
  destruct e; simpl;
    unfold gateway_core, gateway_label, request_label, start, stop, request,
      handleMessage, sendConnect, request, onClose, onError, tickWatch,
      ws_close, flushPendingErrors, scheduleReconnect, gateway_outcome; simpl;
    repeat case_match; simplify_eq; simpl in *;
    rewrite ?Nat.add_0_r, ?Nat.add_1_r; try done;
    repeat case_match; simplify_eq; done.
Qed.

Lemma react_core now log acc h :
  gateway_core (react now log acc h) = gateway_core acc
  ∧ drawn (react now log acc h) = drawn acc
  ∧ awaiting (react now log acc h) = awaiting acc
  ∧ sent (react now log acc h) = sent acc
  ∧ closed (react now log acc h) = closed acc.
Proof.
  unfold react, helloReceived, connectFailed, ws_close, startTickWatch.
  repeat case_match; done.
Qed.

Lemma react_fold_core now log ready : ∀ acc,
  gateway_core (foldl (react now log) acc ready) = gateway_core acc
  ∧ drawn (foldl (react now log) acc ready) = drawn acc
  ∧ awaiting (foldl (react now log) acc ready) = awaiting acc
  ∧ sent (foldl (react now log) acc ready) = sent acc
  ∧ closed (foldl (react now log) acc ready) = closed acc.
Proof.
  induction ready as [|h ready IH]; intros acc; simpl; [done|].
  destruct (IH (react now log acc h)) as (-> & -> & -> & -> & ->).
  apply react_core.
Qed.

Lemma microtasks_core now s :
  gateway_core (microtasks now s) = gateway_core s
  ∧ drawn (microtasks now s) = drawn s
  ∧ awaiting (microtasks now s) =
      List.filter (λ h, negb (settled (settles s) h)) (awaiting s)
  ∧ sent (microtasks now s) = sent s
  ∧ closed (microtasks now s) = closed s.
Proof.
  unfold microtasks.
  destruct (react_fold_core now (settles s)
              (List.filter (settled (settles s)) (awaiting s))
              (with_awaiting
                 (List.filter (λ h, negb (settled (settles s) h)) (awaiting s)) s))
    as (-> & -> & -> & -> & ->).
  done.
Qed.

Lemma gateway_core_step ne s :
  gateway_core (step randomUUID ne s) =
    core_apply (gateway_label randomUUID ne.2 s) (gateway_core s)
  ∧ drawn (step randomUUID ne s) =
      (drawn s + length (issued_by (gateway_label randomUUID ne.2 s)))%nat.
Proof.
  unfold step.
  destruct (microtasks_core ne.1 (handle randomUUID ne.1 ne.2 s))
    as (-> & -> & _ & _).
  apply gateway_core_handle.
Qed.

Lemma gateway_label_register e s k :
  gateway_label randomUUID e s = Register k → k = randomUUID (drawn s).
Proof.
  destruct e; simpl; unfold request_label;
    repeat case_match; intros; simplify_eq; done.
Qed.

Lemma gateway_inv_new o : gateway_inv randomUUID (new o).
Proof.
  constructor; simpl.
  - apply core_inv_empty.
  - intros k h Hk. by rewrite lookup_empty in Hk.
  - intros h Hh. by apply elem_of_nil in Hh.
Qed.

(** Identifiers drawn from [randomUUID] never repeat. *)
Hypothesis unique : ∀ n m, randomUUID n = randomUUID m → n = m.

Lemma gateway_label_admissible e s :
  gateway_inv randomUUID s →
  admissible (gateway_label randomUUID e s) (gateway_core s).
Proof.
  intros [_ Hkeys _].
  destruct (gateway_label randomUUID e s) as [|k|message|k st|message] eqn:Hl;
    simpl; try done.
  apply gateway_label_register in Hl as ->.
  destruct (pending s !! randomUUID (drawn s)) as [h|] eqn:Hk; [|done].
  apply Hkeys in Hk as (n & Hn & Heq). apply unique in Heq. lia.
Qed.

Lemma gateway_inv_step ne s :
  gateway_inv randomUUID s → gateway_inv randomUUID (step randomUUID ne s).
Proof.
  intros Hinv.
  pose proof (gateway_label_admissible ne.2 s Hinv) as Hadm.
  destruct Hinv as [Hcore Hkeys Hawait].
  destruct (gateway_core_step ne s) as (Hc & Hd).
  constructor.
  - rewrite Hc. by apply core_inv_apply.
  - intros k h Hk.
    change (pending (step randomUUID ne s))
      with (c_pending (gateway_core (step randomUUID ne s))) in Hk.
    rewrite Hc in Hk. rewrite Hd.
    destruct (gateway_label randomUUID ne.2 s)
      as [|k'|message|k' st|message] eqn:Hl; simpl in *.
    + destruct (Hkeys _ _ Hk) as (n & Hn & ->). exists n. split; [lia|done].
    + apply gateway_label_register in Hl as ->.
      destruct (decide (k = randomUUID (drawn s))) as [->|Hne].
      * exists (drawn s). split; [lia|done].
      * rewrite lookup_insert_ne in Hk by done.
        destruct (Hkeys _ _ Hk) as (n & Hn & ->). exists n. split; [lia|done].
    + destruct (Hkeys _ _ Hk) as (n & Hn & ->). exists n. split; [lia|done].
    + destruct (pending s !! k') as [p|]; simpl in Hk.
      * apply lookup_delete_Some in Hk as [_ Hk].
        destruct (Hkeys _ _ Hk) as (n & Hn & ->). exists n. split; [lia|done].
      * destruct (Hkeys _ _ Hk) as (n & Hn & ->). exists n. split; [lia|done].
    + by rewrite lookup_empty in Hk.
  - intros h Hh. unfold step in *.
    destruct (microtasks_core ne.1 (handle randomUUID ne.1 ne.2 s))
      as (Hcore' & _ & Haw & _).
    rewrite Haw in Hh.
    change (settles (microtasks ne.1 (handle randomUUID ne.1 ne.2 s)))
      with (c_settles (gateway_core
              (microtasks ne.1 (handle randomUUID ne.1 ne.2 s)))).
    rewrite Hcore'. simpl.
    apply list_elem_of_In, filter_In in Hh as [_ Hh].
    unfold settled, promise_state in Hh.
    by destruct (calls_on h (settles (handle randomUUID ne.1 ne.2 s))).
Qed.

Lemma gateway_inv_run trace : ∀ s,
  gateway_inv randomUUID s → gateway_inv randomUUID (run randomUUID trace s).
Proof.
  induction trace as [|e trace IH]; intros s Hinv; [done|].
  apply IH. by apply gateway_inv_step.
Qed.

Lemma gateway_released_run trace h : ∀ s,
  gateway_inv randomUUID s → released h (gateway_core s) →
  calls_on h (settles (run randomUUID trace s)) = calls_on h (settles s)
  ∧ released h (gateway_core (run randomUUID trace s)).
Proof.
  induction trace as [|e trace IH]; intros s Hinv Hrel; [done|].
  destruct (gateway_core_step e s) as (Hc & _).
  destruct (core_released_stable (gateway_label randomUUID e.2 s)
              (gateway_core s) h (gateway_inv_core _ s Hinv) Hrel)
    as [Hcalls Hrel'].
  rewrite <- Hc in Hcalls, Hrel'.
  destruct (IH (step randomUUID e s) (gateway_inv_step e s Hinv) Hrel')
    as [Hcalls' Hrel''].
  split; [|done]. etrans; [exact Hcalls'|exact Hcalls].
Qed.

Lemma gateway_track_run trace i h : ∀ s,
  gateway_inv randomUUID s → pending s !! i = Some h →
  forallb (λ ne : Z * Event, negb (gateway_breaks ne.2)) trace = true →
  calls_on h (settles (run randomUUID trace s)) =
    match gateway_first_response i trace with
    | Some st => [st]
    | None => []
    end.
Proof.
  induction trace as [|[now e] trace IH]; intros s Hinv Hi Hopen.
  - simpl. by destruct (inv_pending _ (gateway_inv_core _ s Hinv) i h Hi).
  - simpl in Hopen. apply andb_true_iff in Hopen as [He Hopen].
    destruct (gateway_core_step (now, e) s) as (Hc & _).
    pose proof (core_track (gateway_label randomUUID e s) (gateway_core s) i h
                  (gateway_inv_core _ s Hinv)
                  (gateway_label_admissible e s Hinv) Hi) as Htrack.
    simpl in Hc. rewrite <- Hc in Htrack.
    pose proof (gateway_inv_step (now, e) s Hinv) as Hinv'.
    change (run randomUUID ((now, e) :: trace) s)
      with (run randomUUID trace (step randomUUID (now, e) s)).
    remember (step randomUUID (now, e) s) as s' eqn:Hs'. clear Hs' Hc.
    destruct e; simpl in He; try discriminate; simpl in Htrack |- *;
      unfold request_label in Htrack;
      try (by apply IH);
      try (by repeat case_match; apply IH).
    destruct raw as [|[evt|id ok body error|]]; simpl in Htrack |- *;
      try (by apply IH);
      try (by unfold request_label in Htrack; repeat case_match; apply IH).
    destruct (decide (id = i)) as [->|Hne].
    + destruct Htrack as [Hcalls Hrel].
      destruct (gateway_released_run trace h _ Hinv' Hrel) as [-> _]. done.
    + by apply IH.
Qed.

End GatewayCalls.

(** ** Responses are matched to calls by correlation id *)

Section Correlation.

Variable URL : string → option CdpBridge.Url.
Variable randomUUID : nat → string.

(** A call made on a connected bridge goes out under the counter and is
    held under it. *)
Lemma cdp_send_registers method params s :
  CdpBridge.isConnected s = true →
  let s1 := CdpBridge.step URL (CdpBridge.Send method params) s in
  (CdpBridge.send method params s).2 = CdpBridge.allocated s
  ∧ CdpBridge.pending s1 !! CdpBridge.nextId s = Some (CdpBridge.allocated s)
  ∧ CdpBridge.sent s1 =
      CdpBridge.sent s ++
        [ {| CdpBridge.req_id := CdpBridge.nextId s;
             CdpBridge.req_method := method;
             CdpBridge.req_params := params |} ].
Proof.
  intros Hconn. simpl. unfold CdpBridge.send, CdpBridge.isConnected in *.
  simpl. rewrite Hconn. simpl. by rewrite lookup_insert_eq.
Qed.

Lemma gateway_request_registers now method params s :
  GatewayClient.ws s = Some OPEN →
  let s1 := GatewayClient.step randomUUID
              (now, GatewayClient.RequestCall method params) s in
  (GatewayClient.request randomUUID method params s).2 = GatewayClient.allocated s
  ∧ GatewayClient.pending s1 !! randomUUID (GatewayClient.drawn s)
      = Some (GatewayClient.allocated s)
  ∧ GatewayClient.sent s1 =
      GatewayClient.sent s ++
        [ {| GatewayClient.req_id := randomUUID (GatewayClient.drawn s);
             GatewayClient.req_method := method;
             GatewayClient.req_params := params |} ].
Proof.
  intros Hopen s1.
  destruct (microtasks_core now
              (GatewayClient.handle randomUUID now
                 (GatewayClient.RequestCall method params) s))
    as (Hcore & _ & _ & Hsent & _).
  subst s1. unfold GatewayClient.step. simpl fst. simpl snd.
  change (GatewayClient.pending (GatewayClient.microtasks now ?x))
    with (c_pending (gateway_core (GatewayClient.microtasks now x))).
  rewrite Hcore, Hsent. simpl. unfold GatewayClient.request. simpl.
  rewrite Hopen. simpl. by rewrite lookup_insert_eq.
Qed.

(** C1, amended.  On a connection that stays open (no close, error or
    teardown in between), the future of a call is settled exactly by the
    first response whose correlation id is the id its request went out
    under, whatever other calls and responses are interleaved and in
    whatever order they arrive; until then it stays pending.  A response
    whose id is not in the pending map changes nothing.  A Target Control
    response whose error carries a non-empty message rejects the future with
    that message; a Gateway response with [ok = false] rejects the future
    with the error's message, or with "unknown error" when it has none.  For
    the Target Control connection the id is the counter; for the Gateway
    connection it is the identifier drawn from [randomUUID], identifiers
    being never drawn twice. *)
Theorem responses_matched_by_correlation_id
    (unique : ∀ n m, randomUUID n = randomUUID m → n = m) :
  (* Target Control *)
  (∀ trace0 method params trace,
      let s := CdpBridge.run URL trace0 CdpBridge.new in
      let s1 := CdpBridge.step URL (CdpBridge.Send method params) s in
      let future := (CdpBridge.send method params s).2 in
      CdpBridge.isConnected s = true →
      forallb (λ e, negb (cdp_breaks e)) trace = true →
      CdpBridge.sent s1 =
        CdpBridge.sent s ++
          [ {| CdpBridge.req_id := CdpBridge.nextId s;
               CdpBridge.req_method := method;
               CdpBridge.req_params := params |} ]
      ∧ calls_on future (CdpBridge.settles (CdpBridge.run URL trace s1)) =
          match cdp_first_response (CdpBridge.nextId s) trace with
          | Some m => [cdp_outcome m]
          | None => []
          end)
  ∧ (∀ s m i,
        CdpBridge.msg_id m = Some i → CdpBridge.pending s !! i = None →
        CdpBridge.onMessage (CdpBridge.Parsed m) s = s)
  ∧ (∀ s m i h text,
        CdpBridge.msg_id m = Some i → CdpBridge.pending s !! i = Some h →
        CdpBridge.msg_error m ≫= CdpBridge.message = Some text →
        text ≠ "" →
        CdpBridge.settles (CdpBridge.onMessage (CdpBridge.Parsed m) s) =
          CdpBridge.settles s ++ [(h, Rejected text)])
  (* Gateway *)
  ∧ (∀ o trace0 now method params trace,
        let s := GatewayClient.run randomUUID trace0 (GatewayClient.new o) in
        let s1 := GatewayClient.step randomUUID
                    (now, GatewayClient.RequestCall method params) s in
        let future := (GatewayClient.request randomUUID method params s).2 in
        GatewayClient.ws s = Some OPEN →
        forallb (λ ne : Z * GatewayClient.Event, negb (gateway_breaks ne.2))
          trace = true →
        GatewayClient.sent s1 =
          GatewayClient.sent s ++
            [ {| GatewayClient.req_id := randomUUID (GatewayClient.drawn s);
                 GatewayClient.req_method := method;
                 GatewayClient.req_params := params |} ]
        ∧ calls_on future
            (GatewayClient.settles (GatewayClient.run randomUUID trace s1)) =
            match gateway_first_response
                    (randomUUID (GatewayClient.drawn s)) trace with
            | Some st => [st]
            | None => []
            end)
  ∧ (∀ s now id ok body error,
        GatewayClient.pending s !! id = None →
        GatewayClient.handleMessage randomUUID now
          (GatewayClient.Parsed (GatewayClient.Res id ok body error)) s = s)
  ∧ (∀ s now id h body error text,
        GatewayClient.pending s !! id = Some h →
        error ≫= GatewayClient.message = Some text →
        GatewayClient.settles
          (GatewayClient.handleMessage randomUUID now
             (GatewayClient.Parsed (GatewayClient.Res id false body error)) s) =
          GatewayClient.settles s ++ [(h, Rejected text)])
  ∧ (∀ s now id h body error,
        GatewayClient.pending s !! id = Some h →
        error ≫= GatewayClient.message = None →
        GatewayClient.settles
          (GatewayClient.handleMessage randomUUID now
             (GatewayClient.Parsed (GatewayClient.Res id false body error)) s) =
          GatewayClient.settles s ++ [(h, Rejected "unknown error")]).
Proof.
  split; [|split; [|split; [|split; [|split; [|split]]]]].
  - intros trace0 method params trace s s1 future Hconn Hopen.
    destruct (cdp_send_registers method params s Hconn) as (Hfut & Hheld & Hsent).
    split; [exact Hsent|].
    subst future. rewrite Hfut.
    apply cdp_track_run; [|exact Hheld|exact Hopen].
    apply cdp_inv_step, cdp_inv_run, cdp_inv_new.
  - intros s m i Hid Hnone. simpl. by rewrite Hid, Hnone.
  - intros s m i h text Hid Hheld Herr Htext. simpl.
    rewrite Hid, Hheld, Herr.
    assert (truthy_string text = true) as ->; [|done].
    unfold truthy_string. apply negb_true_iff, String.eqb_neq. done.
  - intros o trace0 now method params trace s s1 future Hws Hopen.
    destruct (gateway_request_registers now method params s Hws)
      as (Hfut & Hheld & Hsent).
    split; [exact Hsent|].
    subst future. rewrite Hfut.
    apply gateway_track_run; [exact unique| |exact Hheld|exact Hopen].
    apply gateway_inv_step, gateway_inv_run, gateway_inv_new; exact unique.
  - intros s now id ok body error Hnone. simpl. by rewrite Hnone.
  - intros s now id h body error text Hheld Herr. simpl.
    by rewrite Hheld, Herr.
  - intros s now id h body error Hheld Herr. simpl.
    by rewrite Hheld, Herr.
Qed.

End Correlation.

Section CorrelationInstances.

Lemma sample_uuid_unique n : ∀ m, sample_uuid n = sample_uuid m → n = m.
Proof.
  induction n as [|n IH]; intros [|m]; simpl; try done.
  intros [= Heq]. f_equal. by apply IH.
Qed.

(** A first call goes out under id 1 and a second one under id 2; the
    responses arrive in the other order, with a stray one in between; the
    first call gets the value sent for id 1. *)
Lemma responses_matched_by_correlation_id_witness :
  let s := CdpBridge.run sample_URL sample_connect CdpBridge.new in
  let s1 := CdpBridge.step sample_URL
              (CdpBridge.Send "Runtime.enable" JUndefined) s in
  let future := (CdpBridge.send "Runtime.enable" JUndefined s).2 in
  let trace := [ CdpBridge.Send "Runtime.evaluate" JUndefined;
                 cdp_result 2 (JStr "second");
                 cdp_result 7 (JStr "stray");
                 cdp_result 1 (JStr "first") ] in
  CdpBridge.isConnected s = true
  ∧ forallb (λ e, negb (cdp_breaks e)) trace = true
  ∧ calls_on future (CdpBridge.settles (CdpBridge.run sample_URL trace s1)) =
      [Resolved (JStr "first")].
Proof.
  cbv zeta. split; [reflexivity|]. split; [reflexivity|].
  etrans.
  - exact (proj2 (proj1 (responses_matched_by_correlation_id
                           sample_URL sample_uuid sample_uuid_unique)
                    sample_connect "Runtime.enable" JUndefined
                    [ CdpBridge.Send "Runtime.evaluate" JUndefined;
                      cdp_result 2 (JStr "second");
                      cdp_result 7 (JStr "stray");
                      cdp_result 1 (JStr "first") ]
                    eq_refl eq_refl)).
  - reflexivity.
Defined.

(** The edge of the Target Control handler: a response whose [error] object
    has no message, or an empty one, does not reject; the future is resolved
    with the [result] member. *)
Lemma cdp_error_without_message s m i h :
  CdpBridge.msg_id m = Some i → CdpBridge.pending s !! i = Some h →
  CdpBridge.msg_error m = Some {| CdpBridge.message := None |}
  ∨ CdpBridge.msg_error m = Some {| CdpBridge.message := Some "" |} →
  CdpBridge.settles (CdpBridge.onMessage (CdpBridge.Parsed m) s) =
    CdpBridge.settles s ++ [(h, Resolved (CdpBridge.msg_result m))].
Proof.
  intros Hid Hheld Herr. simpl. rewrite Hid, Hheld.
  destruct Herr as [-> | ->]; done.
Qed.

(** A bridge with one call in flight under id 1 receives the response
    [{id: 1, error: {message: ""}}], and then, from the same state, the
    response [{id: 1, error: {}}]: either resolves the future of the call,
    with [undefined], and rejects nothing. *)
Lemma error_response_resolves_the_future :
  let s := CdpBridge.run sample_URL
             (sample_connect ++ [ CdpBridge.Send "Runtime.enable" JUndefined ])
             CdpBridge.new in
  let reply text :=
    {| CdpBridge.msg_id := Some 1; CdpBridge.msg_method := None;
       CdpBridge.msg_params := None; CdpBridge.msg_result := JUndefined;
       CdpBridge.msg_error := Some {| CdpBridge.message := text |} |} in
  CdpBridge.pending s !! 1 = Some 0%nat
  ∧ CdpBridge.settles s = []
  ∧ CdpBridge.settles
      (CdpBridge.step sample_URL
         (CdpBridge.MessageEvent (CdpBridge.Parsed (reply (Some "")))) s)
    = [(0%nat, Resolved JUndefined)]
  ∧ CdpBridge.settles
      (CdpBridge.step sample_URL
         (CdpBridge.MessageEvent (CdpBridge.Parsed (reply None))) s)
    = [(0%nat, Resolved JUndefined)].
Proof.
  cbv zeta. rewrite (cdp_run_app sample_URL).
  set (s0 := CdpBridge.run sample_URL sample_connect CdpBridge.new).
  destruct (cdp_send_registers sample_URL "Runtime.enable" JUndefined s0 eq_refl)
    as (_ & Hheld & _).
  change (CdpBridge.run sample_URL [ CdpBridge.Send "Runtime.enable" JUndefined ] s0)
    with (CdpBridge.step sample_URL (CdpBridge.Send "Runtime.enable" JUndefined) s0).
  set (s := CdpBridge.step sample_URL (CdpBridge.Send "Runtime.enable" JUndefined) s0) in *.
  assert (CdpBridge.settles s = []) as Hnone by reflexivity.
  split; [exact Hheld|]. split; [exact Hnone|].
  change (CdpBridge.step sample_URL (CdpBridge.MessageEvent ?d) s)
    with (CdpBridge.onMessage d s).
  split.
  - rewrite (cdp_error_without_message s
               (CdpBridge.Build_Message (Some 1) None None JUndefined
                  (Some {| CdpBridge.message := Some "" |}))
               1 0%nat eq_refl Hheld (or_intror eq_refl)).
    by rewrite Hnone.
  - rewrite (cdp_error_without_message s
               (CdpBridge.Build_Message (Some 1) None None JUndefined
                  (Some {| CdpBridge.message := None |}))
               1 0%nat eq_refl Hheld (or_introl eq_refl)).
    by rewrite Hnone.
Qed.

End CorrelationInstances.

(** ** The schedule of reconnect delays *)

Section BackoffTheorem.

Variable URL : string → option CdpBridge.Url.
Variable randomUUID : nat → string.

Lemma nth_delay_backoff_after (N : nat) :
  (1 ≤ N)%nat → backoff_after (N - 1) = nth_delay N.
Proof.
  intros HN. unfold backoff_after, nth_delay.
  by replace (Z.of_nat (N - 1)) with (Z.of_nat N - 1) by lia.
Qed.

Lemma backoff_after_seq (N : nat) :
  backoff_after <$> List.seq 0 N = nth_delay <$> List.seq 1 N.
Proof.
  rewrite <- (fmap_S_seq 0 N), <- list_fmap_compose.
  apply list_fmap_ext. intros _ n _. simpl.
  rewrite <- (nth_delay_backoff_after (S n)) by lia.
  f_equal. lia.
Qed.

Lemma gateway_awaiting_step ne s :
  awaiting_unsettled (GatewayClient.step randomUUID ne s).
Proof.
  intros h Hh. unfold GatewayClient.step in *.
  destruct (microtasks_core ne.1 (GatewayClient.handle randomUUID ne.1 ne.2 s))
    as (Hcore & _ & Haw & _).
  rewrite Haw in Hh.
  change (GatewayClient.settles (GatewayClient.microtasks ne.1 ?x))
    with (c_settles (gateway_core (GatewayClient.microtasks ne.1 x))).
  rewrite Hcore. simpl.
  apply list_elem_of_In, filter_In in Hh as [_ Hh].
  unfold GatewayClient.settled, promise_state in Hh.
  by destruct (calls_on h _).
Qed.

Lemma gateway_awaiting_run trace o :
  awaiting_unsettled (GatewayClient.run randomUUID trace (GatewayClient.new o)).
Proof.
  destruct trace as [|ne trace _] using rev_ind.
  - intros h Hh. by apply elem_of_nil in Hh.
  - rewrite gateway_run_app. apply gateway_awaiting_step.
Qed.

Lemma gateway_onClose_fields code reason s :
  GatewayClient.awaiting (GatewayClient.onClose code reason s)
    = GatewayClient.awaiting s
  ∧ GatewayClient.settles (GatewayClient.onClose code reason s)
    = GatewayClient.settles s
        ++ reject_each (GatewayClient.pending s)
             ("gateway closed (" +:+ pretty code +:+ "): " +:+ reason)
  ∧ GatewayClient.closed (GatewayClient.onClose code reason s)
    = GatewayClient.closed s
  ∧ (GatewayClient.closed s = false →
     GatewayClient.backoffMs (GatewayClient.onClose code reason s)
       = next_backoff (GatewayClient.backoffMs s)
     ∧ GatewayClient.timeouts (GatewayClient.onClose code reason s)
       = GatewayClient.timeouts s ++ [GatewayClient.backoffMs s]).
Proof.
  unfold GatewayClient.onClose, GatewayClient.scheduleReconnect,
    GatewayClient.flushPendingErrors. simpl.
  destruct (GatewayClient.closed s) eqn:Hc; simpl; rewrite ?Hc; done.
Qed.

(** A [close] never resolves a connect promise. *)
Lemma gateway_close_no_reopen now code reason s :
  awaiting_unsettled s →
  gateway_reopens randomUUID (now, GatewayClient.CloseEvent code reason) s = false.
Proof.
  intros Hun. unfold gateway_reopens. cbn [fst snd].
  change (GatewayClient.handle randomUUID now
            (GatewayClient.CloseEvent code reason) s)
    with (GatewayClient.onClose code reason s).
  destruct (gateway_onClose_fields code reason s) as (-> & -> & _ & _).
  apply not_true_is_false. intros Hex.
  apply existsb_exists in Hex as (h & Hin & Hres).
  apply list_elem_of_In, Hun in Hin.
  unfold resolved, promise_state in Hres.
  rewrite calls_on_app, Hin, calls_on_reject_each in Hres. simpl in Hres.
  by destruct (length _).
Qed.

Lemma gateway_close_step now code reason s :
  GatewayClient.closed s = false → awaiting_unsettled s →
  let s' := GatewayClient.step randomUUID
              (now, GatewayClient.CloseEvent code reason) s in
  GatewayClient.closed s' = false
  ∧ GatewayClient.backoffMs s' = next_backoff (GatewayClient.backoffMs s)
  ∧ GatewayClient.timeouts s' =
      GatewayClient.timeouts s ++ [GatewayClient.backoffMs s].
Proof.
  intros Hopen Hun s'.
  pose proof (gateway_close_no_reopen now code reason s Hun) as Hno.
  unfold gateway_reopens in Hno. cbn [fst snd] in Hno.
  subst s'. unfold GatewayClient.step. cbn [fst snd].
  change (GatewayClient.handle randomUUID now
            (GatewayClient.CloseEvent code reason) s)
    with (GatewayClient.onClose code reason s) in *.
  destruct (microtasks_backoff now (GatewayClient.onClose code reason s))
    as (Ht & Hb & _).
  destruct (microtasks_core now (GatewayClient.onClose code reason s))
    as (_ & _ & _ & _ & Hc).
  destruct (gateway_onClose_fields code reason s) as (_ & _ & Hc' & Hsched).
  destruct (Hsched Hopen) as [Hb' Ht'].
  rewrite Ht, Hb, Hc by done. rewrite Hc', Hb', Ht'. done.
Qed.

Lemma gateway_closes_schedule closes : ∀ s k,
  GatewayClient.closed s = false →
  awaiting_unsettled s →
  GatewayClient.backoffMs s = backoff_after k →
  GatewayClient.timeouts
    (GatewayClient.run randomUUID (gateway_closes closes) s) =
    GatewayClient.timeouts s ++ (backoff_after <$> List.seq k (length closes)).
Proof.
  induction closes as [|[[now code] reason] closes IH]; intros s k Hopen Hun Hb.
  - simpl. by rewrite app_nil_r.
  - unfold gateway_closes. rewrite fmap_cons. cbn [fst snd].
    rewrite gateway_run_cons.
    destruct (gateway_close_step now code reason s Hopen Hun) as (Hc & Hb' & Ht).
    fold (gateway_closes closes).
    rewrite (IH _ (S k)); [|done|apply gateway_awaiting_step|].
    + rewrite Ht, Hb, <- app_assoc. done.
    + by rewrite Hb', Hb, next_backoff_after.
Qed.

Lemma gateway_timer_step now s :
  GatewayClient.closed s = false → awaiting_unsettled s →
  let s' := GatewayClient.step randomUUID (now, GatewayClient.ReconnectTimer) s in
  GatewayClient.closed s' = false
  ∧ GatewayClient.backoffMs s' = GatewayClient.backoffMs s
  ∧ GatewayClient.timeouts s' = GatewayClient.timeouts s.
Proof.
  intros Hopen Hun s'. subst s'. unfold GatewayClient.step. cbn [fst snd].
  change (GatewayClient.handle randomUUID now GatewayClient.ReconnectTimer s)
    with (GatewayClient.start s).
  assert (GatewayClient.start s = GatewayClient.with_ws (Some CONNECTING) s)
    as -> by (unfold GatewayClient.start; by rewrite Hopen).
  set (s1 := GatewayClient.with_ws (Some CONNECTING) s).
  destruct (microtasks_backoff now s1) as (Ht & Hb & _).
  destruct (microtasks_core now s1) as (_ & _ & _ & _ & Hc).
  rewrite Ht, Hc. rewrite Hb; [done|].
  apply not_true_is_false. intros Hex.
  apply existsb_exists in Hex as (h & Hin & Hres).
  apply list_elem_of_In in Hin. apply Hun in Hin.
  unfold resolved, promise_state in Hres. subst s1. simpl in Hres.
  by rewrite Hin in Hres.
Qed.

Lemma gateway_failed_attempts_schedule attempts : ∀ s k,
  GatewayClient.closed s = false →
  awaiting_unsettled s →
  GatewayClient.backoffMs s = backoff_after k →
  GatewayClient.timeouts
    (GatewayClient.run randomUUID (gateway_failed_attempts attempts) s) =
    GatewayClient.timeouts s ++ (backoff_after <$> List.seq k (length attempts)).
Proof.
  induction attempts as [|[[[now code] reason] fires] attempts IH];
    intros s k Hopen Hun Hb.
  - simpl. by rewrite app_nil_r.
  - unfold gateway_failed_attempts. rewrite bind_cons. cbn [fst snd].
    fold (gateway_failed_attempts attempts).
    rewrite <- app_comm_cons, gateway_run_cons.
    rewrite <- app_comm_cons, gateway_run_cons. rewrite app_nil_l.
    destruct (gateway_close_step now code reason s Hopen Hun) as (Hc & Hb' & Ht).
    set (s1 := GatewayClient.step randomUUID
                 (now, GatewayClient.CloseEvent code reason) s) in *.
    destruct (gateway_timer_step fires s1 Hc (gateway_awaiting_step _ _))
      as (Hc2 & Hb2 & Ht2).
    rewrite (IH _ (S k)); [|done|apply gateway_awaiting_step|].
    + rewrite Ht2, Ht, Hb, <- app_assoc. done.
    + by rewrite Hb2, Hb', Hb, next_backoff_after.
Qed.

(** The reconnect delays of the gateway client.  The backoff starts at
    1000 ms; the [then] of the connect request sets it back to 1000 ms; from
    a state whose backoff is 1000 ms, along any run in which no connect
    request is answered, the N-th delay handed to [setTimeout] is
    [min(1000 * 2^(N-1), 30000)] ms; and reconnect attempts that fail one
    after the other do run through that schedule: [start] attaches the
    [close] handler when it creates the socket, so the close of the socket
    the timer created schedules the next attempt. *)
Theorem gateway_reconnect_delay_schedule :
  (∀ o, GatewayClient.backoffMs (GatewayClient.new o) = 1000)
  ∧ (∀ ne s, gateway_reopens randomUUID ne s = true →
             GatewayClient.backoffMs (GatewayClient.step randomUUID ne s) = 1000)
  ∧ (∀ s trace (N : nat) (d : Z),
        GatewayClient.backoffMs s = 1000 →
        gateway_no_reopen randomUUID trace s = true →
        (1 ≤ N)%nat →
        GatewayClient.timeouts (GatewayClient.run randomUUID trace s)
          !! (length (GatewayClient.timeouts s) + (N - 1))%nat = Some d →
        d = Z.min (1000 * 2 ^ (Z.of_nat N - 1)) 30000)
  ∧ (∀ o trace0 closes,
        let s := GatewayClient.run randomUUID trace0 (GatewayClient.new o) in
        GatewayClient.backoffMs s = 1000 →
        GatewayClient.closed s = false →
        GatewayClient.timeouts
          (GatewayClient.run randomUUID (gateway_closes closes) s) =
          GatewayClient.timeouts s ++ (nth_delay <$> List.seq 1 (length closes)))
  ∧ (∀ o trace0 attempts,
        let s := GatewayClient.run randomUUID trace0 (GatewayClient.new o) in
        GatewayClient.backoffMs s = 1000 →
        GatewayClient.closed s = false →
        GatewayClient.timeouts
          (GatewayClient.run randomUUID (gateway_failed_attempts attempts) s) =
          GatewayClient.timeouts s
            ++ (nth_delay <$> List.seq 1 (length attempts))).
Proof.
  split; [|split; [|split; [|split]]].
  - done.
  - intros ne s. apply gateway_reopen_resets.
  - intros s trace N d Hb Hno HN Hd.
    destruct (gateway_run_backoff randomUUID trace s 0 0 (GatewayClient.timeouts s))
      as (n & _ & Hts); [done | by rewrite app_nil_r | done |].
    rewrite (backoff_run_nth 0 n _ _ N d Hts HN Hd). simpl.
    by apply nth_delay_backoff_after.
  - intros o trace0 closes s Hb Hopen.
    rewrite (gateway_closes_schedule closes s 0 Hopen); [|subst s|done].
    + by rewrite backoff_after_seq.
    + apply gateway_awaiting_run.
  - intros o trace0 attempts s Hb Hopen.
    rewrite (gateway_failed_attempts_schedule attempts s 0 Hopen);
      [|subst s|done].
    + by rewrite backoff_after_seq.
    + apply gateway_awaiting_run.
Qed.

(** Steps of the bridge other than a close and a successful reopening
    schedule nothing and open nothing. *)
Lemma cdp_step_idle e s :
  e ≠ CdpBridge.CloseEvent →
  cdp_reopens URL e s = false →
  CdpBridge.timeouts (CdpBridge.step URL e s) = CdpBridge.timeouts s
  ∧ CdpBridge.backoffMs (CdpBridge.step URL e s) = CdpBridge.backoffMs s
  ∧ CdpBridge.opened (CdpBridge.step URL e s) = CdpBridge.opened s
  ∧ (CdpBridge.ws s = None → CdpBridge.ws (CdpBridge.step URL e s) = None).
Proof.
  intros Hclose Hno.
  destruct e; simpl in *; try done;
    unfold CdpBridge.connect_begin, CdpBridge.connect_resume, CdpBridge.send,
      CdpBridge.on, CdpBridge.off, CdpBridge.disconnect, CdpBridge.onMessage,
      CdpBridge.onError, CdpBridge.rejectAllPending, CdpBridge.stopHealthPing,
      CdpBridge.startHealthPing, CdpBridge.isConnected in *;
    repeat case_match; simplify_eq; simpl in *; try done.
Qed.

Lemma cdp_run_idle trace : ∀ s,
  cdp_receivable URL (length (CdpBridge.opened s)) trace s = true →
  cdp_no_reopen URL trace s = true →
  CdpBridge.ws s = None →
  CdpBridge.timeouts (CdpBridge.run URL trace s) = CdpBridge.timeouts s
  ∧ CdpBridge.backoffMs (CdpBridge.run URL trace s) = CdpBridge.backoffMs s
  ∧ CdpBridge.opened (CdpBridge.run URL trace s) = CdpBridge.opened s
  ∧ CdpBridge.ws (CdpBridge.run URL trace s) = None.
Proof.
  induction trace as [|e trace IH]; intros s Hrecv Hno Hws; [done|].
  rewrite cdp_run_cons.
  simpl in Hno. apply andb_true_iff in Hno as [He Hno].
  apply negb_true_iff in He.
  assert (e ≠ CdpBridge.CloseEvent) as Hclose.
  { intros ->. simpl in Hrecv. apply andb_true_iff in Hrecv as [Hlt _].
    apply Nat.ltb_lt in Hlt. lia. }
  destruct (cdp_step_idle e s Hclose He) as (Ht & Hb & Ho & Hw).
  assert (cdp_receivable URL (length (CdpBridge.opened (CdpBridge.step URL e s)))
            trace (CdpBridge.step URL e s) = true) as Hrecv'.
  { rewrite Ho. by destruct e. }
  destruct (IH _ Hrecv' Hno (Hw Hws)) as (Ht' & Hb' & Ho' & Hw').
  rewrite Ht', Hb', Ho', Ht, Hb, Ho. done.
Qed.

(** C4, Target Control.  When the last live socket of a bridge that was not
    torn down closes, one reconnect attempt is scheduled, after the current
    backoff, and that is the only one: whatever the bridge receives next
    (the reconnect timer firing, a [connect] that fails at discovery, at the
    choice of target or at the socket, calls and timers), as long as no
    [connect] succeeds no further delay is handed to [setTimeout], the
    doubled backoff is kept and never used, and the bridge stays without a
    socket.  A reconnect attempt that fails is not followed by a second
    one. *)
Theorem failed_reconnect_is_not_retried
    (s : CdpBridge.t) (closes : nat) (trace : list CdpBridge.Event) :
  CdpBridge.closed s = false →
  S closes = length (CdpBridge.opened s) →
  let s1 := CdpBridge.step URL CdpBridge.CloseEvent s in
  cdp_receivable URL (S closes) trace s1 = true →
  cdp_no_reopen URL trace s1 = true →
  CdpBridge.timeouts s1 = CdpBridge.timeouts s ++ [CdpBridge.backoffMs s]
  ∧ CdpBridge.timeouts (CdpBridge.run URL trace s1) =
      CdpBridge.timeouts s ++ [CdpBridge.backoffMs s]
  ∧ CdpBridge.backoffMs (CdpBridge.run URL trace s1) =
      next_backoff (CdpBridge.backoffMs s)
  ∧ CdpBridge.isConnected (CdpBridge.run URL trace s1) = false.
Proof.
  intros Hopen Hclosed s1 Hrecv Hno.
  destruct (cdp_onClose_backoff s Hopen) as (_ & Hb & Ht).
  change (CdpBridge.onClose s) with s1 in Hb, Ht.
  assert (CdpBridge.opened s1 = CdpBridge.opened s) as Ho.
  { subst s1. simpl. unfold CdpBridge.onClose, CdpBridge.scheduleReconnect.
    simpl. by rewrite Hopen. }
  assert (CdpBridge.ws s1 = None) as Hws.
  { subst s1. simpl. unfold CdpBridge.onClose, CdpBridge.scheduleReconnect.
    simpl. by rewrite Hopen. }
  rewrite Hclosed, <- Ho in Hrecv.
  destruct (cdp_run_idle trace s1 Hrecv Hno Hws) as (Ht' & Hb' & _ & Hws').
  split; [done|]. split; [by rewrite Ht'|]. split; [by rewrite Hb'|].
  unfold CdpBridge.isConnected. rewrite Hws'. done.
Qed.

Lemma cdp_closes_need_sockets (N : nat) : ∀ s closes,
  cdp_receivable URL closes (replicate N CdpBridge.CloseEvent) s = true →
  (1 ≤ N)%nat →
  (closes + N ≤ length (CdpBridge.opened s))%nat.
Proof.
  induction N as [|N IH]; intros s closes Hrecv HN; [lia|].
  rewrite replicate_S in Hrecv. cbn [cdp_receivable] in Hrecv.
  apply andb_true_iff in Hrecv as [Hlt Hrecv]. apply Nat.ltb_lt in Hlt.
  destruct N as [|N]; [lia|].
  apply IH in Hrecv; [|lia].
  assert (CdpBridge.opened (CdpBridge.step URL CdpBridge.CloseEvent s)
          = CdpBridge.opened s) as Ho.
  { simpl. unfold CdpBridge.onClose, CdpBridge.scheduleReconnect. simpl.
    by destruct (CdpBridge.closed s). }
  rewrite Ho in Hrecv. lia.
Qed.

(** The reconnect delays of the bridge.  The backoff starts at 1000 ms.  A
    [connect] whose discovery lists a usable target, whose address parses
    and whose socket opens is a successful reopening: it records the socket
    and sets the backoff to 1000 ms without scheduling anything.  From a
    backoff of 1000 ms, along any run without a successful reopening, the
    N-th delay handed to [setTimeout] is [min(1000 * 2^(N-1), 30000)] ms.
    N closes in a row do produce the first N delays of that schedule, and
    they take N sockets that were opened and have not closed: one socket
    closes once. *)
Theorem cdp_delays_double_until_a_connect_succeeds :
  CdpBridge.backoffMs CdpBridge.new = 1000
  ∧ (∀ s host port targets address parsed,
       CdpBridge.usable_address (CdpBridge.select_target targets) = Some address →
       URL address = Some parsed →
       let e := CdpBridge.ConnectResumed host port (CdpBridge.Targets targets)
                  CdpBridge.SocketOpens in
       cdp_reopens URL e s = true
       ∧ CdpBridge.backoffMs (CdpBridge.step URL e s) = 1000
       ∧ CdpBridge.timeouts (CdpBridge.step URL e s) = CdpBridge.timeouts s
       ∧ CdpBridge.opened (CdpBridge.step URL e s) =
           CdpBridge.opened s ++ [CdpBridge.normalizeCdpWsUrl parsed host port])
  ∧ (∀ s trace (N : nat) (d : Z),
       CdpBridge.backoffMs s = 1000 →
       cdp_no_reopen URL trace s = true →
       (1 ≤ N)%nat →
       CdpBridge.timeouts (CdpBridge.run URL trace s)
         !! (length (CdpBridge.timeouts s) + (N - 1))%nat = Some d →
       d = Z.min (1000 * 2 ^ (Z.of_nat N - 1)) 30000)
  ∧ (∀ s (closes N : nat),
       CdpBridge.backoffMs s = 1000 →
       CdpBridge.closed s = false →
       cdp_receivable URL closes (replicate N CdpBridge.CloseEvent) s = true →
       CdpBridge.timeouts
         (CdpBridge.run URL (replicate N CdpBridge.CloseEvent) s) =
         CdpBridge.timeouts s ++ (nth_delay <$> List.seq 1 N)
       ∧ ((1 ≤ N)%nat → (closes + N ≤ length (CdpBridge.opened s))%nat)).
Proof.
  split; [done|]. split; [|split].
  - intros s host port targets address parsed Haddress Hparsed e. subst e.
    unfold cdp_reopens. simpl. unfold CdpBridge.connect_resume.
    rewrite Haddress, Hparsed. done.
  - intros s trace N d Hb Hno HN Hd.
    destruct (cdp_run_backoff URL trace s 0 0 (CdpBridge.timeouts s))
      as (n & _ & Hts); [done | by rewrite app_nil_r | done |].
    rewrite (backoff_run_nth 0 n _ _ N d Hts HN Hd). simpl.
    by apply nth_delay_backoff_after.
  - intros s closes N Hb Hopen Hrecv. split.
    + rewrite (cdp_closes_schedule URL N s 0 Hopen Hb).
      by rewrite backoff_after_seq.
    + by apply cdp_closes_need_sockets.
Qed.

End BackoffTheorem.

(** Two sockets opened by two calls of [connect], and then their two
    closes: the delays are 1000 ms and 2000 ms. *)
Lemma cdp_delays_double_until_a_connect_succeeds_witness :
  CdpBridge.timeouts
    (CdpBridge.run sample_URL (replicate 2 CdpBridge.CloseEvent)
       (CdpBridge.run sample_URL (sample_connect ++ sample_connect)
          CdpBridge.new)) =
    [1000; 2000].
Proof.
  exact (proj1
           (proj2 (proj2 (proj2
              (cdp_delays_double_until_a_connect_succeeds sample_URL)))
              (CdpBridge.run sample_URL (sample_connect ++ sample_connect)
                 CdpBridge.new) 0%nat 2%nat eq_refl eq_refl eq_refl)).
Defined.

(** The bridge is connected, its socket closes, the reconnect timer fires
    after 1000 ms and the discovery request fails: the delay of 1000 ms
    remains the only one scheduled, the backoff stays at 2000 ms. *)
Lemma failed_reconnect_is_not_retried_witness :
  let s := CdpBridge.run sample_URL sample_connect CdpBridge.new in
  let s1 := CdpBridge.step sample_URL CdpBridge.CloseEvent s in
  let failed :=
    [ CdpBridge.ReconnectTimer;
      CdpBridge.ConnectResumed "127.0.0.1" 19222
        (CdpBridge.FetchFailed "fetch failed") CdpBridge.SocketOpens;
      CdpBridge.PingTimer ] in
  CdpBridge.timeouts s1 = [1000]
  ∧ CdpBridge.timeouts (CdpBridge.run sample_URL failed s1) = [1000]
  ∧ CdpBridge.backoffMs (CdpBridge.run sample_URL failed s1) = 2000
  ∧ CdpBridge.isConnected (CdpBridge.run sample_URL failed s1) = false.
Proof.
  exact (failed_reconnect_is_not_retried sample_URL
           (CdpBridge.run sample_URL sample_connect CdpBridge.new) 0%nat
           [ CdpBridge.ReconnectTimer;
             CdpBridge.ConnectResumed "127.0.0.1" 19222
               (CdpBridge.FetchFailed "fetch failed") CdpBridge.SocketOpens;
             CdpBridge.PingTimer ]
           eq_refl eq_refl eq_refl eq_refl).
Defined.

(** Three closes in a row, and three reconnect attempts that fail one after
    the other, of a gateway client that was started once. *)
Lemma gateway_reconnect_delay_schedule_witness :
  GatewayClient.timeouts
    (GatewayClient.run sample_uuid
       (gateway_closes [(10, 1006, ""); (20, 1006, ""); (30, 1006, "")])
       (GatewayClient.run sample_uuid
          [(0, GatewayClient.Start); (1, GatewayClient.OpenEvent)]
          (GatewayClient.new sample_options))) =
    [1000; 2000; 4000]
  ∧ GatewayClient.timeouts
      (GatewayClient.run sample_uuid
         (gateway_failed_attempts
            [(10, 1006, "", 1010); (1020, 1006, "", 3020);
             (3030, 1006, "", 7030)])
         (GatewayClient.run sample_uuid
            [(0, GatewayClient.Start); (1, GatewayClient.OpenEvent)]
            (GatewayClient.new sample_options))) =
      [1000; 2000; 4000].
Proof.
  destruct (gateway_reconnect_delay_schedule sample_uuid)
    as (_ & _ & _ & Hcloses & Hattempts).
  split.
  - exact (Hcloses sample_options
             [(0, GatewayClient.Start); (1, GatewayClient.OpenEvent)]
             [(10, 1006, ""); (20, 1006, ""); (30, 1006, "")]
             eq_refl eq_refl).
  - exact (Hattempts sample_options
             [(0, GatewayClient.Start); (1, GatewayClient.OpenEvent)]
             [(10, 1006, "", 1010); (1020, 1006, "", 3020);
              (3030, 1006, "", 7030)]
             eq_refl eq_refl).
Defined.

(** ** A close rejects every pending call, once *)

Section CloseRejects.

Variable URL : string → option CdpBridge.Url.
Variable randomUUID : nat → string.

Lemma cdp_close_label s :
  cdp_label CdpBridge.CloseEvent s = Flush "CDP WebSocket closed".
Proof. reflexivity. Qed.

Lemma cdp_close_rejects s h trace :
  cdp_inv s → in_flight h (cdp_core s) →
  CdpBridge.pending (CdpBridge.step URL CdpBridge.CloseEvent s) = ∅
  ∧ calls_on h (CdpBridge.settles (CdpBridge.step URL CdpBridge.CloseEvent s)) =
      [Rejected "CDP WebSocket closed"]
  ∧ calls_on h
      (CdpBridge.settles
         (CdpBridge.run URL trace (CdpBridge.step URL CdpBridge.CloseEvent s)))
      = [Rejected "CDP WebSocket closed"].
Proof.
  intros Hinv Hflight.
  pose proof (cdp_inv_step URL CdpBridge.CloseEvent s Hinv) as Hinv'.
  pose proof (proj1 (cdp_core_step URL CdpBridge.CloseEvent s)) as Hc.
  rewrite cdp_close_label in Hc.
  remember (CdpBridge.step URL CdpBridge.CloseEvent s) as s' eqn:Hs'. clear Hs'.
  destruct (inv_tracked _ (cdp_inv_core s Hinv) h Hflight) as [k Hk].
  pose proof (core_track (Flush "CDP WebSocket closed") (cdp_core s) k h
                (cdp_inv_core s Hinv) I Hk) as [Hcalls Hrel].
  rewrite <- Hc in Hcalls, Hrel.
  split.
  { change (CdpBridge.pending s') with (c_pending (cdp_core s')).
    by rewrite Hc. }
  split; [exact Hcalls|].
  by destruct (cdp_released_run URL trace h s' Hinv' Hrel) as [-> _].
Qed.

Lemma gateway_close_label (now : Z) code reason s :
  gateway_label randomUUID (now, GatewayClient.CloseEvent code reason).2 s =
    Flush ("gateway closed (" +:+ pretty code +:+ "): " +:+ reason).
Proof. reflexivity. Qed.

Lemma gateway_close_rejects
    (unique : ∀ n m, randomUUID n = randomUUID m → n = m)
    s now code reason h trace :
  gateway_inv randomUUID s → in_flight h (gateway_core s) →
  GatewayClient.pending
    (GatewayClient.step randomUUID (now, GatewayClient.CloseEvent code reason) s)
    = ∅
  ∧ calls_on h
      (GatewayClient.settles
         (GatewayClient.step randomUUID
            (now, GatewayClient.CloseEvent code reason) s)) =
      [Rejected ("gateway closed (" +:+ pretty code +:+ "): " +:+ reason)]
  ∧ calls_on h
      (GatewayClient.settles
         (GatewayClient.run randomUUID trace
            (GatewayClient.step randomUUID
               (now, GatewayClient.CloseEvent code reason) s))) =
      [Rejected ("gateway closed (" +:+ pretty code +:+ "): " +:+ reason)].
Proof.
  intros Hinv Hflight.
  pose proof (gateway_inv_step randomUUID unique
                (now, GatewayClient.CloseEvent code reason) s Hinv) as Hinv'.
  pose proof (proj1 (gateway_core_step randomUUID
                       (now, GatewayClient.CloseEvent code reason) s)) as Hc.
  rewrite (gateway_close_label now code reason s) in Hc.
  remember (GatewayClient.step randomUUID
              (now, GatewayClient.CloseEvent code reason) s) as s' eqn:Hs'.
  clear Hs'.
  remember ("gateway closed (" +:+ pretty code +:+ "): " +:+ reason)
    as message eqn:Hm. clear Hm.
  destruct (inv_tracked _ (gateway_inv_core _ s Hinv) h Hflight) as [k Hk].
  pose proof (core_track (Flush message) (gateway_core s) k h
                (gateway_inv_core _ s Hinv) I Hk) as [Hcalls Hrel].
  rewrite <- Hc in Hcalls, Hrel.
  split.
  { change (GatewayClient.pending s') with (c_pending (gateway_core s')).
    by rewrite Hc. }
  split; [exact Hcalls|].
  by destruct (gateway_released_run randomUUID unique trace h s' Hinv' Hrel)
    as [-> _].
Qed.

(** C3.  For both connections: at a transport close, the future of every
    call that is pending at that moment (created by a call and not settled
    yet) receives exactly one settle call, the rejection of the close
    handler; whatever happens afterwards it never receives another (it is
    never resolved and never rejected a second time); and the pending map
    is empty after the close.  For the Gateway connection, identifiers are
    never drawn twice from [randomUUID]. *)
Theorem close_rejects_pending_calls_once
    (unique : ∀ n m, randomUUID n = randomUUID m → n = m) :
  (∀ trace0 h trace,
      let s := CdpBridge.run URL trace0 CdpBridge.new in
      let s' := CdpBridge.step URL CdpBridge.CloseEvent s in
      in_flight h (cdp_core s) →
      CdpBridge.pending s' = ∅
      ∧ calls_on h (CdpBridge.settles s') = [Rejected "CDP WebSocket closed"]
      ∧ calls_on h (CdpBridge.settles (CdpBridge.run URL trace s')) =
          [Rejected "CDP WebSocket closed"])
  ∧ (∀ o trace0 now code reason h trace,
        let s := GatewayClient.run randomUUID trace0 (GatewayClient.new o) in
        let s' := GatewayClient.step randomUUID
                    (now, GatewayClient.CloseEvent code reason) s in
        let message := "gateway closed (" +:+ pretty code +:+ "): " +:+ reason in
        in_flight h (gateway_core s) →
        GatewayClient.pending s' = ∅
        ∧ calls_on h (GatewayClient.settles s') = [Rejected message]
        ∧ calls_on h (GatewayClient.settles (GatewayClient.run randomUUID trace s'))
            = [Rejected message]).
Proof.
  split.
  - intros trace0 h trace s s' Hflight.
    apply cdp_close_rejects; [|exact Hflight].
    apply cdp_inv_run, cdp_inv_new.
  - intros o trace0 now code reason h trace s s' message Hflight.
    apply gateway_close_rejects; [exact unique| |exact Hflight].
    apply gateway_inv_run, gateway_inv_new; exact unique.
Qed.

End CloseRejects.

(** Two calls are pending when the socket closes; a late response for the
    first one arrives afterwards: its future has the one rejection. *)
Lemma close_rejects_pending_calls_once_witness :
  let s := CdpBridge.run sample_URL
             (sample_connect ++ [ CdpBridge.Send "Runtime.enable" JUndefined;
                                  CdpBridge.Send "Runtime.evaluate" JUndefined ])
             CdpBridge.new in
  let s' := CdpBridge.step sample_URL CdpBridge.CloseEvent s in
  let after := [ cdp_result 1 (JStr "late"); CdpBridge.ReconnectTimer ] in
  in_flight 0%nat (cdp_core s)
  ∧ CdpBridge.pending s' = ∅
  ∧ calls_on 0%nat (CdpBridge.settles s') = [Rejected "CDP WebSocket closed"]
  ∧ calls_on 0%nat (CdpBridge.settles (CdpBridge.run sample_URL after s')) =
      [Rejected "CDP WebSocket closed"].
Proof.
  cbv zeta.
  assert (in_flight 0%nat
            (cdp_core
               (CdpBridge.run sample_URL
                  (sample_connect ++
                     [ CdpBridge.Send "Runtime.enable" JUndefined;
                       CdpBridge.Send "Runtime.evaluate" JUndefined ])
                  CdpBridge.new))) as Hflight.
  { split; [cbv; lia | reflexivity]. }
  split; [exact Hflight|].
  exact (proj1 (close_rejects_pending_calls_once
                  sample_URL sample_uuid sample_uuid_unique)
           (sample_connect ++ [ CdpBridge.Send "Runtime.enable" JUndefined;
                                CdpBridge.Send "Runtime.evaluate" JUndefined ])
           0%nat [ cdp_result 1 (JStr "late"); CdpBridge.ReconnectTimer ]
           Hflight).
Defined.

(** ** Target Control correlation ids over the life of a bridge *)

Section CdpIdentifiers.

Import CdpBridge.
Variable URL : string → option Url.

Lemma cdp_nextId_step e s : nextId s ≤ nextId (step URL e s).
Proof. destruct (cdp_core_step URL e s) as (_ & -> & _). lia. Qed.

Lemma cdp_nextId_run trace : ∀ s, nextId s ≤ nextId (run URL trace s).
Proof.
  induction trace as [|e trace IH]; intros s; [done|].
  etrans; [apply (cdp_nextId_step e)|apply IH].
Qed.

(** Once every pending id is at least [bound], it stays so: later calls go
    out under the counter, which is at least [bound]. *)
Lemma cdp_keys_above trace (bound : Z) : ∀ s,
  bound ≤ nextId s →
  (∀ k h, pending s !! k = Some h → bound ≤ k) →
  ∀ k h, pending (run URL trace s) !! k = Some h → bound ≤ k.
Proof.
  induction trace as [|e trace IH]; intros s Hb Hkeys; [exact Hkeys|].
  apply (IH (step URL e s)).
  - etrans; [exact Hb|apply cdp_nextId_step].
  - intros k h Hk.
    destruct (cdp_core_step URL e s) as (Hc & _ & _).
    change (pending (step URL e s)) with (c_pending (cdp_core (step URL e s))) in Hk.
    rewrite Hc in Hk.
    destruct (cdp_label e s) as [|k'|message|k' st|message] eqn:Hl; simpl in Hk.
    + by eapply Hkeys.
    + apply cdp_label_register in Hl as ->.
      destruct (decide (k = nextId s)) as [->|Hne]; [done|].
      rewrite lookup_insert_ne in Hk by done. by eapply Hkeys.
    + by eapply Hkeys.
    + destruct (pending s !! k') as [p|]; simpl in Hk; [|by eapply Hkeys].
      apply lookup_delete_Some in Hk as [_ Hk]. by eapply Hkeys.
    + by rewrite lookup_empty in Hk.
Qed.

(** C10.  The id counter of a bridge starts at 1; no step ever lowers it,
    a teardown, a close and a reconnect leave it as it is; the ids of the
    requests written to the socket over the whole life of the bridge are
    1, 2, 3, ... in this order, so that no two requests share an id; every
    close empties the pending map; and a response that carries the id of a
    request issued before a close changes nothing when it arrives after the
    close, whatever requests were issued since: it cannot settle any of
    them. *)
Theorem correlation_ids_never_reused :
  nextId new = 1
  ∧ (∀ e s, nextId s ≤ nextId (step URL e s))
  ∧ (∀ s host port found socket,
        nextId (step URL Disconnect s) = nextId s
        ∧ nextId (step URL CloseEvent s) = nextId s
        ∧ nextId (step URL ReconnectTimer s) = nextId s
        ∧ nextId (step URL (Connect host port) s) = nextId s
        ∧ nextId (step URL (ConnectResumed host port found socket) s) = nextId s)
  ∧ (∀ trace,
        req_id <$> sent (run URL trace new) =
          seqZ 1 (nextId (run URL trace new) - 1)
        ∧ NoDup (req_id <$> sent (run URL trace new)))
  ∧ (∀ s, pending (step URL CloseEvent s) = ∅)
  ∧ (∀ trace0 trace1 m i,
        let s := run URL trace0 new in
        let later := run URL trace1 (step URL CloseEvent s) in
        msg_id m = Some i →
        i ∈ (req_id <$> sent s) →
        pending later !! i = None
        ∧ step URL (MessageEvent (Parsed m)) later = later).
Proof.
  split; [done|]. split; [apply cdp_nextId_step|]. split.
  { intros s host port found socket. repeat split; simpl.
    - unfold disconnect. by case_match.
    - unfold onClose, scheduleReconnect. simpl. by case_match.
    - by case_match.
    - unfold connect_resume. by repeat case_match. }
  split.
  { intros trace.
    pose proof (cdp_inv_sent _ (cdp_inv_run URL trace new cdp_inv_new)) as Hsent.
    split; [exact Hsent|]. rewrite Hsent. apply NoDup_seqZ. }
  split.
  { intros s. simpl. unfold onClose, scheduleReconnect. simpl. by case_match. }
  intros trace0 trace1 m i s later Hid Hi.
  assert (i < nextId s) as Hlt.
  { pose proof (cdp_inv_sent _ (cdp_inv_run URL trace0 new cdp_inv_new))
      as Hsent.
    fold s in Hsent. rewrite Hsent in Hi.
    apply elem_of_seqZ in Hi. lia. }
  assert (pending later !! i = None) as Hnone.
  { destruct (pending later !! i) as [h|] eqn:Hk; [|done].
    assert (nextId s ≤ i); [|lia].
    apply (cdp_keys_above trace1 (nextId s) (step URL CloseEvent s)) with h.
    - apply cdp_nextId_step.
    - intros k h'. simpl. unfold onClose, scheduleReconnect. simpl.
      case_match; simpl; by rewrite lookup_empty.
    - exact Hk. }
  split; [exact Hnone|]. simpl. by rewrite Hid, Hnone.
Qed.

End CdpIdentifiers.

(** A request goes out under id 1, the socket closes, the bridge reconnects
    and a new request goes out under id 2; the response for id 1 that
    arrives then is dropped and the new request stays pending. *)
Lemma correlation_ids_never_reused_witness :
  let before := sample_connect ++ [ CdpBridge.Send "Runtime.enable" JUndefined ] in
  let after :=
    [ CdpBridge.ReconnectTimer;
      CdpBridge.ConnectResumed "127.0.0.1" 19222 (CdpBridge.Targets [sample_page])
        CdpBridge.SocketOpens;
      CdpBridge.Send "Runtime.evaluate" JUndefined ] in
  let later :=
    CdpBridge.run sample_URL after
      (CdpBridge.step sample_URL CdpBridge.CloseEvent
         (CdpBridge.run sample_URL before CdpBridge.new)) in
  CdpBridge.req_id <$> CdpBridge.sent later = [1; 2]
  ∧ CdpBridge.pending later !! 1 = None
  ∧ CdpBridge.step sample_URL (cdp_result 1 (JStr "late")) later = later.
Proof.
  cbv zeta. split; [reflexivity|].
  refine (proj2 (proj2 (proj2 (proj2 (proj2
            (correlation_ids_never_reused sample_URL)))))
            (sample_connect ++ [ CdpBridge.Send "Runtime.enable" JUndefined ])
            _ (cdp_result_message 1 (JStr "late")) 1 eq_refl _).
  assert (CdpBridge.req_id <$>
            CdpBridge.sent
              (CdpBridge.run sample_URL
                 (sample_connect ++ [ CdpBridge.Send "Runtime.enable" JUndefined ])
                 CdpBridge.new) = [1]) as -> by reflexivity.
  apply list_elem_of_here.
Defined.

(** ** The guard of the Gateway [request] *)

Section RequestGuard.

Import GatewayClient.
Variable randomUUID : nat → string.

(** C2, amended.  [request] looks at the socket only.  When the socket is
    absent or not in the OPEN state the call fails at once: its future is
    rejected with "gateway not connected", no frame is sent, no identifier
    is drawn and nothing is added to the pending map.  When the socket is
    OPEN the request is sent and queued, whatever the state of the
    handshake ([connectSent], which only [isConnected] reports). *)
Theorem request_guard_checks_socket_only (method : string) (params : JsValue)
    (s : t) :
  let call := request randomUUID method params s in
  isConnected s = bool_decide (ws s = Some OPEN) && connectSent s
  ∧ (if bool_decide (ws s = Some OPEN)
     then
       sent call.1 =
         sent s ++ [ {| req_id := randomUUID (drawn s); req_method := method;
                        req_params := params |} ]
       ∧ pending call.1 = <[randomUUID (drawn s) := call.2]> (pending s)
       ∧ settles call.1 = settles s
       ∧ connectSent call.1 = connectSent s
     else
       settles call.1 = settles s ++ [(call.2, Rejected "gateway not connected")]
       ∧ sent call.1 = sent s
       ∧ pending call.1 = pending s
       ∧ drawn call.1 = drawn s).
Proof.
  unfold request, isConnected. simpl.
  destruct (bool_decide (ws s = Some OPEN)); simpl; done.
Qed.

End RequestGuard.

(** C2, as the claim states it: a request made once the socket is open and
    before any challenge has arrived (the client is not past the handshake,
    [isConnected] is false) does not fail: its frame is written to the
    socket, its future is left pending and it is held in the pending map. *)
Lemma request_before_handshake_is_sent :
  let s := GatewayClient.run sample_uuid
             [(0, GatewayClient.Start); (1, GatewayClient.OpenEvent)]
             (GatewayClient.new sample_options) in
  let s1 := GatewayClient.step sample_uuid
              (2, GatewayClient.RequestCall "chat.send" JNull) s in
  GatewayClient.isConnected s = false
  ∧ GatewayClient.connectSent s = false
  ∧ GatewayClient.sent s1 =
      [ {| GatewayClient.req_id := sample_uuid 0;
           GatewayClient.req_method := "chat.send";
           GatewayClient.req_params := JNull |} ]
  ∧ GatewayClient.pending s1 !! sample_uuid 0 = Some 0%nat
  ∧ GatewayClient.settles s1 = []
  ∧ ¬ (∀ method params (s : GatewayClient.t),
         GatewayClient.isConnected s = false →
         let call := GatewayClient.request sample_uuid method params s in
         GatewayClient.settles call.1 =
           GatewayClient.settles s ++ [(call.2, Rejected "gateway not connected")]
         ∧ GatewayClient.sent call.1 = GatewayClient.sent s).
Proof.
  cbv zeta.
  set (s := GatewayClient.run sample_uuid
              [(0, GatewayClient.Start); (1, GatewayClient.OpenEvent)]
              (GatewayClient.new sample_options)).
  destruct (gateway_request_registers sample_uuid 2 "chat.send" JNull s eq_refl)
    as (_ & Hheld & Hsent).
  split; [reflexivity|]. split; [reflexivity|].
  split; [exact Hsent|]. split; [exact Hheld|]. split; [reflexivity|].
  intros Hall.
  destruct (Hall "chat.send" JNull s eq_refl) as [Hsettles _].
  discriminate Hsettles.
Qed.

(** ** Target selection in [connect] *)

Section TargetSelection.

Import CdpBridge.
Variable URL : string → option Url.



End TargetSelection.


(** ** The liveness watchdog of the Gateway connection *)

Section TickWatchdog.

Import GatewayClient.
Variable randomUUID : nat → string.

(** The turn of the event loop in which the first challenge arrives on an
    open socket: the connect request goes out and its promise is awaited. *)
Lemma challenge_step now nonce number s :
  ws s = Some OPEN → connectSent s = false → nonce ≠ "" →
  awaiting s = [] → settles s = [] →
  let s' := step randomUUID
              (now, MessageEvent
                      (Parsed (Evt {| event := "connect.challenge";
                                      payload := JObj (JField "nonce" (JStr nonce) JNil);
                                      seq := number |}))) s in
  pending s' !! randomUUID (drawn s) = Some (allocated s)
  ∧ awaiting s' = [allocated s]
  ∧ settles s' = []
  ∧ ws s' = Some OPEN
  ∧ closed s' = closed s.
Proof.
  intros Hws Hsent Hnonce Hawait Hsettles s'.
  assert (truthy_string nonce = true) as Htruthy.
  { unfold truthy_string. by apply negb_true_iff, String.eqb_neq. }
  assert (handle randomUUID now
            (MessageEvent
               (Parsed (Evt {| event := "connect.challenge";
                               payload := JObj (JField "nonce" (JStr nonce) JNil);
                               seq := number |}))) s
          = with_awaiting [allocated s]
              (with_sent
                 (sent s ++
                    [ {| req_id := randomUUID (drawn s); req_method := "connect";
                         req_params :=
                           connect_params
                             (with_connectSent true
                                (with_connectNonce (Some nonce) s)) |} ])
                 (with_pending (<[randomUUID (drawn s) := allocated s]> (pending s))
                    (with_drawn (S (drawn s))
                       (with_allocated (S (allocated s))
                          (with_connectSent true
                             (with_connectNonce (Some nonce) s))))))) as Hhandle.
  { cbn [handle handleMessage event payload String.eqb Ascii.eqb Bool.eqb].
    unfold challenge_nonce. cbn [get field_of String.eqb Ascii.eqb Bool.eqb].
    rewrite Htruthy. unfold sendConnect.
    cbn [connectSent with_connectNonce]. rewrite Hsent.
    unfold request. cbn [ws with_connectSent with_allocated with_connectNonce].
    rewrite Hws. cbn [bool_decide decide_rel]. simpl. by rewrite Hawait. }
  subst s'. unfold step. cbn [fst snd]. rewrite Hhandle.
  unfold microtasks. cbn [settles awaiting with_awaiting with_sent with_pending
                          with_drawn with_allocated with_connectSent
                          with_connectNonce].
  rewrite Hsettles. cbn [List.filter settled promise_state calls_on omap list_omap
                         head negb foldl].
  simpl. rewrite lookup_insert_eq, Hws. done.
Qed.

(** The turn of the event loop in which the reply to the connect request
    arrives: the handler resolves the connect promise and the [then] of
    [sendConnect] runs. *)
Lemma hello_step now id h hello error s :
  pending s !! id = Some h →
  awaiting s = [h] →
  calls_on h (settles s) = [] →
  step randomUUID (now, MessageEvent (Parsed (Res id true hello error))) s =
    helloReceived now hello
      (with_awaiting []
         (with_settles (settles s ++ [(h, Resolved hello)])
            (with_pending (delete id (pending s)) s))).
Proof.
  intros Hheld Hawait Hnone.
  unfold step, microtasks. cbn [fst snd handle handleMessage].
  rewrite Hheld. cbn [settles awaiting with_settles with_pending].
  rewrite Hawait.
  assert (promise_state h (settles s ++ [(h, Resolved hello)])
          = Some (Resolved hello)) as Hstate.
  { unfold promise_state. rewrite calls_on_app, Hnone, calls_on_one.
    by rewrite decide_True. }
  cbn [List.filter]. unfold settled. rewrite Hstate. cbn [negb foldl].
  unfold react. rewrite Hstate. done.
Qed.

(** What the reply to the connect request leaves behind. *)
Lemma hello_step_interval now id h hello error s :
  pending s !! id = Some h → awaiting s = [h] → calls_on h (settles s) = [] →
  let s' := step randomUUID
              (now, MessageEvent (Parsed (Res id true hello error))) s in
  match hello with
  | JUndefined | JNull => True
  | _ =>
      tickIntervalMs s' = advertised_interval hello
      ∧ tickTimer s' = Some (Z.max (advertised_interval hello) 1000)
      ∧ lastTick s' = Some now
  end.
Proof.
  intros Hheld Hawait Hnone s'. subst s'.
  rewrite (hello_step now id h hello error s Hheld Hawait Hnone).
  destruct hello; done.
Qed.

(** C8, amended.  Every tick event sets the last-tick timestamp to the
    clock.  A handshake reply (other than [undefined] or [null]) sets the
    tick interval to the number it advertises, 30000 ms when it advertises
    none, sets the last-tick timestamp to the clock, and starts the
    watchdog timer with the period [max(tickIntervalMs, 1000)]: the
    advertised interval when that is at least one second, one second
    otherwise.  When the timer fires on a client that was not stopped and
    has a last-tick timestamp: if more than [2 * tickIntervalMs] has
    elapsed since that timestamp it closes the socket with code 4000, and
    if not it does nothing.  On a stopped client it does nothing. *)
Theorem tick_watchdog (now : Z) (s : t) :
  (∀ body number,
      lastTick
        (handleMessage randomUUID now
           (Parsed (Evt {| event := "tick"; payload := body; seq := number |})) s)
        = Some now)
  ∧ (∀ hello,
        match hello with
        | JUndefined | JNull => True
        | _ =>
            tickIntervalMs (helloReceived now hello s) = advertised_interval hello
            ∧ tickTimer (helloReceived now hello s)
                = Some (Z.max (advertised_interval hello) 1000)
            ∧ lastTick (helloReceived now hello s) = Some now
        end)
  ∧ (∀ n others rest,
        advertised_interval
          (JObj (JField "policy" (JObj (JField "tickIntervalMs" (JNum n) others))
                   rest)) = n)
  ∧ advertised_interval (JObj JNil) = 30000
  ∧ (∀ id h hello error,
        pending s !! id = Some h → awaiting s = [h] →
        calls_on h (settles s) = [] →
        let s' := step randomUUID
                    (now, MessageEvent (Parsed (Res id true hello error))) s in
        match hello with
        | JUndefined | JNull => True
        | _ =>
            tickIntervalMs s' = advertised_interval hello
            ∧ tickTimer s' = Some (Z.max (advertised_interval hello) 1000)
            ∧ lastTick s' = Some now
        end)
  ∧ (∀ period, tickTimer s = Some period →
               handle randomUUID now TickTimer s = tickWatch now s)
  ∧ (∀ last readyState,
        closed s = false → lastTick s = Some last → last ≠ 0 →
        ws s = Some readyState →
        (now - last > 2 * tickIntervalMs s →
         closeCalls (tickWatch now s) =
           closeCalls s ++ [ {| code := Some 4000; reason := "tick timeout" |} ]
         ∧ ws (tickWatch now s) =
             Some (if decide (readyState = CLOSED) then CLOSED else CLOSING))
        ∧ (now - last ≤ 2 * tickIntervalMs s → tickWatch now s = s))
  ∧ (closed s = true → tickWatch now s = s).
Proof.
  split; [done|]. split.
  { intros hello. destruct hello; done. }
  split; [done|]. split; [done|]. split.
  { intros id h hello error. apply hello_step_interval. }
  split.
  { intros period Hp. simpl. by rewrite Hp. }
  split.
  - intros last readyState Hopen Hlast Hne Hws.
    unfold tickWatch, no_lastTick. rewrite Hopen, Hlast. simpl.
    destruct (Z.eqb_spec last 0) as [|_]; [done|].
    replace (tickIntervalMs s * 2) with (2 * tickIntervalMs s) by lia.
    destruct (Z.gtb_spec (now - last) (2 * tickIntervalMs s)) as [Hgt|Hle].
    + split; [|lia]. intros _. unfold ws_close. rewrite Hws. done.
    + split; [lia|done].
  - intros Hclosed. unfold tickWatch. by rewrite Hclosed.
Qed.

End TickWatchdog.

(** A client whose handshake reply advertised 30 s and that saw a tick at
    40 s: its timer firing at 95 s (55 s after the tick) does nothing, its
    timer firing at 125 s (85 s after the tick) closes the socket with code
    4000. *)
Lemma tick_watchdog_witness :
  let opened := GatewayClient.run sample_uuid
                  [ (0, GatewayClient.Start); (1, GatewayClient.OpenEvent) ]
                  (GatewayClient.new sample_options) in
  let s := GatewayClient.handleMessage sample_uuid 40000
             (GatewayClient.Parsed (GatewayClient.Evt (sample_frame "tick")))
             (GatewayClient.helloReceived 3
                (JObj (JField "policy"
                         (JObj (JField "tickIntervalMs" (JNum 30000) JNil)) JNil))
                opened) in
  GatewayClient.closed s = false
  ∧ GatewayClient.lastTick s = Some 40000
  ∧ GatewayClient.ws s = Some OPEN
  ∧ GatewayClient.tickIntervalMs s = 30000
  ∧ GatewayClient.tickWatch 95000 s = s
  ∧ GatewayClient.closeCalls (GatewayClient.tickWatch 125000 s) =
      GatewayClient.closeCalls s ++
        [ {| GatewayClient.code := Some 4000;
             GatewayClient.reason := "tick timeout" |} ].
Proof.
  cbv zeta.
  set (s := GatewayClient.handleMessage sample_uuid 40000
              (GatewayClient.Parsed (GatewayClient.Evt (sample_frame "tick")))
              (GatewayClient.helloReceived 3
                 (JObj (JField "policy"
                          (JObj (JField "tickIntervalMs" (JNum 30000) JNil)) JNil))
                 (GatewayClient.run sample_uuid
                    [ (0, GatewayClient.Start); (1, GatewayClient.OpenEvent) ]
                    (GatewayClient.new sample_options)))).
  do 4 (split; [reflexivity|]).
  pose proof (proj1 (proj2 (proj2 (proj2 (proj2 (proj2 (proj2
                (tick_watchdog sample_uuid 95000 s))))))) 40000 OPEN
                eq_refl eq_refl ltac:(discriminate) eq_refl) as [_ Hquiet].
  pose proof (proj1 (proj2 (proj2 (proj2 (proj2 (proj2 (proj2
                (tick_watchdog sample_uuid 125000 s))))))) 40000 OPEN
                eq_refl eq_refl ltac:(discriminate) eq_refl) as [Hfire _].
  split.
  - apply Hquiet. cbv. discriminate.
  - apply Hfire. reflexivity.
Defined.

(** C8, as the claim states it: a handshake reply that advertises a tick
    interval of 500 ms leaves the watchdog timer firing every 1000 ms, not
    at the advertised interval. *)
Lemma watchdog_period_is_not_the_advertised_interval :
  let s := GatewayClient.run sample_uuid
             [ (0, GatewayClient.Start); (1, GatewayClient.OpenEvent);
               (2, challenge "abc"); (3, hello_ok (sample_uuid 0) 500) ]
             (GatewayClient.new sample_options) in
  GatewayClient.tickIntervalMs s = 500
  ∧ GatewayClient.tickTimer s = Some 1000
  ∧ GatewayClient.tickTimer s ≠ Some 500.
Proof.
  cbv zeta.
  pose (s2 := GatewayClient.run sample_uuid
                [ (0, GatewayClient.Start); (1, GatewayClient.OpenEvent) ]
                (GatewayClient.new sample_options)).
  destruct (challenge_step sample_uuid 2 "abc" None s2)
    as (Hheld & Hawait & Hsettles & _); try reflexivity; [discriminate|].
  pose proof (hello_step_interval sample_uuid 3 (sample_uuid 0) 0%nat
                (JObj (JField "type" (JStr "hello-ok")
                      (JField "policy"
                         (JObj (JField "maxPayload" (JNum 1048576)
                               (JField "tickIntervalMs" (JNum 500) JNil)))
                         JNil)))
                None
                (GatewayClient.step sample_uuid (2, challenge "abc") s2)
                Hheld Hawait) as Hhello.
  cbv zeta in Hhello.
  destruct Hhello as (Hinterval & Htimer & _).
  { exact (f_equal (calls_on 0%nat) Hsettles). }
  change (GatewayClient.run sample_uuid
            [ (0, GatewayClient.Start); (1, GatewayClient.OpenEvent);
              (2, challenge "abc"); (3, hello_ok (sample_uuid 0) 500) ]
            (GatewayClient.new sample_options))
    with (GatewayClient.step sample_uuid (3, hello_ok (sample_uuid 0) 500)
            (GatewayClient.step sample_uuid (2, challenge "abc") s2)).
  unfold hello_ok. rewrite Hinterval, Htimer.
  repeat split; discriminate.
Qed.

(* ===================================================================== *)
(** * Further properties of the embedded code                             *)
(* ===================================================================== *)

(** ** Event Ring Buffer: capacities below one, and [query] *)

Section EventBufferEdges.

Import EventBuffer.

Lemma push_all_snoc events e b :
  push_all (events ++ [e]) b = push e.1 e.2 (push_all events b).
Proof. unfold push_all. by rewrite foldl_app. Qed.

Lemma push_short now f b :
  capacity b ≤ 1 → (length (buf b) ≤ 1)%nat →
  buf (push now f b) = [stamped (now, f)].
Proof.
  intros Hcap Hlen. unfold push; simpl.
  destruct (buf b) as [|e [|e' rest]]; simpl in *; [| |lia].
  - by destruct (Z.of_nat 0 >=? capacity b).
  - destruct (Z.geb_spec (Z.of_nat 1) (capacity b)); [done | lia].
Qed.

Lemma push_all_short events : ∀ b,
  capacity b ≤ 1 → (length (buf b) ≤ 1)%nat →
  capacity (push_all events b) = capacity b
  ∧ (length (buf (push_all events b)) ≤ 1)%nat.
Proof.
  induction events as [|[now f] events IH]; intros b Hcap Hlen; [done|].
  change (push_all ((now, f) :: events) b) with (push_all events (push now f b)).
  destruct (IH (push now f b)) as [-> Hshort].
  - by rewrite push_capacity.
  - by rewrite push_short.
  - by rewrite push_capacity.
Qed.

(** A buffer constructed with a capacity of zero or less is not empty: from
    the first push on it holds exactly the event pushed last, so its size
    is one, above its capacity. *)
Theorem buffer_without_capacity_keeps_last
    (C : Z) (events : list (Z * EventFrame)) (last : Z * EventFrame) :
  C ≤ 0 →
  let b := push_all (events ++ [last]) (new (Some C)) in
  buf b = [stamped last]
  ∧ size b = 1%nat
  ∧ query None b = [stamped last]
  ∧ C < Z.of_nat (size b).
Proof.
  intros HC b. subst b. rewrite push_all_snoc.
  destruct (push_all_short events (new (Some C))) as [Hcap Hlen];
    [simpl; lia | simpl; lia |].
  assert (buf (push last.1 last.2 (push_all events (new (Some C))))
          = [stamped last]) as Hbuf.
  { rewrite push_short; [by destruct last | rewrite Hcap; simpl; lia | done]. }
  unfold size, query. simpl option_bind. cbv beta iota zeta.
  rewrite Hbuf. simpl. repeat split; lia.
Qed.

(** Capacity 0 and two pushes: the buffer holds the second event. *)
Lemma buffer_without_capacity_keeps_last_witness :
  let b := push_all ([(10, sample_frame "a")] ++ [(11, sample_frame "b")])
             (new (Some 0)) in
  buf b = [stamped (11, sample_frame "b")] ∧ size b = 1%nat.
Proof.
  destruct (buffer_without_capacity_keeps_last 0 [(10, sample_frame "a")]
              (11, sample_frame "b") ltac:(lia)) as (Hbuf & Hsize & _).
  exact (conj Hbuf Hsize).
Defined.

Lemma filter_filter_andb {A} (f g : A → bool) (l : list A) :
  List.filter g (List.filter f l) = List.filter (λ x, f x && g x) l.
Proof.
  induction l as [|x l IH]; [done|]. simpl.
  destruct (f x); simpl; [destruct (g x)|]; by rewrite IH.
Qed.

Lemma filter_ext_bool {A} (f g : A → bool) (l : list A) :
  (∀ x, f x = g x) → List.filter f l = List.filter g l.
Proof.
  intros Hfg. induction l as [|x l IH]; [done|]. simpl. by rewrite Hfg, IH.
Qed.

Lemma filter_true {A} (l : list A) : List.filter (λ _, true) l = l.
Proof. induction l as [|x l IH]; [done|]. simpl. by rewrite IH. Qed.

Lemma filter_sublist {A} (f : A → bool) (l : list A) :
  List.filter f l `sublist_of` l.
Proof.
  induction l as [|x l IH]; [done|]. simpl.
  destruct (f x); [by apply sublist_skip | by apply sublist_cons].
Qed.

Lemma filter_elem_of {A} (f : A → bool) (l : list A) x :
  x ∈ List.filter f l ↔ x ∈ l ∧ f x = true.
Proof. rewrite !list_elem_of_In. apply List.filter_In. Qed.

(** The two filters of [query] are one selection. *)
Lemma query_unlimited o b :
  query (Some {| eventType := eventType o; since := since o; limit := None |}) b
  = List.filter (selected o) (buf b).
Proof.
  unfold query, selected. simpl.
  destruct (eventType o) as [ty|], (since o) as [cutoff|]; simpl.
  - destruct (truthy_string ty), (cutoff =? 0); simpl.
    + rewrite <- (filter_true (List.filter _ (buf b))) at 1.
      rewrite filter_filter_andb. apply filter_ext_bool. intros x.
      by rewrite !andb_true_r.
    + by rewrite filter_filter_andb.
    + by rewrite filter_true.
    + apply filter_ext_bool. done.
  - destruct (truthy_string ty); simpl.
    + apply filter_ext_bool. intros x. by rewrite andb_true_r.
    + by rewrite filter_true.
  - destruct (cutoff =? 0); simpl; [by rewrite filter_true|done].
  - by rewrite filter_true.
Qed.

Lemma query_limited o b :
  query (Some o) b =
    let matching :=
      query (Some {| eventType := eventType o; since := since o;
                     limit := None |}) b in
    match limit o with
    | Some l =>
        if 0 <? l then drop (length matching - Z.to_nat l) matching else matching
    | None => matching
    end.
Proof. unfold query. simpl. done. Qed.

(** [query] first selects, then limits: the events returned are those of
    the buffer that pass both filters, in buffer order, and a positive
    [limit] keeps the most recent of them.  An option that is falsy (an
    empty [eventType], a zero [since], a [limit] of zero or less) is
    ignored. *)
Theorem query_selects_then_limits (o : QueryOpts) (b : t) :
  let matching := List.filter (selected o) (buf b) in
  query (Some o) b `suffix_of` matching
  ∧ query (Some o) b `sublist_of` buf b
  ∧ (∀ e, e ∈ query (Some o) b → e ∈ buf b ∧ selected o e = true)
  ∧ match limit o with
    | Some l =>
        if 0 <? l
        then length (query (Some o) b) = (Z.to_nat l `min` length matching)%nat
        else query (Some o) b = matching
    | None => query (Some o) b = matching
    end
  ∧ (∀ l, l ≤ 0 →
       query (Some {| eventType := Some ""; since := Some 0; limit := Some l |}) b
       = buf b).
Proof.
  intros matching.
  assert (query (Some o) b `suffix_of` matching) as Hsuffix.
  { rewrite query_limited, query_unlimited. cbv zeta. fold matching.
    destruct (limit o) as [l|]; [|done].
    destruct (0 <? l); [apply suffix_drop | done]. }
  split; [exact Hsuffix|]. split.
  { destruct Hsuffix as [skipped Heq].
    etrans; [|apply (filter_sublist (selected o))]. fold matching.
    rewrite Heq. by apply sublist_inserts_l. }
  split.
  { intros e He. apply filter_elem_of.
    destruct Hsuffix as [skipped Heq]. fold matching. rewrite Heq.
    apply elem_of_app. by right. }
  split.
  { rewrite query_limited, query_unlimited. cbv zeta. fold matching.
    destruct (limit o) as [l|]; [|done].
    destruct (0 <? l); [|done]. rewrite length_drop. lia. }
  intros l Hl. unfold query. simpl.
  destruct (Z.ltb_spec 0 l); [lia | done].
Qed.

End EventBufferEdges.

(** ** Response Correlator: runs of calls *)

Section RouterTraces.

Import ResponseRouter.

Lemma shift_while_stale_suffix cutoff q :
  shift_while_stale cutoff q `suffix_of` q.
Proof.
  induction q as [|m q IH]; [done|]. simpl.
  destruct (injectedAt m <? cutoff); [by apply suffix_cons_r | done].
Qed.

Lemma router_run_snoc calls c r :
  router_run (calls ++ [c]) r = router_step c (router_run calls r).
Proof. unfold router_run. by rewrite foldl_app. Qed.

Lemma tracked_by_snoc calls c :
  tracked_by (calls ++ [c]) = tracked_by calls ++ tracked_by [c].
Proof. unfold tracked_by. by rewrite omap_app. Qed.

Lemma routed_by_snoc calls c :
  routed_by (calls ++ [c]) = routed_by calls ++ routed_by [c].
Proof. unfold routed_by. by rewrite omap_app. Qed.

Lemma sublist_of_suffix {A} (l k : list A) : l `suffix_of` k → l `sublist_of` k.
Proof. intros [skipped ->]. by apply sublist_inserts_l. Qed.

Lemma sublist_fmap {A B} (f : A → B) (l k : list A) :
  l `sublist_of` k → f <$> l `sublist_of` f <$> k.
Proof.
  induction 1 as [|x l k _ IH|x l k _ IH]; simpl;
    [done | by apply sublist_skip | by apply sublist_cons].
Qed.

(** What one call does to the deliveries and to the queue. *)
Lemma router_step_shape c r :
  ∃ popped,
    delivered (router_step c r) = delivered r ++ popped
    ∧ (addressee <$> popped) ++ (origin <$> pendingMessages (router_step c r))
        `sublist_of` (origin <$> pendingMessages r) ++ tracked_by [c]
    ∧ text <$> popped `sublist_of` routed_by [c].
Proof.
  destruct c as [now [callback|channel sender|type text]];
    unfold router_step, tracked_by, routed_by; simpl.
  - exists []. rewrite !app_nil_r. done.
  - exists []. rewrite app_nil_r. split; [done|]. split; [|done]. simpl.
    pose proof (shift_while_stale_suffix (now - CONTEXT_TIMEOUT_MS)
                  (pendingMessages r ++
                     [ {| channelId := channel; from := sender;
                          injectedAt := now |} ])) as Hsuffix.
    apply sublist_of_suffix in Hsuffix.
    apply (sublist_fmap origin) in Hsuffix.
    by rewrite fmap_app in Hsuffix.
  - unfold observed.
    destruct (String.eqb type "response"); simpl;
      [|exists []; rewrite !app_nil_r; done].
    destruct (truthy_string text); simpl;
      [|exists []; rewrite !app_nil_r; done].
    pose proof (shift_while_stale_suffix (now - CONTEXT_TIMEOUT_MS)
                  (pendingMessages r)) as Hsuffix.
    apply sublist_of_suffix in Hsuffix.
    apply (sublist_fmap origin) in Hsuffix.
    destruct (routeResponse_unfold now text r) as (Hq & _ & Hd).
    cbv zeta in Hq, Hd. rewrite Hq, Hd.
    rewrite (app_nil_r (origin <$> pendingMessages r)).
    destruct (shift_while_stale (now - CONTEXT_TIMEOUT_MS) (pendingMessages r))
      as [|m rest]; simpl.
    + exists []. split; [by destruct (responseCallback r)|].
      split; apply sublist_nil_l.
    + destruct (responseCallback r) as [cb|]; simpl.
      * eexists [_]. split; [done|]. simpl.
        split; [exact Hsuffix | done].
      * exists []. simpl. rewrite app_nil_r. split; [done|].
        split; [|apply sublist_nil_l].
        etrans; [|exact Hsuffix]. by apply sublist_cons.
Qed.

Lemma router_run_fifo calls r :
  ∃ popped,
    delivered (router_run calls r) = delivered r ++ popped
    ∧ (addressee <$> popped) ++ (origin <$> pendingMessages (router_run calls r))
        `sublist_of` (origin <$> pendingMessages r) ++ tracked_by calls
    ∧ text <$> popped `sublist_of` routed_by calls.
Proof.
  induction calls as [|c calls IH] using rev_ind.
  - exists []. simpl. rewrite !app_nil_r. done.
  - destruct IH as (popped & Hd & Hq & Ht).
    rewrite router_run_snoc, tracked_by_snoc, routed_by_snoc.
    destruct (router_step_shape c (router_run calls r)) as (more & Hd' & Hq' & Ht').
    exists (popped ++ more). rewrite Hd', Hd, <- app_assoc. split; [done|].
    rewrite !fmap_app. split; [|by apply sublist_app].
    rewrite <- app_assoc.
    trans ((addressee <$> popped) ++
           ((origin <$> pendingMessages (router_run calls r)) ++ tracked_by [c])).
    { apply sublist_app; [done | exact Hq']. }
    rewrite !app_assoc. apply sublist_app; [exact Hq | done].
Qed.

(** Over any run of calls on a new correlator, at any clock values: the
    senders the sink was invoked for, followed by those still queued, are
    the senders of the tracked injections in the order they were tracked,
    with some left out.  So responses are attributed in injection order and
    no injection is answered twice.  The texts delivered are texts of
    notifications that passed the observer's guard, in arrival order. *)
Theorem deliveries_follow_injection_order (calls : list (Z * RouterCall)) :
  let r := router_run calls new in
  (addressee <$> delivered r) ++ (origin <$> pendingMessages r)
    `sublist_of` tracked_by calls
  ∧ text <$> delivered r `sublist_of` routed_by calls
  ∧ (length (delivered r) + length (pendingMessages r)
     ≤ length (tracked_by calls))%nat
  ∧ (length (delivered r) ≤ length (routed_by calls))%nat.
Proof.
  intros r. subst r.
  destruct (router_run_fifo calls new) as (popped & Hd & Hq & Ht).
  simpl in Hd, Hq. rewrite Hd.
  split; [done|]. split; [done|].
  apply sublist_length in Hq, Ht.
  rewrite length_app, !length_fmap in Hq. rewrite length_fmap in Ht.
  split; lia.
Qed.

Lemma ascending_weaken lo lo' q : lo' ≤ lo → ascending lo q → ascending lo' q.
Proof. destruct q; simpl; [done|]. intros ? [? ?]. split; [lia|done]. Qed.

Lemma ascending_lower lo q :
  ascending lo q → Forall (λ m, lo ≤ injectedAt m) q.
Proof.
  revert lo. induction q as [|m q IH]; intros lo; simpl; [done|].
  intros [Hlo Hq]. constructor; [done|].
  apply IH. by apply (ascending_weaken (injectedAt m)).
Qed.

Lemma ascending_suffix lo q q' :
  q' `suffix_of` q → ascending lo q → ascending lo q'.
Proof.
  intros [skipped ->]. revert lo.
  induction skipped as [|m skipped IH]; intros lo; simpl; [done|].
  intros [Hlo Hq]. apply IH. by apply (ascending_weaken (injectedAt m)).
Qed.

Lemma ascending_snoc lo q m :
  ascending lo q → lo ≤ injectedAt m →
  Forall (λ m', injectedAt m' ≤ injectedAt m) q →
  ascending lo (q ++ [m]).
Proof.
  revert lo. induction q as [|m' q IH]; intros lo; simpl; [done|].
  intros [Hlo Hq] Hm Hall. inversion Hall; subst.
  split; [done|]. by apply IH.
Qed.

(** On a queue in injection order the loop of [pruneStale] leaves no stale
    record behind. *)
Lemma shift_while_stale_ascending cutoff lo q :
  ascending lo q →
  Forall (λ m, cutoff ≤ injectedAt m) (shift_while_stale cutoff q).
Proof.
  revert lo. induction q as [|m q IH]; intros lo; simpl; [done|].
  intros [Hlo Hq].
  destruct (Z.ltb_spec (injectedAt m) cutoff); [by apply (IH (injectedAt m))|].
  constructor; [done|].
  eapply Forall_impl; [apply ascending_lower, Hq|]. simpl. intros; lia.
Qed.

Lemma nondecreasing_snoc t0 clocks t :
  nondecreasing t0 (clocks ++ [t]) = true →
  nondecreasing t0 clocks = true ∧ default t0 (last clocks) ≤ t.
Proof.
  revert t0. induction clocks as [|t1 clocks IH]; intros t0; simpl.
  - rewrite andb_true_r. intros H%Z.leb_le. done.
  - intros [H1 H2]%andb_true_iff. destruct (IH t1 H2) as [Hn Hlast].
    rewrite H1, Hn. split; [done|].
    destruct clocks as [|t2 clocks]; [done|].
    rewrite last_cons_cons.
    destruct (last (t2 :: clocks)) eqn:E; [done|]. by apply last_None in E.
Qed.

Lemma nondecreasing_last t0 clocks :
  nondecreasing t0 clocks = true → t0 ≤ default t0 (last clocks).
Proof.
  revert t0. induction clocks as [|t1 clocks IH]; intros t0; simpl; [done|].
  intros [H1%Z.leb_le H2]%andb_true_iff. specialize (IH t1 H2).
  destruct clocks as [|t2 clocks]; [done|].
  rewrite last_cons_cons.
  destruct (last (t2 :: clocks)) eqn:E; [simpl in *; lia|].
  by apply last_None in E.
Qed.

(** While the clock never goes back, the queue stays in injection order
    and holds no record of the future. *)
Lemma router_run_ascending t0 calls :
  nondecreasing t0 (fst <$> calls) = true →
  let t := default t0 (last (fst <$> calls)) in
  ascending t0 (pendingMessages (router_run calls new))
  ∧ Forall (λ m, injectedAt m ≤ t) (pendingMessages (router_run calls new)).
Proof.
  induction calls as [|[now call] calls IH] using rev_ind; [done|].
  rewrite fmap_app. simpl fmap. intros Hclock.
  apply nondecreasing_snoc in Hclock as [Hclock Hnow].
  pose proof (nondecreasing_last _ _ Hclock) as Hlo.
  destruct (IH Hclock) as [Hasc Hall]. clear IH.
  rewrite last_snoc, router_run_snoc. simpl default.
  remember (router_run calls new) as r eqn:Hr. clear Hr.
  remember (default t0 (last (fst <$> calls))) as t eqn:Ht. clear Ht.
  assert (Forall (λ m, injectedAt m ≤ now) (pendingMessages r)) as Hall'.
  { eapply Forall_impl; [exact Hall|]. simpl. intros; lia. }
  assert (∀ q, q `suffix_of` pendingMessages r →
               ascending t0 q ∧ Forall (λ m, injectedAt m ≤ now) q) as Hkeep.
  { intros q Hq. split; [by eapply ascending_suffix|].
    destruct Hq as [skipped Hq]. rewrite Hq in Hall'.
    by apply Forall_app in Hall' as [_ ?]. }
  destruct call as [callback|channel sender|type text];
    unfold router_step; simpl.
  - by apply Hkeep.
  - set (m := {| channelId := channel; from := sender; injectedAt := now |}).
    assert (ascending t0 (pendingMessages r ++ [m])) as Hasc'.
    { apply ascending_snoc; [done | simpl; lia | done]. }
    split.
    + eapply ascending_suffix; [apply shift_while_stale_suffix | exact Hasc'].
    + destruct (shift_while_stale_suffix (now - CONTEXT_TIMEOUT_MS)
                  (pendingMessages r ++ [m])) as [skipped Hq].
      assert (Forall (λ m, injectedAt m ≤ now) (pendingMessages r ++ [m])) as H.
      { apply Forall_app. split; [done|]. constructor; [simpl; lia | done]. }
      rewrite Hq in H. by apply Forall_app in H as [_ ?].
  - unfold observed.
    destruct (negb (String.eqb type "response") || negb (truthy_string text));
      [by apply Hkeep|].
    destruct (routeResponse_unfold now text r) as (Hq & _ & _).
    cbv zeta in Hq. rewrite Hq.
    apply Hkeep.
    trans (shift_while_stale (now - CONTEXT_TIMEOUT_MS) (pendingMessages r));
      [|apply shift_while_stale_suffix].
    destruct (shift_while_stale _ _); [reflexivity|].
    apply suffix_cons_r. reflexivity.
Qed.

(** While the clock never goes back, a call that prunes (an injection
    tracked, a notification routed) leaves a queue without stale records:
    every record left was injected within the last five minutes, and none
    after the call. *)
Theorem pruned_queue_has_no_stale_record
    (t0 now : Z) (calls : list (Z * RouterCall)) (call : RouterCall) :
  nondecreasing t0 (fst <$> (calls ++ [(now, call)])) = true →
  prunes call = true →
  Forall (λ m, ¬ stale now m ∧ injectedAt m ≤ now)
    (pendingMessages (router_run (calls ++ [(now, call)]) new)).
Proof.
  intros Hclock Hprunes.
  pose proof (router_run_ascending t0 _ Hclock) as [_ Hupper].
  cbv zeta in Hupper. rewrite fmap_app in Hclock, Hupper.
  change (fst <$> [(now, call)]) with [now] in Hclock, Hupper.
  rewrite last_snoc in Hupper. simpl default in Hupper.
  apply nondecreasing_snoc in Hclock as [Hclock Hnow].
  pose proof (nondecreasing_last _ _ Hclock) as Hlo.
  pose proof (router_run_ascending t0 _ Hclock) as [Hasc Hprev].
  cbv zeta in Hprev.
  remember (default t0 (last (fst <$> calls))) as t eqn:Ht. clear Ht.
  rewrite router_run_snoc in *.
  remember (router_run calls new) as r eqn:Hr. clear Hr.
  apply Forall_and. split; [|exact Hupper].
  assert (∀ q, Forall (λ m, now - CONTEXT_TIMEOUT_MS ≤ injectedAt m) q →
               Forall (λ m, ¬ stale now m) q) as Hfresh.
  { intros q Hq. eapply Forall_impl; [exact Hq|].
    unfold stale. simpl. intros; lia. }
  apply Hfresh.
  destruct call as [callback|channel sender|type text];
    unfold router_step; simpl in Hprunes |- *; [done| |].
  - apply (shift_while_stale_ascending _ t0).
    apply ascending_snoc; [done | simpl; lia |].
    eapply Forall_impl; [exact Hprev|]. simpl. intros; lia.
  - apply andb_true_iff in Hprunes as [Htype Htext].
    unfold observed. rewrite Htype, Htext. simpl.
    destruct (routeResponse_unfold now text r) as (Hq & _ & _).
    cbv zeta in Hq. rewrite Hq.
    pose proof (shift_while_stale_ascending (now - CONTEXT_TIMEOUT_MS) t0
                  (pendingMessages r) Hasc) as Hall.
    destruct (shift_while_stale _ _); [done|]. by inversion Hall.
Qed.

(** Two injections a minute apart, and a notification six minutes after
    the first: the second record is the only one left to answer, and
    nothing stale stays behind. *)
Lemma pruned_queue_has_no_stale_record_witness :
  Forall (λ m, ¬ stale 360000 m ∧ injectedAt m ≤ 360000)
    (pendingMessages
       (router_run
          ([ (0, TrackInjection "telegram" "alice");
             (60000, TrackInjection "slack" "bob");
             (120000, TrackInjection "slack" "carol") ]
           ++ [(360000, Observed "response" "hello")]) new)).
Proof.
  apply (pruned_queue_has_no_stale_record 0 360000
           [ (0, TrackInjection "telegram" "alice");
             (60000, TrackInjection "slack" "bob");
             (120000, TrackInjection "slack" "carol") ]
           (Observed "response" "hello")); reflexivity.
Defined.

End RouterTraces.

(** ** Target Control connection: listeners, teardown, reconnects *)

Section CdpLifecycle.

Import CdpBridge.
Variable URL : string → option Url.

Ltac cdp_cases :=
  unfold connect_begin, connect_resume, send, on, off, disconnect, onMessage,
    onClose, onError, scheduleReconnect, rejectAllPending, stopHealthPing,
    startHealthPing, isConnected in *;
  repeat case_match; simplify_eq; simpl in *.









Lemma reject_each_empty `{Countable K} message :
  reject_each (∅ : gmap K Promise) message = [].
Proof. unfold reject_each. by rewrite map_to_list_empty. Qed.




Lemma cdp_step_no_close e s :
  cdp_closes e = false → timeouts (step URL e s) = timeouts s.
Proof. destruct e; simpl; try discriminate; intros _; cdp_cases; done. Qed.

(** Only the close handler schedules a reconnect.  Over a run without a
    close event no delay is handed to [setTimeout]: a [connect] that fails
    (the first one or one made by the reconnect timer: discovery fails, no
    usable target, the socket does not open) schedules no further attempt,
    and neither does a socket error. *)
Theorem only_a_close_schedules_a_reconnect (s : t) (trace : list Event) :
  forallb (λ e, negb (cdp_closes e)) trace = true →
  timeouts (run URL trace s) = timeouts s.
Proof.
  revert s. induction trace as [|e trace IH]; intros s Hno; [done|].
  simpl in Hno. apply andb_true_iff in Hno as [He Hno].
  apply negb_true_iff in He. simpl.
  rewrite (IH _ Hno). by apply cdp_step_no_close.
Qed.

Lemma ping_step e s :
  (pingTimer s = true ↔ ws s ≠ None) →
  (pingTimer (step URL e s) = true ↔ ws (step URL e s) ≠ None).
Proof.
  intros Hinv. destruct e; simpl; cdp_cases; try done;
    try (split; [done | intros ?; by apply Hinv]);
    try (split; [intros ?%Hinv; done | done]).
Qed.

(** The health ping runs exactly while the bridge holds a socket: after any
    history the ping timer is set if and only if [ws] is not [null]; and
    when the timer fires the ping is written only to a socket in the OPEN
    state. *)
Theorem health_ping_runs_while_a_socket_is_held (trace : list Event) :
  let s := run URL trace new in
  (pingTimer s = true ↔ ws s ≠ None)
  ∧ (ws s ≠ Some OPEN → step URL PingTimer s = s)
  ∧ (ws s = Some OPEN →
     sent (step URL PingTimer s) =
       sent s ++ [ {| req_id := nextId s; req_method := "Runtime.evaluate";
                      req_params := JObj (JField "expression" (JStr "1") JNil) |} ]).
Proof.
  intros s.
  assert (pingTimer s = true ↔ ws s ≠ None) as Hinv.
  { subst s. induction trace as [|e trace IH] using rev_ind; [done|].
    rewrite cdp_run_app. simpl. by apply ping_step. }
  split; [exact Hinv|]. split.
  - intros Hws. simpl. unfold isConnected.
    rewrite bool_decide_eq_false_2 by done. by rewrite andb_false_r.
  - intros Hws. simpl. unfold isConnected, send. simpl.
    assert (pingTimer s = true) as -> by (apply Hinv; by rewrite Hws).
    rewrite Hws.
    assert (isConnected (with_allocated (S (allocated s)) s) = true) as ->.
    { unfold isConnected. simpl. by rewrite Hws. }
    done.
Qed.

Lemma cdp_bounded_step e s :
  backoff_bounded (backoffMs s) (timeouts s) →
  backoff_bounded (backoffMs (step URL e s)) (timeouts (step URL e s)).
Proof.
  unfold backoff_bounded, within_backoff_bounds. intros [Hb Ht].
  destruct e; simpl; cdp_cases; try done; unfold next_backoff;
    (split; [lia|]); rewrite ?Forall_app, ?Forall_singleton; try done.
Qed.

End CdpLifecycle.

Section CdpLifecycleInstances.

Import CdpBridge.


(** After a close the reconnect timer fires and the attempt fails at the
    discovery call; a socket error follows: one delay was scheduled, by the
    close, and none since. *)
Lemma only_a_close_schedules_a_reconnect_witness :
  let s := run sample_URL (sample_connect ++ [CloseEvent]) new in
  let s' := run sample_URL
              [ ReconnectTimer;
                ConnectResumed "127.0.0.1" 19222 (FetchFailed "ECONNREFUSED")
                  SocketOpens;
                ErrorEvent "ECONNRESET" ] s in
  timeouts s' = timeouts s ∧ timeouts s = [1000] ∧ ws s' = None.
Proof.
  cbv zeta. split; [|split; reflexivity].
  exact (only_a_close_schedules_a_reconnect sample_URL
           (run sample_URL (sample_connect ++ [CloseEvent]) new)
           [ ReconnectTimer;
             ConnectResumed "127.0.0.1" 19222 (FetchFailed "ECONNREFUSED")
               SocketOpens;
             ErrorEvent "ECONNRESET" ] eq_refl).
Defined.

End CdpLifecycleInstances.

(** ** Gateway connection: events, handshake, teardown *)

Section GatewayLifecycle.

Import GatewayClient.
Variable randomUUID : nat → string.

Ltac gateway_cases :=
  unfold start, stop, request, handleMessage, sendConnect, request, onClose,
    onError, tickWatch, ws_close, flushPendingErrors, scheduleReconnect in *;
  repeat case_match; simplify_eq; simpl in *.

(** The promise reactions leave the handshake flag, the options and the
    frames alone, and invoke no [onEvent]. *)
Lemma react_quiet now log acc h :
  connectSent (react now log acc h) = connectSent acc
  ∧ opts (react now log acc h) = opts acc
  ∧ timeouts (react now log acc h) = timeouts acc
  ∧ ∃ extra, callbacks (react now log acc h) = callbacks acc ++ extra
             ∧ onEvent_calls extra = [].
Proof.
  unfold react, helloReceived, connectFailed, ws_close, startTickWatch.
  repeat case_match; simpl;
    (split; [done|]); (split; [done|]); (split; [done|]);
    first [ by exists []; rewrite app_nil_r | by eexists [_] ].
Qed.

Lemma react_fold_quiet now log ready : ∀ acc,
  connectSent (foldl (react now log) acc ready) = connectSent acc
  ∧ opts (foldl (react now log) acc ready) = opts acc
  ∧ timeouts (foldl (react now log) acc ready) = timeouts acc
  ∧ ∃ extra, callbacks (foldl (react now log) acc ready) = callbacks acc ++ extra
             ∧ onEvent_calls extra = [].
Proof.
  induction ready as [|h ready IH]; intros acc; simpl.
  - do 3 (split; [done|]). exists []. by rewrite app_nil_r.
  - destruct (IH (react now log acc h)) as (-> & -> & -> & extra & -> & Hex).
    destruct (react_quiet now log acc h) as (-> & -> & -> & extra' & -> & Hex').
    do 3 (split; [done|]). exists (extra' ++ extra).
    rewrite app_assoc. split; [done|].
    unfold onEvent_calls in *. by rewrite omap_app, Hex, Hex'.
Qed.

Lemma microtasks_quiet now s :
  connectSent (microtasks now s) = connectSent s
  ∧ opts (microtasks now s) = opts s
  ∧ timeouts (microtasks now s) = timeouts s
  ∧ ∃ extra, callbacks (microtasks now s) = callbacks s ++ extra
             ∧ onEvent_calls extra = [].
Proof.
  unfold microtasks.
  destruct (react_fold_quiet now (settles s)
              (List.filter (settled (settles s)) (awaiting s))
              (with_awaiting
                 (List.filter (λ h, negb (settled (settles s) h)) (awaiting s)) s))
    as (-> & -> & -> & extra & -> & Hex).
  do 3 (split; [done|]). by exists extra.
Qed.

Lemma handle_callbacks now e s :
  ∃ extra, callbacks (handle randomUUID now e s) = callbacks s ++ extra
           ∧ onEvent_calls extra = option_list (forwarded (now, e)).
Proof.
  destruct e as [| |method params| |raw|code reason|message| | |rs];
    unfold forwarded; simpl;
    try (exists []; rewrite app_nil_r; split; [|done]; gateway_cases; done).
  - destruct raw as [|[evt|id ok body error|]]; simpl;
      try (exists []; rewrite app_nil_r; split; [|done]; gateway_cases; done).
    destruct (String.eqb (event evt) "connect.challenge"); simpl.
    + exists []. rewrite app_nil_r. split; [|done].
      unfold sendConnect, request. repeat case_match; simplify_eq; done.
    + eexists [_].
      split; [by destruct (String.eqb (event evt) "tick") | done].
  - exists [OnClose code reason]. split; [|done].
    unfold onClose, scheduleReconnect, flushPendingErrors. simpl.
    by destruct (closed s).
  - unfold onError. destruct (connectSent s);
      [exists []; by rewrite app_nil_r | by exists [OnConnectError message]].
Qed.

Lemma step_callbacks ne s :
  ∃ extra, callbacks (step randomUUID ne s) = callbacks s ++ extra
           ∧ onEvent_calls extra = option_list (forwarded ne).
Proof.
  destruct ne as [now e]. unfold step. cbn [fst snd].
  destruct (handle_callbacks now e s) as (extra & Hc & Hev).
  destruct (microtasks_quiet now (handle randomUUID now e s))
    as (_ & _ & _ & extra' & Hc' & Hev').
  exists (extra ++ extra'). rewrite Hc', Hc, app_assoc. split; [done|].
  unfold onEvent_calls in *. by rewrite omap_app, Hev, Hev', app_nil_r.
Qed.

(** Every event frame other than the challenge is handed to [onEvent], in
    arrival order, whatever the state of the connection and of the
    handshake (also after [stop]); the challenge never is, and nothing else
    ever is. *)
Theorem events_are_forwarded_in_order
    (trace : list (Z * Event)) (s : t) :
  onEvent_calls (callbacks (run randomUUID trace s)) =
    onEvent_calls (callbacks s) ++ omap forwarded trace.
Proof.
  revert s. induction trace as [|ne trace IH]; intros s; simpl.
  - by rewrite app_nil_r.
  - rewrite IH. destruct (step_callbacks ne s) as (extra & -> & Hev).
    unfold onEvent_calls in *. rewrite omap_app, Hev, <- app_assoc.
    by destruct (forwarded ne).
Qed.

Lemma connect_params_opts s o :
  opts s = o → connect_params s = connect_params (new o).
Proof. intros <-. done. Qed.

Lemma handle_opts now e s : opts (handle randomUUID now e s) = opts s.
Proof. destruct e; simpl; gateway_cases; done. Qed.

(** What a handler other than a [request] does to the handshake: nothing;
    or the flag goes up, and a connect request is written if the socket is
    open; or a reconnect is scheduled and the flag comes down. *)
Lemma handle_handshake now e s :
  gateway_requests e = false →
  let s' := handle randomUUID now e s in
  (sent s' = sent s ∧ connectSent s' = connectSent s
   ∧ timeouts s' = timeouts s)
  ∨ (connectSent s = false ∧ connectSent s' = true ∧ timeouts s' = timeouts s
     ∧ (sent s' = sent s
        ∨ sent s' = sent s ++ [ {| req_id := randomUUID (drawn s);
                                  req_method := "connect";
                                  req_params := connect_params s |} ]))
  ∨ (connectSent s' = false ∧ sent s' = sent s
     ∧ timeouts s' = timeouts s ++ [backoffMs s]).
Proof.
  intros Hreq s'. subst s'.
  destruct e as [| |method params| |raw|code reason|message| | |rs];
    simpl in Hreq |- *; try discriminate;
    try (left; gateway_cases; done).
  - destruct raw as [|[evt|id ok body error|]]; simpl;
      try (left; gateway_cases; done).
    destruct (String.eqb (event evt) "connect.challenge"); simpl;
      [|left; by destruct (String.eqb (event evt) "tick")].
    destruct (challenge_nonce (payload evt)) as [nonce|]; [|by left].
    unfold sendConnect. cbn [connectSent with_connectNonce].
    destruct (connectSent s) eqn:Hsent; [by left|].
    right; left. unfold request.
    cbn [ws with_connectSent with_allocated with_connectNonce].
    destruct (bool_decide (ws s = Some OPEN)); simpl.
    + do 3 (split; [done|]). by right.
    + do 3 (split; [done|]). by left.
  - unfold onClose, scheduleReconnect, flushPendingErrors. simpl.
    destruct (closed s); simpl; [by left | right; right; done].
Qed.

Lemma handshake_step o ne s :
  gateway_requests ne.2 = false →
  opts s = o →
  (length (sent s) + (if connectSent s then 0 else 1)
   ≤ 1 + length (timeouts s))%nat →
  Forall (is_connect_request o) (sent s) →
  let s' := step randomUUID ne s in
  opts s' = o
  ∧ (length (sent s') + (if connectSent s' then 0 else 1)
     ≤ 1 + length (timeouts s'))%nat
  ∧ Forall (is_connect_request o) (sent s').
Proof.
  intros Hreq Hopts Hcount Hall s'. subst s'.
  destruct ne as [now e]. unfold step. cbn [fst snd] in *.
  destruct (microtasks_quiet now (handle randomUUID now e s))
    as (-> & -> & -> & _).
  destruct (microtasks_core now (handle randomUUID now e s))
    as (_ & _ & _ & -> & _).
  rewrite handle_opts. split; [done|].
  destruct (handle_handshake now e s Hreq)
    as [(-> & -> & ->)|[(Hdown & -> & -> & [->| ->])|(-> & -> & ->)]].
  - done.
  - rewrite Hdown in Hcount. split; [lia | done].
  - rewrite Hdown in Hcount. rewrite length_app. simpl. split; [lia|].
    apply Forall_app. split; [done|]. constructor; [|done].
    split; [done|]. simpl. by apply connect_params_opts.
  - rewrite length_app. simpl. split; [|done].
    destruct (connectSent s); lia.
Qed.

(** Left to itself (no [request] made by the host) the client writes
    nothing but handshake requests, and at most one per connection: the
    first connection may carry one, and each further one needs a reconnect
    scheduled by a close.  However many challenges arrive on a connection,
    the connect request goes out once. *)
Theorem one_connect_request_per_connection
    (o : Options) (trace : list (Z * Event)) :
  forallb (λ ne : Z * Event, negb (gateway_requests ne.2)) trace = true →
  let s := run randomUUID trace (new o) in
  (length (sent s) ≤ 1 + length (timeouts s))%nat
  ∧ Forall (is_connect_request o) (sent s)
  ∧ (connectSent s = true →
     ∀ now nonce number,
       sent (step randomUUID
               (now, MessageEvent
                       (Parsed (Evt {| event := "connect.challenge";
                                       payload :=
                                         JObj (JField "nonce" (JStr nonce) JNil);
                                       seq := number |}))) s)
       = sent s).
Proof.
  intros Hno s.
  assert (opts s = o
          ∧ (length (sent s) + (if connectSent s then 0 else 1)
             ≤ 1 + length (timeouts s))%nat
          ∧ Forall (is_connect_request o) (sent s)) as (Hopts & Hcount & Hall).
  { subst s. induction trace as [|ne trace IH] using rev_ind.
    - simpl. split; [done|]. split; [lia | constructor].
    - rewrite forallb_app in Hno. apply andb_true_iff in Hno as [Hno Hne].
      simpl in Hne. rewrite andb_true_r in Hne. apply negb_true_iff in Hne.
      destruct (IH Hno) as (H1 & H2 & H3).
      rewrite gateway_run_app. by apply handshake_step. }
  split; [destruct (connectSent s); lia|]. split; [done|].
  intros Hsent now nonce number. unfold step. cbn [fst snd].
  destruct (microtasks_core now
              (handle randomUUID now
                 (MessageEvent
                    (Parsed (Evt {| event := "connect.challenge";
                                    payload :=
                                      JObj (JField "nonce" (JStr nonce) JNil);
                                    seq := number |}))) s))
    as (_ & _ & _ & -> & _).
  simpl. unfold challenge_nonce. simpl.
  destruct (truthy_string nonce); [|done].
  unfold sendConnect. simpl. by rewrite Hsent.
Qed.

(** A log extended by rejections resolves nothing it had not resolved. *)
Lemma resolved_app_rejected log h h' message :
  resolved log h = false →
  resolved (log ++ [(h', Rejected message)]) h = false.
Proof.
  unfold resolved, promise_state. rewrite calls_on_app, calls_on_one.
  destruct (calls_on h log) as [|st l]; [|done].
  simpl. by destruct (decide (h' = h)).
Qed.

Lemma unsettled_unresolved log h : calls_on h log = [] → resolved log h = false.
Proof. unfold resolved, promise_state. by intros ->. Qed.

(** A reaction to a promise that is not resolved, on a client without a
    socket, invokes a callback at most. *)
Lemma react_unresolved now log acc h :
  resolved log h = false → ws acc = None →
  closed (react now log acc h) = closed acc
  ∧ ws (react now log acc h) = None
  ∧ pending (react now log acc h) = pending acc
  ∧ tickTimer (react now log acc h) = tickTimer acc
  ∧ sent (react now log acc h) = sent acc
  ∧ timeouts (react now log acc h) = timeouts acc
  ∧ closeCalls (react now log acc h) = closeCalls acc.
Proof.
  unfold resolved, react. intros Hres Hws.
  destruct (promise_state h log) as [[value|message]|]; [done| |done].
  unfold connectFailed, ws_close. simpl. by rewrite Hws.
Qed.

Lemma react_fold_unresolved now log ready : ∀ acc,
  Forall (λ h, resolved log h = false) ready → ws acc = None →
  closed (foldl (react now log) acc ready) = closed acc
  ∧ ws (foldl (react now log) acc ready) = None
  ∧ pending (foldl (react now log) acc ready) = pending acc
  ∧ tickTimer (foldl (react now log) acc ready) = tickTimer acc
  ∧ sent (foldl (react now log) acc ready) = sent acc
  ∧ timeouts (foldl (react now log) acc ready) = timeouts acc
  ∧ closeCalls (foldl (react now log) acc ready) = closeCalls acc.
Proof.
  induction ready as [|h ready IH]; intros acc Hall Hws; simpl; [done|].
  inversion Hall as [|? ? Hh Hrest]; subst.
  destruct (react_unresolved now log acc h Hh Hws)
    as (Hc & Hw & Hp & Ht & Hs & Hti & Hcl).
  destruct (IH (react now log acc h) Hrest Hw)
    as (-> & -> & -> & -> & -> & -> & ->).
  done.
Qed.

Lemma microtasks_unresolved now s :
  Forall (λ h, resolved (settles s) h = false) (awaiting s) → ws s = None →
  closed (microtasks now s) = closed s
  ∧ ws (microtasks now s) = None
  ∧ pending (microtasks now s) = pending s
  ∧ tickTimer (microtasks now s) = tickTimer s
  ∧ sent (microtasks now s) = sent s
  ∧ timeouts (microtasks now s) = timeouts s
  ∧ closeCalls (microtasks now s) = closeCalls s.
Proof.
  intros Hall Hws. unfold microtasks.
  apply (react_fold_unresolved now (settles s)
           (List.filter (settled (settles s)) (awaiting s))
           (with_awaiting
              (List.filter (λ h, negb (settled (settles s) h)) (awaiting s)) s));
    [|done].
  apply Forall_forall. intros h Hh.
  apply filter_elem_of in Hh as [Hh _].
  by apply (proj1 (Forall_forall _ _) Hall).
Qed.

(** What the handler of an event does on a client that was stopped. *)
Lemma stopped_handle now e s :
  stopped s →
  let s' := handle randomUUID now e s in
  stopped s'
  ∧ sent s' = sent s ∧ timeouts s' = timeouts s ∧ closeCalls s' = closeCalls s
  ∧ (settles s' = settles s
     ∨ settles s' = settles s ++ [(allocated s, Rejected "gateway not connected")])
  ∧ (awaiting s' = awaiting s ∨ awaiting s' = awaiting s ++ [allocated s]).
Proof.
  intros (Hclosed & Hws & Hpending & Htick) s'. subst s'. unfold stopped.
  destruct e as [| |method params| |raw|code reason|message| | |rs]; simpl.
  - unfold start. rewrite Hclosed. repeat split; auto.
  - unfold stop, flushPendingErrors, ws_close. simpl. rewrite Hws. simpl.
    rewrite Hpending, reject_each_empty, app_nil_r. repeat split; auto.
  - unfold request. simpl. rewrite Hws. simpl. repeat split; auto.
  - rewrite Hws. repeat split; auto.
  - destruct raw as [|[evt|id ok body error|]]; simpl.
    + repeat split; auto.
    + destruct (String.eqb (event evt) "connect.challenge").
      * destruct (challenge_nonce (payload evt)); [|repeat split; auto].
        unfold sendConnect. simpl.
        destruct (connectSent s); simpl; [repeat split; auto|].
        unfold request. simpl. rewrite Hws. simpl. repeat split; auto.
      * destruct (String.eqb (event evt) "tick"); simpl; repeat split; auto.
    + rewrite Hpending, lookup_empty. repeat split; auto.
    + repeat split; auto.
  - unfold onClose, scheduleReconnect, flushPendingErrors. simpl.
    rewrite Hclosed. simpl.
    rewrite Hpending, reject_each_empty, app_nil_r. repeat split; auto.
  - unfold onError. destruct (connectSent s); simpl; repeat split; auto.
  - unfold start. rewrite Hclosed. repeat split; auto.
  - rewrite Htick. repeat split; auto.
  - rewrite Hws. repeat split; auto.
Qed.

Lemma resolved_app_reject_each log h (m : gmap string Promise) message :
  resolved log h = false →
  resolved (log ++ reject_each m message) h = false.
Proof.
  unfold resolved, promise_state.
  rewrite calls_on_app, calls_on_reject_each.
  destruct (calls_on h log) as [|st l]; [|done].
  simpl. by destruct (length _).
Qed.

Lemma stop_stopped s : stopped (stop s).
Proof.
  unfold stopped, stop, flushPendingErrors, ws_close. simpl.
  destruct (ws s); done.
Qed.

Lemma stop_twice s : stop (stop s) = stop s.
Proof.
  destruct s as [w o p b c n cs lt ti tt d a st aw se tm cc cb].
  unfold stop, flushPendingErrors, ws_close.
  destruct w;
    cbv [ws opts pending backoffMs closed connectNonce connectSent lastTick
         tickIntervalMs tickTimer drawn allocated settles awaiting sent
         timeouts closeCalls callbacks with_ws with_pending with_closed
         with_tickTimer with_settles with_closeCalls];
    by rewrite reject_each_empty, app_nil_r.
Qed.

(** A handshake that the far end refuses: the reply to the connect request
    says [ok: false].  The handler rejects the connect promise and the
    [catch] of [sendConnect] runs in the same turn: [onConnectError] gets
    the message of the reply ("unknown error" when it has none) and the
    socket is closed with code 1008; no watchdog is started, the backoff is
    not reset and the last-tick timestamp is not touched. *)
Theorem refused_handshake_closes_the_socket
    (now : Z) (id : string) (h : Promise) (body : JsValue)
    (error : option ErrorObject) (s : t) :
  pending s !! id = Some h →
  awaiting s = [h] →
  calls_on h (settles s) = [] →
  let text := default "unknown error" (error ≫= message) in
  let s' := step randomUUID
              (now, MessageEvent (Parsed (Res id false body error))) s in
  callbacks s' = callbacks s ++ [OnConnectError text]
  ∧ closeCalls s' =
      closeCalls s ++
        match ws s with
        | Some _ => [ {| code := Some 1008; reason := "connect failed" |} ]
        | None => []
        end
  ∧ settles s' = settles s ++ [(h, Rejected text)]
  ∧ awaiting s' = [] ∧ pending s' = delete id (pending s)
  ∧ tickTimer s' = tickTimer s ∧ backoffMs s' = backoffMs s
  ∧ lastTick s' = lastTick s ∧ connectSent s' = connectSent s.
Proof.
  intros Hheld Hawait Hnone text s'. subst s'.
  unfold step, microtasks. cbn [fst snd handle handleMessage].
  rewrite Hheld. cbn [settles awaiting with_settles with_pending].
  rewrite Hawait. fold text.
  assert (promise_state h (settles s ++ [(h, Rejected text)])
          = Some (Rejected text)) as Hstate.
  { unfold promise_state. rewrite calls_on_app, Hnone, calls_on_one.
    by rewrite decide_True. }
  cbn [List.filter]. unfold settled. rewrite Hstate. cbn [negb foldl].
  unfold react. rewrite Hstate.
  unfold connectFailed, ws_close. simpl.
  destruct (ws s); simpl; by rewrite ?app_nil_r.
Qed.

(** Identifiers drawn from [randomUUID] never repeat. *)
Hypothesis unique : ∀ n m, randomUUID n = randomUUID m → n = m.

Lemma stopped_step ne s :
  gateway_inv randomUUID s → stopped s →
  stopped (step randomUUID ne s)
  ∧ sent (step randomUUID ne s) = sent s
  ∧ timeouts (step randomUUID ne s) = timeouts s
  ∧ closeCalls (step randomUUID ne s) = closeCalls s.
Proof.
  intros Hinv Hstopped. destruct ne as [now e]. unfold step. cbn [fst snd].
  destruct (stopped_handle now e s Hstopped)
    as ((Hclosed & Hws & Hpending & Htick) & Hs & Ht & Hc & Hsettles & Haw).
  destruct (microtasks_unresolved now (handle randomUUID now e s))
    as (Hclosed' & Hws' & Hpending' & Htick' & Hs' & Ht' & Hc'); [|done|].
  - assert (∀ h, h ∈ awaiting s ∨ h = allocated s →
                 resolved (settles s) h = false) as Hold.
    { intros h [Hh| ->]; apply unsettled_unresolved.
      - by apply (gateway_inv_awaiting _ _ Hinv).
      - by apply (inv_future _ (gateway_inv_core _ _ Hinv)). }
    apply Forall_forall. intros h Hh.
    assert (h ∈ awaiting s ∨ h = allocated s) as Hcase.
    { destruct Haw as [Haw|Haw]; rewrite Haw in Hh; [by left|].
      apply elem_of_app in Hh as [Hh|Hh]; [by left|].
      apply list_elem_of_singleton in Hh. by right. }
    destruct Hsettles as [-> | ->]; [by apply Hold|].
    by apply resolved_app_rejected, Hold.
  - unfold stopped. rewrite Hclosed', Hws', Hpending', Htick', Hs', Ht', Hc'.
    done.
Qed.

Lemma stopped_run trace : ∀ s,
  gateway_inv randomUUID s → stopped s →
  stopped (run randomUUID trace s)
  ∧ sent (run randomUUID trace s) = sent s
  ∧ timeouts (run randomUUID trace s) = timeouts s
  ∧ closeCalls (run randomUUID trace s) = closeCalls s.
Proof.
  induction trace as [|ne trace IH]; intros s Hinv Hstopped; [done|].
  destruct (stopped_step ne s Hinv Hstopped) as (Hstopped' & Hs & Ht & Hc).
  destruct (IH (step randomUUID ne s)
              (gateway_inv_step randomUUID unique ne s Hinv) Hstopped')
    as (? & Hs' & Ht' & Hc').
  simpl. rewrite Hs', Ht', Hc'. done.
Qed.

(** [stop] is idempotent and final.  Once a client was stopped, whatever
    follows (socket events of the old connection, timers, challenges,
    replies, requests, further [start] and [stop] calls) it holds no socket
    and no pending call, runs no watchdog, schedules no reconnect, writes no
    frame and closes nothing; the only [ws.close] of the teardown is the one
    [stop] makes on the socket it held. *)
Theorem stop_is_final
    (o : Options) (trace0 trace : list (Z * Event)) (now : Z) :
  let s := run randomUUID trace0 (new o) in
  let s' := run randomUUID trace (step randomUUID (now, Stop) s) in
  stop (stop s) = stop s
  ∧ closed s' = true ∧ ws s' = None ∧ pending s' = ∅ ∧ tickTimer s' = None
  ∧ isConnected s' = false
  ∧ sent s' = sent s ∧ timeouts s' = timeouts s
  ∧ closeCalls s' =
      closeCalls s ++
        match ws s with
        | Some _ => [ {| code := None; reason := "" |} ]
        | None => []
        end
  ∧ (∀ method params,
       settles (request randomUUID method params s').1 =
         settles s' ++
           [((request randomUUID method params s').2,
             Rejected "gateway not connected")]).
Proof.
  intros s s'.
  assert (gateway_inv randomUUID s) as Hinv.
  { apply gateway_inv_run, gateway_inv_new; exact unique. }
  pose proof (gateway_inv_step randomUUID unique (now, Stop) s Hinv) as Hinv'.
  assert (stopped (step randomUUID (now, Stop) s)
          ∧ sent (step randomUUID (now, Stop) s) = sent s
          ∧ timeouts (step randomUUID (now, Stop) s) = timeouts s
          ∧ closeCalls (step randomUUID (now, Stop) s) = closeCalls (stop s))
    as (Hstopped & Hs & Ht & Hc).
  { unfold step. cbn [fst snd handle].
    destruct (stop_stopped s) as (Hclosed & Hws & Hpending & Htick).
    destruct (microtasks_unresolved now (stop s))
      as (Hclosed' & Hws' & Hpending' & Htick' & Hs' & Ht' & Hc'); [|done|].
    - apply Forall_forall. intros h Hh.
      assert (awaiting (stop s) = awaiting s) as Haw.
      { unfold stop, flushPendingErrors, ws_close. simpl.
        by destruct (ws s). }
      assert (settles (stop s) =
                settles s ++ reject_each (pending s) "gateway client stopped")
        as ->.
      { unfold stop, flushPendingErrors, ws_close. simpl.
        by destruct (ws s). }
      apply resolved_app_reject_each, unsettled_unresolved.
      apply (gateway_inv_awaiting _ _ Hinv). by rewrite <- Haw.
    - unfold stopped. rewrite Hclosed', Hws', Hpending', Htick', Hs', Ht', Hc'.
      repeat split; try done;
        unfold stop, flushPendingErrors, ws_close; simpl; by destruct (ws s). }
  destruct (stopped_run trace _ Hinv' Hstopped)
    as ((Hclosed & Hws & Hpending & Htick) & Hs' & Ht' & Hc').
  fold s' in Hclosed, Hws, Hpending, Htick, Hs', Ht', Hc'.
  split; [apply stop_twice|].
  do 4 (split; [done|]).
  split; [unfold isConnected; by rewrite Hws|].
  split; [by rewrite Hs'|]. split; [by rewrite Ht'|].
  split.
  { rewrite Hc', Hc. unfold stop, flushPendingErrors, ws_close. simpl.
    destruct (ws s); simpl; by rewrite ?app_nil_r. }
  intros method params. unfold request. simpl. by rewrite Hws.
Qed.

End GatewayLifecycle.

Section GatewayLifecycleInstances.

Import GatewayClient.

(** A connection is opened, two challenges arrive, the socket closes, and
    on the next connection two more challenges arrive: two connect requests
    went out, one per connection. *)
Lemma one_connect_request_per_connection_witness :
  let s := run sample_uuid
             [ (0, Start); (1, OpenEvent); (2, challenge "a");
               (3, challenge "b"); (4, CloseEvent 1006 "");
               (1004, ReconnectTimer); (1005, OpenEvent);
               (1006, challenge "c"); (1007, challenge "d") ]
             (new sample_options) in
  (length (sent s) ≤ 1 + length (timeouts s))%nat
  ∧ Forall (is_connect_request sample_options) (sent s).
Proof.
  destruct (one_connect_request_per_connection sample_uuid sample_options
              [ (0, Start); (1, OpenEvent); (2, challenge "a");
                (3, challenge "b"); (4, CloseEvent 1006 "");
                (1004, ReconnectTimer); (1005, OpenEvent);
                (1006, challenge "c"); (1007, challenge "d") ] eq_refl)
    as (Hcount & Hall & _).
  exact (conj Hcount Hall).
Defined.

(** The connect request of a new connection is refused with a message. *)
Lemma refused_handshake_closes_the_socket_witness :
  let s := run sample_uuid
             [ (0, Start); (1, OpenEvent); (2, challenge "abc") ]
             (new sample_options) in
  let s' := step sample_uuid
              (3, MessageEvent
                    (Parsed (Res (sample_uuid 0) false JUndefined
                               (Some {| message := Some "bad token" |})))) s in
  callbacks s' = callbacks s ++ [OnConnectError "bad token"].
Proof.
  cbv zeta.
  pose (s2 := run sample_uuid [ (0, Start); (1, OpenEvent) ]
                (new sample_options)).
  destruct (challenge_step sample_uuid 2 "abc" None s2
              eq_refl eq_refl ltac:(discriminate) eq_refl eq_refl)
    as (Hheld & Hawait & Hsettles & _).
  change (run sample_uuid
            [ (0, Start); (1, OpenEvent); (2, challenge "abc") ]
            (new sample_options))
    with (step sample_uuid (2, challenge "abc") s2).
  exact (proj1 (refused_handshake_closes_the_socket sample_uuid 3
                  (sample_uuid 0) 0%nat JUndefined
                  (Some {| message := Some "bad token" |})
                  (step sample_uuid (2, challenge "abc") s2)
                  Hheld Hawait (f_equal (calls_on 0%nat) Hsettles))).
Defined.

(** A client is stopped in the middle of its handshake; the close event of
    its socket, a reconnect timer, a challenge and a request follow. *)
Lemma stop_is_final_witness :
  let s := run sample_uuid
             [ (0, Start); (1, OpenEvent); (2, challenge "abc") ]
             (new sample_options) in
  let s' := run sample_uuid
              [ (4, CloseEvent 1000 ""); (5, ReconnectTimer);
                (6, challenge "xyz"); (7, RequestCall "send" JNull) ]
              (step sample_uuid (3, Stop) s) in
  ws s' = None ∧ sent s' = sent s ∧ timeouts s' = timeouts s.
Proof.
  cbv zeta.
  destruct (stop_is_final sample_uuid sample_uuid_unique sample_options
              [ (0, Start); (1, OpenEvent); (2, challenge "abc") ]
              [ (4, CloseEvent 1000 ""); (5, ReconnectTimer);
                (6, challenge "xyz"); (7, RequestCall "send" JNull) ] 3)
    as (_ & _ & Hws & _ & _ & _ & Hs & Ht & _).
  exact (conj Hws (conj Hs Ht)).
Defined.

End GatewayLifecycleInstances.

(** ** Both connections: reconnect delays and futures *)

Section BothConnections.

Variable URL : string → option CdpBridge.Url.
Variable randomUUID : nat → string.

Lemma backoff_bounded_step b ts b' ts' :
  backoff_bounded b ts → backoff_step b ts b' ts' → backoff_bounded b' ts'.
Proof.
  unfold backoff_bounded, within_backoff_bounds, backoff_step, next_backoff.
  intros [Hb Ht] [[-> ->]|[-> ->]]; [done|].
  split; [lia|]. apply Forall_app. split; [done|]. by constructor.
Qed.

Lemma gateway_bounded_step ne s :
  backoff_bounded (GatewayClient.backoffMs s) (GatewayClient.timeouts s) →
  backoff_bounded (GatewayClient.backoffMs (GatewayClient.step randomUUID ne s))
    (GatewayClient.timeouts (GatewayClient.step randomUUID ne s)).
Proof.
  intros Hb. unfold GatewayClient.step.
  pose proof (backoff_bounded_step _ _ _ _ Hb
                (gateway_handle_backoff randomUUID ne.1 ne.2 s)) as [Hb' Ht'].
  destruct (microtasks_backoff ne.1 (GatewayClient.handle randomUUID ne.1 ne.2 s))
    as (-> & Hsame & Hreset).
  split; [|done].
  destruct (existsb _ _); [rewrite Hreset by done | rewrite Hsame by done].
  - unfold within_backoff_bounds. lia.
  - done.
Qed.

(** On both connections the backoff and every delay ever handed to
    [setTimeout] for a reconnect lie between one second and thirty seconds,
    whatever the history. *)
Theorem reconnect_delays_stay_within_bounds :
  (∀ trace : list CdpBridge.Event,
     let s := CdpBridge.run URL trace CdpBridge.new in
     within_backoff_bounds (CdpBridge.backoffMs s)
     ∧ Forall within_backoff_bounds (CdpBridge.timeouts s))
  ∧ (∀ (o : GatewayClient.Options) (trace : list (Z * GatewayClient.Event)),
       let s := GatewayClient.run randomUUID trace (GatewayClient.new o) in
       within_backoff_bounds (GatewayClient.backoffMs s)
       ∧ Forall within_backoff_bounds (GatewayClient.timeouts s)).
Proof.
  split.
  - intros trace s. subst s.
    induction trace as [|e trace IH] using rev_ind.
    + split; [unfold within_backoff_bounds; simpl; lia | constructor].
    + rewrite cdp_run_app. simpl. by apply cdp_bounded_step.
  - intros o trace s. subst s.
    induction trace as [|ne trace IH] using rev_ind.
    + split; [unfold within_backoff_bounds; simpl; lia | constructor].
    + rewrite gateway_run_app. simpl. by apply gateway_bounded_step.
Qed.

(** What the bookkeeping invariant says of one promise. *)
Lemma core_futures `{Countable K} (c : Core K) (h : Promise) :
  core_inv c →
  (length (calls_on h (c_settles c)) ≤ 1)%nat
  ∧ ((h < c_allocated c)%nat →
     ((∃ k, c_pending c !! k = Some h) ∧ calls_on h (c_settles c) = [])
     ∨ ((∀ k, c_pending c !! k ≠ Some h)
        ∧ length (calls_on h (c_settles c)) = 1%nat))
  ∧ ((c_allocated c ≤ h)%nat →
     calls_on h (c_settles c) = [] ∧ ∀ k, c_pending c !! k ≠ Some h).
Proof.
  intros [Hpending Hinj Htracked Honce Hfuture].
  split; [apply Honce|]. split.
  - intros Hlt. destruct (calls_on h (c_settles c)) as [|st l] eqn:Hcalls.
    + left. split; [|done]. apply Htracked. by split.
    + right. split.
      * intros k Hk. destruct (Hpending k h Hk) as [_ Hnone]. congruence.
      * pose proof (Honce h) as Hle. rewrite Hcalls in Hle. simpl in *. lia.
  - intros Hge. split; [by apply Hfuture|].
    intros k Hk. destruct (Hpending k h Hk) as [Hlt _]. lia.
Qed.

(** Futures are single-shot and none is lost.  After any history of either
    connection, every promise handed out by [send] or [request] is in
    exactly one of two states: held in the pending map with no settle call
    made on it, or absent from the map with exactly one settle call made on
    it; no promise ever gets a second call.  For the Gateway connection,
    identifiers are never drawn twice from [randomUUID]. *)
Theorem futures_are_pending_or_settled_once
    (unique : ∀ n m, randomUUID n = randomUUID m → n = m) :
  (∀ (trace : list CdpBridge.Event) (h : Promise),
     let s := CdpBridge.run URL trace CdpBridge.new in
     (length (calls_on h (CdpBridge.settles s)) ≤ 1)%nat
     ∧ ((h < CdpBridge.allocated s)%nat →
        ((∃ k, CdpBridge.pending s !! k = Some h)
         ∧ calls_on h (CdpBridge.settles s) = [])
        ∨ ((∀ k, CdpBridge.pending s !! k ≠ Some h)
           ∧ length (calls_on h (CdpBridge.settles s)) = 1%nat))
     ∧ ((CdpBridge.allocated s ≤ h)%nat →
        calls_on h (CdpBridge.settles s) = []
        ∧ ∀ k, CdpBridge.pending s !! k ≠ Some h))
  ∧ (∀ (o : GatewayClient.Options) (trace : list (Z * GatewayClient.Event))
       (h : Promise),
       let s := GatewayClient.run randomUUID trace (GatewayClient.new o) in
       (length (calls_on h (GatewayClient.settles s)) ≤ 1)%nat
       ∧ ((h < GatewayClient.allocated s)%nat →
          ((∃ k, GatewayClient.pending s !! k = Some h)
           ∧ calls_on h (GatewayClient.settles s) = [])
          ∨ ((∀ k, GatewayClient.pending s !! k ≠ Some h)
             ∧ length (calls_on h (GatewayClient.settles s)) = 1%nat))
       ∧ ((GatewayClient.allocated s ≤ h)%nat →
          calls_on h (GatewayClient.settles s) = []
          ∧ ∀ k, GatewayClient.pending s !! k ≠ Some h)).
Proof.
  split.
  - intros trace h s.
    apply (core_futures (cdp_core s) h).
    apply cdp_inv_core, cdp_inv_run, cdp_inv_new.
  - intros o trace h s.
    apply (core_futures (gateway_core s) h).
    apply (gateway_inv_core randomUUID), gateway_inv_run, gateway_inv_new;
      exact unique.
Qed.

End BothConnections.

(** Two calls on a bridge, the second answered: the first future is held
    and has no settle call, no future has more than one. *)
Lemma futures_are_pending_or_settled_once_witness :
  let s := CdpBridge.run sample_URL
             (sample_connect ++
                [ CdpBridge.Send "Runtime.enable" JUndefined;
                  CdpBridge.Send "Runtime.evaluate" JUndefined;
                  cdp_result 2 (JStr "second") ]) CdpBridge.new in
  (length (calls_on 0%nat (CdpBridge.settles s)) ≤ 1)%nat
  ∧ (length (calls_on 1%nat (CdpBridge.settles s)) ≤ 1)%nat.
Proof.
  cbv zeta. split.
  - exact (proj1 (proj1 (futures_are_pending_or_settled_once sample_URL
                           sample_uuid sample_uuid_unique)
                    (sample_connect ++
                       [ CdpBridge.Send "Runtime.enable" JUndefined;
                         CdpBridge.Send "Runtime.evaluate" JUndefined;
                         cdp_result 2 (JStr "second") ]) 0%nat)).
  - exact (proj1 (proj1 (futures_are_pending_or_settled_once sample_URL
                           sample_uuid sample_uuid_unique)
                    (sample_connect ++
                       [ CdpBridge.Send "Runtime.enable" JUndefined;
                         CdpBridge.Send "Runtime.evaluate" JUndefined;
                         cdp_result 2 (JStr "second") ]) 1%nat)).
Defined.

(** ** The process: client, event buffer and tools *)

Section Process.

Import GatewayClient.
Variable randomUUID : nat → string.

Lemma main_run_snoc trace ne m :
  Main.run randomUUID (trace ++ [ne]) m =
    Main.step randomUUID ne (Main.run randomUUID trace m).
Proof. unfold Main.run. by rewrite foldl_app. Qed.

Lemma push_all_app events1 events2 b :
  EventBuffer.push_all (events1 ++ events2) b =
    EventBuffer.push_all events2 (EventBuffer.push_all events1 b).
Proof. unfold EventBuffer.push_all. by rewrite foldl_app. Qed.

Lemma main_step_events ne m :
  Main.events (Main.step randomUUID ne m) =
    EventBuffer.push_all (arrivals [ne]) (Main.events m).
Proof.
  unfold Main.step, arrivals. cbn [Main.events].
  destruct (step_callbacks randomUUID ne (Main.gw m)) as (extra & -> & Hev).
  rewrite drop_app_length, Hev. simpl.
  by destruct (forwarded ne).
Qed.

Lemma main_run_events trace : ∀ m,
  Main.gw (Main.run randomUUID trace m) = run randomUUID trace (Main.gw m)
  ∧ Main.events (Main.run randomUUID trace m) =
      EventBuffer.push_all (arrivals trace) (Main.events m).
Proof.
  induction trace as [|ne trace IH] using rev_ind; intros m; [done|].
  rewrite main_run_snoc, main_step_events.
  destruct (IH m) as [Hgw ->].
  split.
  - unfold Main.step. cbn [Main.gw]. by rewrite Hgw, gateway_run_app.
  - unfold arrivals. by rewrite omap_app, push_all_app.
Qed.

(** The buffer the [openclaw_events] tool queries holds the most recent
    1000 event frames the client received, the challenges apart, oldest
    first, each stamped with the clock of its arrival; every such frame
    enters the buffer, whatever the state of the connection. *)
Theorem buffer_holds_the_latest_gateway_events
    (o : Options) (trace : list (Z * Event)) :
  let m := Main.run randomUUID trace (Main.new o) in
  let seen := arrivals trace in
  Main.gw m = run randomUUID trace (new o)
  ∧ EventBuffer.buf (Main.events m) =
      EventBuffer.stamped <$>
        drop (length seen - Z.to_nat EventBuffer.DEFAULT_CAPACITY) seen
  ∧ EventBuffer.size (Main.events m) =
      (length seen `min` Z.to_nat EventBuffer.DEFAULT_CAPACITY)%nat
  ∧ EventBuffer.frame <$> EventBuffer.query None (Main.events m) =
      drop (length seen - Z.to_nat EventBuffer.DEFAULT_CAPACITY)
        (omap forwarded trace).
Proof.
  intros m seen.
  destruct (main_run_events trace (Main.new o)) as [Hgw Hev].
  fold m in Hgw, Hev. split; [exact Hgw|].
  destruct (push_all_window seen (EventBuffer.new None)) as [_ Hbuf];
    [simpl; unfold EventBuffer.DEFAULT_CAPACITY; lia
    |simpl; unfold EventBuffer.DEFAULT_CAPACITY; lia|].
  assert (EventBuffer.buf (Main.events m) =
            EventBuffer.stamped <$>
              drop (length seen - Z.to_nat EventBuffer.DEFAULT_CAPACITY) seen)
    as Hshape.
  { rewrite Hev. cbn [Main.new Main.events]. fold seen. rewrite Hbuf.
    cbn [EventBuffer.new EventBuffer.buf EventBuffer.capacity default app].
    by rewrite length_fmap, fmap_drop. }
  split; [exact Hshape|]. split.
  - unfold EventBuffer.size. rewrite Hshape, length_fmap, length_drop. lia.
  - change (EventBuffer.query None (Main.events m))
      with (EventBuffer.buf (Main.events m)).
    rewrite Hshape, <- list_fmap_compose.
    assert (omap forwarded trace = snd <$> seen) as ->.
    { subst seen. unfold arrivals. clear.
      induction trace as [|ne trace IH]; [done|]. csimpl.
      destruct (forwarded ne); csimpl; by rewrite IH. }
    rewrite <- fmap_drop. reflexivity.
Qed.














(** Identifiers drawn from [randomUUID] never repeat. *)
Hypothesis unique : ∀ n m, randomUUID n = randomUUID m → n = m.








End Process.


(** ** The resolver: the guards and the poll loop *)

Section ResolverFacts.

Import Resolver.

Variable trim : string → string.

Lemma poll_reply deadline baseline polls : ∀ lastSeen stableCount text,
  poll deadline baseline lastSeen stableCount polls = Reply text →
  differs baseline text = true.
Proof.
  induction polls as [|[now reading] polls IH]; intros lastSeen k text Hpoll;
    [done|].
  cbn [poll] in Hpoll. destruct (now <? deadline).
  - destruct reading as [current|message]; [|done].
    destruct (differs baseline current) eqn:Hnew; [|by eapply IH].
    destruct (String.eqb current lastSeen); [|by eapply IH].
    destruct (STABLE_POLLS <=? S k)%nat; [|by eapply IH].
    by injection Hpoll as <-.
  - destruct (differs baseline lastSeen) eqn:Hnew; [|done].
    by injection Hpoll as <-.
Qed.

Lemma differs_spec baseline text :
  differs baseline text = true ↔ text ≠ "" ∧ text ≠ baseline.
Proof.
  unfold differs, truthy_string.
  rewrite andb_true_iff, !negb_true_iff, !String.eqb_neq. done.
Qed.

(** What the resolver hands back.  It answers [undefined] without reading
    or typing anything when the bridge is not connected or the content is
    blank; the text it types is the content as it came, not trimmed, taken
    from [BodyForCommands] whenever that is a string, even an empty one; and
    a reply is never empty and never the text that was on the screen before
    the injection. *)
Theorem resolver_replies_with_new_text_only :
  (∀ ctx timeout first injected now polls,
     getClaudeDesktopResolver trim ctx timeout false first injected now polls
     = (NoReply, None))
  ∧ (∀ ctx timeout connected first injected now polls,
       trim (content_of ctx) = "" →
       getClaudeDesktopResolver trim ctx timeout connected first injected now polls
       = (NoReply, None))
  ∧ (∀ ctx timeout connected first injected now polls outcome typed,
       getClaudeDesktopResolver trim ctx timeout connected first injected now polls
       = (outcome, Some typed) →
       connected = true ∧ trim typed ≠ "" ∧ typed = content_of ctx
       ∧ (∀ text, BodyForCommands ctx = Some text → typed = text))
  ∧ (∀ ctx timeout connected baseline injected now polls text typed,
       getClaudeDesktopResolver trim ctx timeout connected (Read baseline)
         injected now polls = (Reply text, typed) →
       text ≠ "" ∧ text ≠ baseline ∧ injected = CdpBridge.Returned
       ∧ typed = Some (content_of ctx)).
Proof.
  split; [done|]. split; [|split].
  - intros ctx timeout connected first injected now polls Hblank.
    unfold getClaudeDesktopResolver. rewrite Hblank.
    by destruct connected.
  - intros ctx timeout connected first injected now polls outcome typed.
    unfold getClaudeDesktopResolver.
    destruct connected; simpl; [|done].
    destruct (truthy_string (trim (content_of ctx))) eqn:Hcontent; simpl;
      [|done].
    intros Hrun.
    assert (typed = content_of ctx) as ->.
    { destruct first; [destruct injected|]; by simplify_eq. }
    split; [done|]. split.
    + unfold truthy_string in Hcontent.
      by apply negb_true_iff, String.eqb_neq in Hcontent.
    + split; [done|]. intros text Hbody. unfold content_of. by rewrite Hbody.
  - intros ctx timeout connected baseline injected now polls text typed.
    unfold getClaudeDesktopResolver.
    destruct connected; simpl; [|done].
    destruct (truthy_string (trim (content_of ctx))); simpl; [|done].
    destruct injected; [|done]. intros [= Hpoll <-].
    apply poll_reply, differs_spec in Hpoll as [? ?]. done.
Qed.

(** A poll that reads nothing new (an empty text, or the text that was
    there before the injection) is ignored wherever it falls: it neither
    counts towards the stability of the text seen last nor resets it. *)
Theorem poll_ignores_old_readings
    (deadline : Z) (baseline old : string) (now : Z)
    (before after : list (Z * Reading)) (lastSeen : string) (stableCount : nat) :
  differs baseline old = false →
  now < deadline →
  poll deadline baseline lastSeen stableCount (before ++ (now, Read old) :: after)
  = poll deadline baseline lastSeen stableCount (before ++ after).
Proof.
  intros Hold Hnow. revert lastSeen stableCount.
  induction before as [|[now' reading] before IH]; intros lastSeen k;
    cbn [app poll].
  - destruct (Z.ltb_spec now deadline); [|lia]. by rewrite Hold.
  - destruct (now' <? deadline); [|done].
    destruct reading as [current|message]; [|done].
    destruct (differs baseline current); [|done].
    destruct (String.eqb current lastSeen); [|done].
    by destruct (STABLE_POLLS <=? S k)%nat.
Qed.

Lemma poll_confirm deadline baseline text rest clocks : ∀ k,
  differs baseline text = true →
  Forall (λ now, now < deadline) clocks →
  (k < STABLE_POLLS)%nat →
  poll deadline baseline text k (sightings text clocks ++ rest) =
    if (STABLE_POLLS <=? k + length clocks)%nat then Reply text
    else poll deadline baseline text (k + length clocks) rest.
Proof.
  induction clocks as [|now clocks IH]; intros k Hnew Hearly Hk.
  - cbn [sightings fmap list_fmap app length]. rewrite Nat.add_0_r.
    destruct (Nat.leb_spec STABLE_POLLS k); [lia | done].
  - apply Forall_cons in Hearly as [Hnow Hearly].
    cbn [sightings fmap list_fmap app length poll].
    change ((λ now, (now, Read text)) <$> clocks) with (sightings text clocks).
    destruct (Z.ltb_spec now deadline); [|lia].
    rewrite Hnew, String.eqb_refl.
    replace (k + S (length clocks))%nat with (S k + length clocks)%nat by lia.
    destruct (Nat.leb_spec STABLE_POLLS (S k)) as [Hdone|Hmore].
    + destruct (Nat.leb_spec STABLE_POLLS (S k + length clocks)); [done | lia].
    + by apply IH.
Qed.

(** A new text is returned before the deadline at its fourth sighting in a
    row, not its third: the first sighting makes it the text seen last, and
    [STABLE_POLLS] more have to confirm it.  With fewer sightings the loop
    goes on, holding the text; and when the deadline passes first, the text
    is returned all the same. *)
Theorem reply_at_the_fourth_sighting
    (deadline : Z) (baseline text : string) (first : Z) (clocks : list Z)
    (rest : list (Z * Reading)) :
  differs baseline text = true →
  Forall (λ now, now < deadline) (first :: clocks) →
  poll deadline baseline baseline 0 (sightings text (first :: clocks) ++ rest) =
    (if (STABLE_POLLS <=? length clocks)%nat then Reply text
     else poll deadline baseline text (length clocks) rest)
  ∧ (∀ k late reading rest',
       deadline ≤ late →
       poll deadline baseline text k ((late, reading) :: rest') = Reply text).
Proof.
  intros Hnew Hearly. split.
  - apply Forall_cons in Hearly as [Hfirst Hearly].
    cbn [sightings fmap list_fmap app].
    change ((λ now, (now, Read text)) <$> clocks) with (sightings text clocks).
    cbn [poll]. destruct (Z.ltb_spec first deadline); [|lia].
    rewrite Hnew.
    assert (String.eqb text baseline = false) as ->.
    { apply differs_spec in Hnew as [_ Hneq]. by apply String.eqb_neq. }
    rewrite (poll_confirm deadline baseline text rest clocks 0 Hnew Hearly)
      by (unfold STABLE_POLLS; lia).
    done.
  - intros k late reading rest' Hlate. cbn [poll].
    destruct (Z.ltb_spec late deadline); [lia|]. by rewrite Hnew.
Qed.

End ResolverFacts.

(** The screen shows the old reply twice while the new one is written. *)
Lemma poll_ignores_old_readings_witness :
  Resolver.poll 1000 "old" "old" 0
    ([(100, Resolver.Read "new")] ++ (200, Resolver.Read "old")
       :: [(300, Resolver.Read "new")])
  = Resolver.poll 1000 "old" "old" 0
      ([(100, Resolver.Read "new")] ++ [(300, Resolver.Read "new")]).
Proof.
  exact (poll_ignores_old_readings 1000 "old" "old" 200
           [(100, Resolver.Read "new")] [(300, Resolver.Read "new")] "old" 0
           eq_refl eq_refl).
Defined.

(** Four sightings of the new text, half a second apart. *)
Lemma reply_at_the_fourth_sighting_witness :
  Resolver.poll 120000 "old" "old" 0
    (sightings "new" [500; 1000; 1500; 2000] ++ [])
  = (if (Resolver.STABLE_POLLS <=? length [1000; 1500; 2000])%nat
     then Resolver.Reply "new"
     else Resolver.poll 120000 "old" "new" (length [1000; 1500; 2000]) []).
Proof.
  exact (proj1 (reply_at_the_fourth_sighting 120000 "old" "new" 500
                  [1000; 1500; 2000] [] eq_refl
                  ltac:(repeat constructor))).
Defined.
